(** * AVL balanced binary search tree (AVLTree.h, AVLTreeNode.h, MapEntry.h)

    The C++ classes keep their nodes on the free store and link them with raw
    pointers; [Add], [Remove] and the rotations mutate the nodes in place.
    The embedding keeps that shape: the free store is a finite map from
    locations to node records, a pointer is an optional location
    ([None] is [nullptr]) and every method is a function on the store.

    The templates are read at their one instantiation in main.cc,
    [AVLTree<int, std::string>]: keys are integers (only compared, never
    computed with), values are strings.

    main.cc calls [Add], the getters and the iterators.  It does not call
    [Remove], and no program can: two statements of [Remove] do not
    type-check (see there), and each path through the function passes one of
    them.  [Remove] is therefore modelled with what these two statements do
    left open. *)

From stdpp Require Import gmap strings list fin_maps.
From Stdlib Require Import ZArith Lia DecimalString.

Local Open Scope Z_scope.

(** ** Pointers and results *)

Definition loc := positive.

(** A pointer to a node; [None] is [nullptr]. *)
Definition ptr := option loc.

(** The two [std::range_error]s the tree throws: from [GetNode]
    ("! Key {} not present in Tree !") and from [Add]
    ("! Key already exists in Tree !"). *)
Inductive range_error :=
  | KeyNotPresent (key : Z)
  | KeyAlreadyExists.

(** How a call ends: it returns a value, it executes [return nullptr;], or it
    throws. *)
Inductive ret (A : Type) :=
  | Return (a : A)
  | ReturnNull
  | Throw (e : range_error).
Arguments Return {A} a.
Arguments ReturnNull {A}.
Arguments Throw {A} e.

(** ** MapEntry.h *)

Record MapEntry := mkMapEntry { key : Z; value : string }.

(** ** AVLTreeNode.h *)

Record AVLTreeNode := mkNode {
  key_ : Z;
  value_ : string;
  left_ : ptr;
  right_ : ptr;
  height_ : Z
}.

(** The free store. A location that is not in the map holds no live node:
    reading through such a pointer, or through [nullptr], is undefined in
    C++ and yields [None] here. *)
Abbreviation heap := (gmap loc AVLTreeNode).

Definition deref (h : heap) (p : ptr) : option AVLTreeNode :=
  a ← p; h !! a.

Definition GetValue (h : heap) (this : ptr) : option string :=
  value_ <$> deref h this.
Definition GetKey (h : heap) (this : ptr) : option Z :=
  key_ <$> deref h this.
Definition GetLeft (h : heap) (this : ptr) : option ptr :=
  left_ <$> deref h this.
Definition GetRight (h : heap) (this : ptr) : option ptr :=
  right_ <$> deref h this.
Definition GetHeight (h : heap) (this : ptr) : option Z :=
  height_ <$> deref h this.

Definition SetValue (h : heap) (this : ptr) (v : string) : option heap :=
  a ← this; n ← h !! a;
  Some (<[a := mkNode (key_ n) v (left_ n) (right_ n) (height_ n)]> h).
Definition SetLeft (h : heap) (this : ptr) (node : ptr) : option heap :=
  a ← this; n ← h !! a;
  Some (<[a := mkNode (key_ n) (value_ n) node (right_ n) (height_ n)]> h).
Definition SetRight (h : heap) (this : ptr) (node : ptr) : option heap :=
  a ← this; n ← h !! a;
  Some (<[a := mkNode (key_ n) (value_ n) (left_ n) node (height_ n)]> h).

(** [(child == nullptr) ? -1 : child->GetHeight()] *)
Definition child_height (h : heap) (child : ptr) : option Z :=
  match child with
  | None => Some (-1)
  | Some _ => GetHeight h child
  end.

Definition GetBalanceFactor (h : heap) (this : ptr) : option Z :=
  n ← deref h this;
  r ← child_height h (right_ n);
  l ← child_height h (left_ n);
  Some (l - r).

Definition GetMapEntry (h : heap) (this : ptr) : option MapEntry :=
  n ← deref h this; Some (mkMapEntry (key_ n) (value_ n)).

Definition CalculateHeight (h : heap) (this : ptr) : option heap :=
  a ← this; n ← h !! a;
  r ← child_height h (right_ n);
  l ← child_height h (left_ n);
  Some (<[a := mkNode (key_ n) (value_ n) (left_ n) (right_ n)
                      (if r >? l then r + 1 else l + 1)]> h).

(** [new AVLTreeNode(key, value)]: the constructor nulls both children and
    calls [CalculateHeight], which caches height 0 for the leaf.  The node is
    placed at a location that holds no live node. *)
Definition new_node (h : heap) (k : Z) (v : string) : loc * heap :=
  let a := fresh (dom h) in
  (a, <[a := mkNode k v None None 0]> h).

(** ** AVLTree.h *)

Inductive AVLTreeTraversalMethod := InOrder | ReverseOrder | TopDown.

(** The tree object together with the store its nodes live in. *)
Record AVLTree := mkTree {
  store : heap;
  root_ : ptr;
  count_ : Z;
  traversal_method_ : AVLTreeTraversalMethod
}.

Definition set_store (t : AVLTree) (h : heap) : AVLTree :=
  mkTree h (root_ t) (count_ t) (traversal_method_ t).
Definition set_root (t : AVLTree) (r : ptr) : AVLTree :=
  mkTree (store t) r (count_ t) (traversal_method_ t).
Definition set_count (t : AVLTree) (c : Z) : AVLTree :=
  mkTree (store t) (root_ t) c (traversal_method_ t).

(** [AVLTree()] and [AVLTree(traversal_method)], in a store [h]. *)
Definition AVLTree_new (h : heap) : AVLTree := mkTree h None 0 InOrder.
Definition AVLTree_new_with (h : heap) (m : AVLTreeTraversalMethod) : AVLTree :=
  mkTree h None 0 m.

Definition GetCount (t : AVLTree) : Z := count_ t.
Definition GetTraversalMethod (t : AVLTree) := traversal_method_ t.
Definition SetTraversalMethod (t : AVLTree) (m : AVLTreeTraversalMethod) : AVLTree :=
  mkTree (store t) (root_ t) (count_ t) m.

Definition GetTreeHieight (t : AVLTree) : option Z :=
  match root_ t with
  | Some _ => GetHeight (store t) (root_ t)
  | None => Some 0
  end.

Definition GetTreeBalanceFactor (t : AVLTree) : option Z :=
  match root_ t with
  | Some _ => GetBalanceFactor (store t) (root_ t)
  | None => Some 0
  end.

(** The loops that walk down child pointers read the store and never write
    it, so a walk that has taken more steps than there are live nodes has
    entered some node twice and will never end.  Each such loop is given
    [walk_fuel] steps; running out of them is the non-terminating run. *)
Definition walk_fuel (h : heap) : nat := S (size h).

Fixpoint GetNode_loop (fuel : nat) (h : heap) (current : ptr) (k : Z)
  : option (ret AVLTreeNode) :=
  match current with
  | None => Some (Throw (KeyNotPresent k))
  | Some a =>
    match fuel with
    | O => None
    | S fuel' =>
      n ← h !! a;
      if key_ n =? k then Some (Return n)
      else if key_ n <? k then GetNode_loop fuel' h (right_ n) k
      else GetNode_loop fuel' h (left_ n) k
    end
  end.

Definition GetNode (t : AVLTree) (k : Z) : option (ret AVLTreeNode) :=
  GetNode_loop (walk_fuel (store t)) (store t) (root_ t) k.

Definition Get (t : AVLTree) (k : Z) : option (ret MapEntry) :=
  r ← GetNode t k;
  Some match r with
       | Return n => Return (mkMapEntry (key_ n) (value_ n))
       | ReturnNull => ReturnNull
       | Throw e => Throw e
       end.

Fixpoint GetMinKey_loop (fuel : nat) (h : heap) (current : ptr) : option ptr :=
  l ← GetLeft h current;
  match l with
  | None => Some current
  | Some _ =>
    match fuel with
    | O => None
    | S fuel' => GetMinKey_loop fuel' h l
    end
  end.

(** On a null root [GetMinKey] and [GetMaxKey] execute [return nullptr;]
    where a key is to be returned.  That is well-formed only for a key type
    that [nullptr] converts to, which [int] is not: with the keys of main.cc
    the two functions cannot be called.  The model keeps the statement as it
    runs at a pointer key type, with a result apart from every key. *)
Definition GetMinKey (t : AVLTree) : option (ret Z) :=
  match root_ t with
  | None => Some ReturnNull
  | Some _ =>
    current ← GetMinKey_loop (walk_fuel (store t)) (store t) (root_ t);
    k ← GetKey (store t) current;
    Some (Return k)
  end.

Fixpoint GetMaxKey_loop (fuel : nat) (h : heap) (current : ptr) : option ptr :=
  r ← GetRight h current;
  match r with
  | None => Some current
  | Some _ =>
    match fuel with
    | O => None
    | S fuel' => GetMaxKey_loop fuel' h r
    end
  end.

Definition GetMaxKey (t : AVLTree) : option (ret Z) :=
  match root_ t with
  | None => Some ReturnNull
  | Some _ =>
    current ← GetMaxKey_loop (walk_fuel (store t)) (store t) (root_ t);
    k ← GetKey (store t) current;
    Some (Return k)
  end.

(** [Clear] drops the pointer to the root; no node is deleted. *)
Definition Clear (t : AVLTree) : AVLTree :=
  mkTree (store t) None 0 (traversal_method_ t).

(** [count_] is an [int]: stepping it past either end is undefined. *)
Definition INT_MAX : Z := 2147483647.
Definition INT_MIN : Z := -2147483648.
Definition int_incr (c : Z) : option Z :=
  if c <? INT_MAX then Some (c + 1) else None.
Definition int_decr (c : Z) : option Z :=
  if INT_MIN <? c then Some (c - 1) else None.

(** *** Rotations *)

(** Rewire [parent] (or the root) to the new subtree root [top]: the slot is
    chosen by comparing keys, as at the end of both rotations. *)
Definition rewire (t : AVLTree) (top parent : ptr) : option AVLTree :=
  match parent with
  | None => Some (set_root t top)
  | Some _ =>
    kt ← GetKey (store t) top;
    kp ← GetKey (store t) parent;
    if kt <? kp then set_store t <$> SetLeft (store t) parent top
    else set_store t <$> SetRight (store t) parent top
  end.

Definition RotateRight (t : AVLTree) (node parent : ptr) : option AVLTree :=
  left_node ← GetLeft (store t) node;
  lr ← GetRight (store t) left_node;
  h1 ← SetLeft (store t) node lr;
  h2 ← SetRight h1 left_node node;
  h3 ← CalculateHeight h2 node;
  h4 ← CalculateHeight h3 left_node;
  rewire (set_store t h4) left_node parent.

Definition RotateLeft (t : AVLTree) (node parent : ptr) : option AVLTree :=
  right_node ← GetRight (store t) node;
  rl ← GetLeft (store t) right_node;
  h1 ← SetRight (store t) node rl;
  h2 ← SetLeft h1 right_node node;
  h3 ← CalculateHeight h2 node;
  h4 ← CalculateHeight h3 right_node;
  rewire (set_store t h4) right_node parent.

(** [my_stack.top()] and [my_stack.pop()]: the head of the list is the top;
    both are undefined on an empty stack. *)
Definition top (s : list ptr) : option ptr := head s.
Definition pop (s : list ptr) : option (list ptr) :=
  match s with [] => None | _ :: s' => Some s' end.

(** One pass of the body of the loop that walks back up the ancestor trail
    ([Add] lines 228-237, repeated verbatim in [Remove] lines 374-383). *)
Definition rebalance_step (t : AVLTree) (current : ptr) (my_stack : list ptr)
  : option AVLTree :=
  h ← CalculateHeight (store t) current;
  let t := set_store t h in
  bf ← GetBalanceFactor (store t) current;
  if bf >? 1 then
    l ← GetLeft (store t) current;
    lbf ← GetBalanceFactor (store t) l;
    t ← (if lbf <? 0 then RotateLeft t l current else Some t);
    p ← top my_stack;
    RotateRight t current p
  else if bf <? -1 then
    r ← GetRight (store t) current;
    rbf ← GetBalanceFactor (store t) r;
    t ← (if rbf >? 0 then RotateRight t r current else Some t);
    p ← top my_stack;
    RotateLeft t current p
  else Some t.

(** [while (current != nullptr) { ...; current = my_stack.top(); my_stack.pop(); }]
    The stack shrinks by one entry per pass, so the loop is a recursion on
    the stack. *)
Fixpoint rebalance (t : AVLTree) (current : ptr) (my_stack : list ptr)
  : option AVLTree :=
  match current with
  | None => Some t
  | Some _ =>
    t ← rebalance_step t current my_stack;
    match my_stack with
    | [] => None
    | next :: rest => rebalance t next rest
    end
  end.

(** *** Add *)

(** Where the search of [Add] ends: on a node with the same key, or at a null
    slot below [parent] with the ancestor trail on the stack. *)
Inductive add_search :=
  | FoundDuplicate
  | FoundSlot (parent : ptr) (my_stack : list ptr).

Fixpoint Add_search (fuel : nat) (h : heap) (Key : Z)
    (current parent : ptr) (my_stack : list ptr) : option add_search :=
  match current with
  | None => Some (FoundSlot parent my_stack)
  | Some a =>
    match fuel with
    | O => None
    | S fuel' =>
      c ← h !! a;
      let my_stack := current :: my_stack in
      if Key =? key_ c then Some FoundDuplicate
      else if Key >? key_ c then Add_search fuel' h Key (right_ c) current my_stack
      else Add_search fuel' h Key (left_ c) current my_stack
    end
  end.

(** The new node is allocated before the search, so it is still in the store
    (unreachable from the tree) when the duplicate is thrown. *)
Definition Add (t : AVLTree) (Key : Z) (Value : string)
  : option (ret unit * AVLTree) :=
  let '(a, h) := new_node (store t) Key Value in
  let node : ptr := Some a in
  let t := set_store t h in
  s ← Add_search (walk_fuel h) h Key (root_ t) None [None];
  match s with
  | FoundDuplicate => Some (Throw KeyAlreadyExists, t)
  | FoundSlot parent my_stack =>
    c ← int_incr (count_ t);
    let t := set_count t c in
    t ← match parent with
        | None => Some (set_root t node)
        | Some _ =>
          kp ← GetKey (store t) parent;
          if Key >? kp then set_store t <$> SetRight (store t) parent node
          else set_store t <$> SetLeft (store t) parent node
        end;
    current ← top my_stack;
    my_stack ← pop my_stack;
    t ← rebalance t current my_stack;
    Some (Return tt, t)
  end.

(** *** Remove *)

(** [while (current != nullptr && current->GetKey() != key)] *)
Fixpoint Remove_search (fuel : nat) (h : heap) (k : Z)
    (current parent : ptr) (my_stack : list ptr)
  : option (ptr * ptr * list ptr) :=
  match current with
  | None => Some (current, parent, my_stack)
  | Some a =>
    match fuel with
    | O => None
    | S fuel' =>
      c ← h !! a;
      if key_ c =? k then Some (current, parent, my_stack)
      else
        let my_stack := current :: my_stack in
        if k >? key_ c then Remove_search fuel' h k (right_ c) current my_stack
        else Remove_search fuel' h k (left_ c) current my_stack
    end
  end.

(** Case 3: [while (leftmost->GetLeft() != nullptr)]; the queue is a list
    whose head is the front. *)
Fixpoint Remove_leftmost (fuel : nat) (h : heap)
    (lmparent leftmost : ptr) (lmqueue : list ptr)
  : option (ptr * ptr * list ptr) :=
  ll ← GetLeft h leftmost;
  match ll with
  | None => Some (lmparent, leftmost, lmqueue)
  | Some _ =>
    match fuel with
    | O => None
    | S fuel' => Remove_leftmost fuel' h leftmost ll (lmqueue ++ [leftmost])
    end
  end.

(** [while (!lmqueue.empty()) { my_stack.push(lmqueue.front()); lmqueue.pop(); }] *)
Fixpoint drain (lmqueue my_stack : list ptr) : list ptr :=
  match lmqueue with
  | [] => my_stack
  | front :: lmqueue' => drain lmqueue' (front :: my_stack)
  end.

(** The slot of [parent] that receives the replacement in cases 2 and 3. *)
Definition Remove_relink (t : AVLTree) (current parent replacement : ptr)
  : option AVLTree :=
  match parent with
  | None => Some (set_root t replacement)
  | Some _ =>
    kp ← GetKey (store t) parent;
    kc ← GetKey (store t) current;
    if kp <? kc then set_store t <$> SetRight (store t) parent replacement
    else set_store t <$> SetLeft (store t) parent replacement
  end.

(** Case 1 (lines 289-300): both branches of the key comparison call
    [parent->SetRight]. *)
Definition Remove_case1 (t : AVLTree) (current parent : ptr) (my_stack : list ptr)
  : option (AVLTree * list ptr) :=
  cl ← GetLeft (store t) current;
  let my_stack := match cl with Some _ => cl :: my_stack | None => my_stack end in
  t ← match parent with
      | None => Some (set_root t cl)
      | Some _ =>
        kp ← GetKey (store t) parent;
        kc ← GetKey (store t) current;
        if kp <? kc then set_store t <$> SetRight (store t) parent cl
        else set_store t <$> SetRight (store t) parent cl
      end;
  Some (t, my_stack).

Definition Remove_case2 (t : AVLTree) (current parent : ptr) (my_stack : list ptr)
  : option (AVLTree * list ptr) :=
  cr ← GetRight (store t) current;
  let my_stack := cr :: my_stack in
  cl ← GetLeft (store t) current;
  h ← SetLeft (store t) cr cl;
  let t := set_store t h in
  t ← Remove_relink t current parent cr;
  Some (t, my_stack).

Definition Remove_case3 (t : AVLTree) (current parent : ptr) (my_stack : list ptr)
  : option (AVLTree * list ptr) :=
  lmparent ← GetRight (store t) current;
  leftmost ← GetLeft (store t) lmparent;
  '(lmparent, leftmost, lmqueue) ←
    Remove_leftmost (walk_fuel (store t)) (store t) lmparent leftmost [lmparent];
  lr ← GetRight (store t) leftmost;
  h ← SetLeft (store t) lmparent lr;
  cr ← GetRight h current;
  h ← SetRight h leftmost cr;
  cl ← GetLeft h current;
  h ← SetLeft h leftmost cl;
  let t := set_store t h in
  t ← Remove_relink t current parent leftmost;
  Some (t, drain lmqueue (leftmost :: my_stack)).

(** Two statements of [Remove] do not type-check, whatever the key and the
    value type: line 273, [return nullptr;], in a function that returns a
    [MapEntry] (whose one constructor takes a key and a value), and line
    372, [current = my_stack.pop();], which assigns the [void] result of
    [std::stack::pop] to a node pointer.  A program that calls [Remove] is
    not built, and the source does not say what the two statements do.  The
    model does not choose: what they do is a parameter of [Remove], a
    [reading], and what is proved of [Remove] is proved for every reading,
    or for the reading [as_written].

    [return_nullptr] is how the call ends at line 273, a null result or a
    throw (the comment on that line asks for one); [assign_pop] is the
    pointer line 372 assigns to [current] and the stack it leaves.  Either
    is [None] when the statement has no meaning. *)
Inductive no_value := Null | Thrown (e : range_error).

Definition without_value {A : Type} (x : no_value) : ret A :=
  match x with Null => ReturnNull | Thrown e => Throw e end.

Record reading := mkReading {
  return_nullptr : option no_value;
  assign_pop : list ptr → option (ptr * list ptr)
}.

(** The two statements as they are written: neither has a meaning. *)
Definition as_written : reading := mkReading None (λ _, None).

(** The two statements as the text around them suggests: line 372 as line
    384 of the same loop and line 226 of [Add] write the step,
    [current = my_stack.top(); my_stack.pop();], and line 273 as a null
    result.  This reading shows that what is proved for every reading is
    not proved of nothing; it is not the program. *)
Definition top_then_pop : reading :=
  mkReading (Some Null)
            (λ my_stack, current ← top my_stack;
                         my_stack ← pop my_stack;
                         Some (current, my_stack)).

Definition Remove (rd : reading) (t : AVLTree) (k : Z)
  : option (ret MapEntry * AVLTree) :=
  '(current, parent, my_stack) ←
    Remove_search (walk_fuel (store t)) (store t) k (root_ t) None [None];
  match current with
  | None => x ← return_nullptr rd; Some (without_value x, t)
  | Some a =>
    c ← int_decr (count_ t);
    let t := set_count t c in
    let removed := current in
    cr ← GetRight (store t) current;
    '(t, my_stack) ←
      match cr with
      | None => Remove_case1 t current parent my_stack
      | Some _ =>
        crl ← GetLeft (store t) cr;
        match crl with
        | None => Remove_case2 t current parent my_stack
        | Some _ => Remove_case3 t current parent my_stack
        end
      end;
    '(current, my_stack) ← assign_pop rd my_stack;
    t ← rebalance t current my_stack;
    map_entry ← GetMapEntry (store t) removed;
    h ← SetLeft (store t) removed None;
    h ← SetRight h removed None;
    Some (Return map_entry, set_store t (delete a h))
  end.

(** *** Iterator *)

Module Iterator.

Record Iterator := mkIterator {
  current_ : ptr;
  stack_ : list ptr;
  queue_ : list ptr;
  traversal_method_ : AVLTreeTraversalMethod
}.

(** [while (current != nullptr) { stack_.push(current); current = current->GetLeft(); }] *)
Fixpoint push_left (fuel : nat) (h : heap) (current : ptr) (stack_ : list ptr)
  : option (list ptr) :=
  match current with
  | None => Some stack_
  | Some _ =>
    match fuel with
    | O => None
    | S fuel' =>
      l ← GetLeft h current;
      push_left fuel' h l (current :: stack_)
    end
  end.

Definition StackLeftToNull (h : heap) (stack_ : list ptr) : option (list ptr) :=
  current ← top stack_;
  match current with
  | None => Some stack_
  | Some _ =>
    l ← GetLeft h current;
    push_left (walk_fuel h) h l stack_
  end.

Fixpoint push_right (fuel : nat) (h : heap) (current : ptr) (stack_ : list ptr)
  : option (list ptr) :=
  match current with
  | None => Some stack_
  | Some _ =>
    match fuel with
    | O => None
    | S fuel' =>
      r ← GetRight h current;
      push_right fuel' h r (current :: stack_)
    end
  end.

Definition StackRightToNull (h : heap) (stack_ : list ptr) : option (list ptr) :=
  current ← top stack_;
  match current with
  | None => Some stack_
  | Some _ =>
    r ← GetRight h current;
    push_right (walk_fuel h) h r stack_
  end.

(** The children of [current_] that are not null, left first, go to the back
    of the queue. *)
Definition enqueue_children (h : heap) (current_ : ptr) (queue_ : list ptr)
  : option (list ptr) :=
  l ← GetLeft h current_;
  let queue_ := match l with Some _ => queue_ ++ [l] | None => queue_ end in
  r ← GetRight h current_;
  Some match r with Some _ => queue_ ++ [r] | None => queue_ end.

(** [Iterator(start, traversal_method)]: the constructor leaves the stack and
    the queue empty and calls [SetInitalLocation]. *)
Definition SetInitalLocation (h : heap) (m : AVLTreeTraversalMethod) (start : ptr)
  : option Iterator :=
  match m with
  | InOrder =>
    s ← StackLeftToNull h (start :: [None]);
    c ← top s; s ← pop s;
    Some (mkIterator c s [] m)
  | ReverseOrder =>
    s ← StackRightToNull h (start :: [None]);
    c ← top s; s ← pop s;
    Some (mkIterator c s [] m)
  | TopDown =>
    match start with
    | Some _ =>
      q ← enqueue_children h start [];
      Some (mkIterator start [] q m)
    | None => Some (mkIterator start [] [] m)
    end
  end.

Definition MoveNext (h : heap) (it : Iterator) : option Iterator :=
  match traversal_method_ it with
  | InOrder =>
    r ← GetRight h (current_ it);
    s ← match r with
        | Some _ => StackLeftToNull h (r :: stack_ it)
        | None => Some (stack_ it)
        end;
    c ← top s; s ← pop s;
    Some (mkIterator c s (queue_ it) InOrder)
  | ReverseOrder =>
    l ← GetLeft h (current_ it);
    s ← match l with
        | Some _ => StackRightToNull h (l :: stack_ it)
        | None => Some (stack_ it)
        end;
    c ← top s; s ← pop s;
    Some (mkIterator c s (queue_ it) ReverseOrder)
  | TopDown =>
    match queue_ it with
    | front :: q =>
      q ← enqueue_children h front q;
      Some (mkIterator front (stack_ it) q TopDown)
    | [] => Some (mkIterator None (stack_ it) [] TopDown)
    end
  end.

(** [operator==] compares the current pointers only. *)
Definition eqb (a b : Iterator) : bool :=
  bool_decide (current_ a = current_ b).

End Iterator.

Definition begin_ (t : AVLTree) : option Iterator.Iterator :=
  Iterator.SetInitalLocation (store t) (traversal_method_ t) (root_ t).
Definition end_ (t : AVLTree) : option Iterator.Iterator :=
  Iterator.SetInitalLocation (store t) (traversal_method_ t) None.

(** The range-based loop of main.cc, [for (auto me : tree)]: the nodes the
    iterator stands on, from [begin()] until it compares equal to [end()].
    The number of passes is not bounded by the code; [fuel] bounds it here. *)
Fixpoint range_for_loop (fuel : nat) (h : heap) (it last : Iterator.Iterator)
  : option (list AVLTreeNode) :=
  if Iterator.eqb it last then Some []
  else
    match fuel with
    | O => None
    | S fuel' =>
      me ← deref h (Iterator.current_ it);
      it ← Iterator.MoveNext h it;
      rest ← range_for_loop fuel' h it last;
      Some (me :: rest)
    end.

Definition range_for (fuel : nat) (t : AVLTree) : option (list AVLTreeNode) :=
  it ← begin_ t;
  last ← end_ t;
  range_for_loop fuel (store t) it last.

(** ** The tree a store represents *)

(** The shape of the nodes reachable from a pointer: for each node its
    location, key, value and cached height.  The child pointers of a node are
    the roots of its two subtrees. *)
Inductive tree :=
  | Leaf
  | Node (l : tree) (a : loc) (k : Z) (v : string) (ht : Z) (r : tree).
Arguments Node l a%_positive k%_Z v%_string ht%_Z r.

Definition root_of (T : tree) : ptr :=
  match T with
  | Leaf => None
  | Node _ a _ _ _ _ => Some a
  end.

(** The node record stored for the root of [Node l a k v ht r]. *)
Definition cell (l : tree) (k : Z) (v : string) (ht : Z) (r : tree) : AVLTreeNode :=
  mkNode k v (root_of l) (root_of r) ht.

Fixpoint shape (h : heap) (T : tree) : Prop :=
  match T with
  | Leaf => True
  | Node l a k v ht r => h !! a = Some (cell l k v ht r) ∧ shape h l ∧ shape h r
  end.

Fixpoint addrs (T : tree) : list loc :=
  match T with
  | Leaf => []
  | Node l a _ _ _ r => addrs l ++ a :: addrs r
  end.

(** Left-to-right (in-order) listing of the node records, of the entries and
    of the keys. *)
Fixpoint cells (T : tree) : list AVLTreeNode :=
  match T with
  | Leaf => []
  | Node l _ k v ht r => cells l ++ cell l k v ht r :: cells r
  end.

Fixpoint entries (T : tree) : list MapEntry :=
  match T with
  | Leaf => []
  | Node l _ k v _ r => entries l ++ mkMapEntry k v :: entries r
  end.

Definition keys (T : tree) : list Z := key <$> entries T.

Fixpoint nodes_count (T : tree) : nat :=
  match T with
  | Leaf => O
  | Node l _ _ _ _ r => S (nodes_count l + nodes_count r)
  end.

(** Number of levels: 0 for the empty tree, 1 for a leaf. *)
Fixpoint levels (T : tree) : nat :=
  match T with
  | Leaf => O
  | Node l _ _ _ _ r => S (Nat.max (levels l) (levels r))
  end.

(** Height as AVLTreeNode.h counts it: -1 for an absent child, 0 for a leaf. *)
Fixpoint height (T : tree) : Z :=
  match T with
  | Leaf => -1
  | Node l _ _ _ _ r => 1 + Z.max (height l) (height r)
  end.

(** BST ordering: keys to the left are strictly smaller, keys to the right
    strictly greater. *)
Fixpoint bst (T : tree) : Prop :=
  match T with
  | Leaf => True
  | Node l _ k _ _ r =>
    Forall (λ x, x < k) (keys l) ∧ Forall (λ x, k < x) (keys r) ∧ bst l ∧ bst r
  end.

(** AVL balance: at every node the heights of the two subtrees differ by at
    most one. *)
Fixpoint avl (T : tree) : Prop :=
  match T with
  | Leaf => True
  | Node l _ _ _ _ r => Z.abs (height l - height r) <= 1 ∧ avl l ∧ avl r
  end.

(** The tree object [t] holds the tree [T]: the root pointer is the root of
    [T], every node of [T] is live in the store, and no node occurs twice
    (each node is owned by one parent). *)
Definition represents (t : AVLTree) (T : tree) : Prop :=
  root_ t = root_of T ∧ shape (store t) T ∧ NoDup (addrs T).

(** Strictly increasing and strictly decreasing key sequences. *)
Fixpoint increasing (ks : list Z) : Prop :=
  match ks with
  | [] => True
  | x :: ks' => match ks' with [] => True | y :: _ => x < y end ∧ increasing ks'
  end.

Fixpoint decreasing (ks : list Z) : Prop :=
  match ks with
  | [] => True
  | x :: ks' => match ks' with [] => True | y :: _ => y < x end ∧ decreasing ks'
  end.

(** The nodes at depth [d], left to right, and the level-by-level
    (breadth-first) listing: depth 0 first. *)
Fixpoint level (d : nat) (T : tree) {struct T} : list AVLTreeNode :=
  match T with
  | Leaf => []
  | Node l _ k v ht r =>
    match d with
    | O => [cell l k v ht r]
    | S d' => level d' l ++ level d' r
    end
  end.

Definition breadth_first (T : tree) : list AVLTreeNode :=
  concat ((λ d, level d T) <$> seq 0 (levels T)).

(** The search of a binary search tree for [k], on the shape: the node record
    it stops at, if any. *)
Fixpoint find (T : tree) (k : Z) : option AVLTreeNode :=
  match T with
  | Leaf => None
  | Node l _ k' v ht r =>
    if k' =? k then Some (cell l k' v ht r)
    else if k' <? k then find r k
    else find l k
  end.

(** *** What an iterator still has to visit *)

(** The stack of the in-order iterator holds a node together with everything
    below its right child; that of the reverse iterator, a node together with
    everything below its left child. *)
Definition node_then_right (T : tree) : list AVLTreeNode :=
  match T with
  | Leaf => []
  | Node l _ k v ht r => cell l k v ht r :: cells r
  end.

Definition node_then_left (T : tree) : list AVLTreeNode :=
  match T with
  | Leaf => []
  | Node l _ k v ht r => cell l k v ht r :: rev (cells l)
  end.

(** The subtrees on the way down the left (right) edge, the deepest first. *)
Fixpoint left_spine (T : tree) : list tree :=
  match T with
  | Leaf => []
  | Node l _ _ _ _ _ => left_spine l ++ [T]
  end.

Fixpoint right_spine (T : tree) : list tree :=
  match T with
  | Leaf => []
  | Node _ _ _ _ _ r => right_spine r ++ [T]
  end.

(** The children of a node that are not empty, left first. *)
Definition nonempty (T : tree) : list tree :=
  match T with
  | Leaf => []
  | Node _ _ _ _ _ _ => [T]
  end.

Definition children (T : tree) : list tree :=
  match T with
  | Leaf => []
  | Node l _ _ _ _ r => nonempty l ++ nonempty r
  end.

(** The nodes of a queue of trees level by level, down to depth [n]. *)
Definition forest_level (d : nat) (q : list tree) : list AVLTreeNode :=
  q ≫= level d.

Definition forest_levels (n : nat) (q : list tree) : list AVLTreeNode :=
  concat ((λ d, forest_level d q) <$> seq 0 n).

(** A subtree that lies in the store and that a walk can go down. *)
Definition walkable (h : heap) (T : tree) : Prop :=
  shape h T ∧ (levels T < walk_fuel h)%nat.

(** A subtree an iterator can stand on. *)
Definition visitable (h : heap) (T : tree) : Prop := T ≠ Leaf ∧ walkable h T.

(** The in-order iterator stands on the first of [todo] and has the rest on
    its stack, above the null pushed first. *)
Definition in_order_state (h : heap) (it : Iterator.Iterator) (todo : list tree) : Prop :=
  Iterator.traversal_method_ it = InOrder ∧
  Forall (visitable h) todo ∧
  match todo with
  | [] => Iterator.current_ it = None
  | T :: stk =>
    Iterator.current_ it = root_of T ∧
    Iterator.stack_ it = (root_of <$> stk) ++ [None]
  end.

(** The same for the reverse iterator. *)
Definition reverse_state (h : heap) (it : Iterator.Iterator) (todo : list tree) : Prop :=
  Iterator.traversal_method_ it = ReverseOrder ∧
  Forall (visitable h) todo ∧
  match todo with
  | [] => Iterator.current_ it = None
  | T :: stk =>
    Iterator.current_ it = root_of T ∧
    Iterator.stack_ it = (root_of <$> stk) ++ [None]
  end.

(** What the level-order iterator stands on and what waits in its queue. *)
Definition queued (h : heap) (N : nat) (T : tree) : Prop :=
  T ≠ Leaf ∧ shape h T ∧ (levels T ≤ N)%nat.

Definition top_down_state (h : heap) (N : nat) (it : Iterator.Iterator)
    (T : tree) (q : list tree) : Prop :=
  Iterator.traversal_method_ it = TopDown ∧
  queued h N T ∧ Forall (queued h N) q ∧
  Iterator.current_ it = root_of T ∧
  Iterator.queue_ it = root_of <$> q.


(** *** A subtree in its context *)

(** One step of the path from a subtree up to the root: the parent node and
    the sibling subtree. *)
Inductive frame :=
  | InLeft (a : loc) (k : Z) (v : string) (ht : Z) (r : tree)
  | InRight (l : tree) (a : loc) (k : Z) (v : string) (ht : Z).
Arguments InLeft a%_positive k%_Z v%_string ht%_Z r.
Arguments InRight l a%_positive k%_Z v%_string ht%_Z.

(** The head of the list is the parent of the hole. *)
Fixpoint plug (c : list frame) (T : tree) : tree :=
  match c with
  | [] => T
  | InLeft a k v ht r :: c' => plug c' (Node T a k v ht r)
  | InRight l a k v ht :: c' => plug c' (Node l a k v ht T)
  end.

Definition frame_loc (f : frame) : loc :=
  match f with
  | InLeft a _ _ _ _ => a
  | InRight _ a _ _ _ => a
  end.

Definition parent_of (c : list frame) : ptr := frame_loc <$> head c.

(** The nodes of a context are in the store, the innermost one pointing at
    [hole] where the subtree goes. *)
Fixpoint shape_ctx (h : heap) (c : list frame) (hole : ptr) : Prop :=
  match c with
  | [] => True
  | InLeft a k v ht r :: c' =>
    h !! a = Some (mkNode k v hole (root_of r) ht) ∧ shape h r ∧
    shape_ctx h c' (Some a)
  | InRight l a k v ht :: c' =>
    h !! a = Some (mkNode k v (root_of l) hole ht) ∧ shape h l ∧
    shape_ctx h c' (Some a)
  end.

Definition frame_addrs (f : frame) : list loc :=
  match f with
  | InLeft a _ _ _ r => a :: addrs r
  | InRight l a _ _ _ => a :: addrs l
  end.

Definition ctx_addrs (c : list frame) : list loc := c ≫= frame_addrs.

(** The side of its parent a subtree with root key [k] hangs on agrees with
    the key comparison of [rewire]. *)
Definition hangs_by_key (c : list frame) (k : Z) : Prop :=
  match c with
  | [] => True
  | InLeft _ kp _ _ _ :: _ => k < kp
  | InRight _ _ kp _ _ :: _ => kp < k
  end.

(** Cached height of a subtree as [CalculateHeight] reads it. *)
Definition cached (T : tree) : Z :=
  match T with
  | Leaf => -1
  | Node _ _ _ _ ht _ => ht
  end.

Definition recomputed (l r : tree) : Z :=
  if cached r >? cached l then cached r + 1 else cached l + 1.

(** The subtree [Node (Node A al kl vl hl B) an kn vn hn C] after
    [RotateRight] of its root, and [Node A an kn vn hn (Node B ar kr vr hr C)]
    after [RotateLeft] of its root. *)
Definition rotated_right (A : tree) (al : loc) (kl : Z) (vl : string) (B : tree)
    (an : loc) (kn : Z) (vn : string) (C : tree) : tree :=
  let N := Node B an kn vn (recomputed B C) C in
  Node A al kl vl (recomputed A N) N.

Definition rotated_left (A : tree) (an : loc) (kn : Z) (vn : string) (B : tree)
    (ar : loc) (kr : Z) (vr : string) (C : tree) : tree :=
  let N := Node A an kn vn (recomputed A B) B in
  Node N ar kr vr (recomputed N C) C.

(** ** Sequences of operations *)

Inductive operation :=
  | DoAdd (k : Z) (v : string)
  | DoRemove (k : Z)
  | DoClear.

(** What the caller sees of each operation: [Add] succeeds when it returns
    and fails when it throws; [Remove] succeeds when it returns an entry and
    fails when it ends at [return nullptr;].  [Remove] runs under a reading
    of its two statements that do not type-check. *)
Inductive outcome := AddOk | AddFailed | RemoveOk | RemoveFailed | Cleared.

Definition perform (rd : reading) (t : AVLTree) (o : operation)
  : option (outcome * AVLTree) :=
  match o with
  | DoAdd k v =>
    '(r, t') ← Add t k v;
    Some (match r with Return _ => AddOk | _ => AddFailed end, t')
  | DoRemove k =>
    '(r, t') ← Remove rd t k;
    Some (match r with Return _ => RemoveOk | _ => RemoveFailed end, t')
  | DoClear => Some (Cleared, Clear t)
  end.

Fixpoint perform_all (rd : reading) (t : AVLTree) (ops : list operation)
  : option (list outcome * AVLTree) :=
  match ops with
  | [] => Some ([], t)
  | o :: ops' =>
    '(x, t') ← perform rd t o;
    '(log, t'') ← perform_all rd t' ops';
    Some (x :: log, t'')
  end.

(** The outcomes after the last [Cleared] (all of them when there is none). *)
Definition since_last_clear (log : list outcome) : list outcome :=
  foldl (λ acc x, match x with Cleared => [] | _ => acc ++ [x] end) [] log.

Fixpoint successful_adds (log : list outcome) : Z :=
  match log with
  | [] => 0
  | AddOk :: log' => 1 + successful_adds log'
  | _ :: log' => successful_adds log'
  end.

Fixpoint successful_removes (log : list outcome) : Z :=
  match log with
  | [] => 0
  | RemoveOk :: log' => 1 + successful_removes log'
  | _ :: log' => successful_removes log'
  end.

(** The loop of main.cc, [for (...) tree.Add(i, std::to_string(i));]: an [Add]
    that throws is not caught and ends the program. *)
Fixpoint Add_all (t : AVLTree) (kvs : list (Z * string)) : option AVLTree :=
  match kvs with
  | [] => Some t
  | (k, v) :: kvs' =>
    '(r, t') ← Add t k v;
    match r with
    | Return _ => Add_all t' kvs'
    | _ => None
    end
  end.

(** ** Sample trees *)

(** Keys 2, 1, 3 added in that order: root 2 with children 1 and 3. *)
Definition three_keys : option AVLTree :=
  Add_all (AVLTree_new ∅) [(2, "two"); (1, "one"); (3, "three")].

(** Twelve keys added level by level; no rotation happens on the way.
    Root 5; left subtree 3 (2 (1), 4); right subtree 8 (7 (6), 10 (9, 11 (12))). *)
Definition twelve_keys : option AVLTree :=
  Add_all (AVLTree_new ∅)
    [(5, "5"); (3, "3"); (8, "8"); (2, "2"); (4, "4"); (7, "7"); (10, "10");
     (1, "1"); (6, "6"); (9, "9"); (11, "11"); (12, "12")].

(** The two trees as objects (the empty tree stands in should a sample fail
    to build; neither does). *)
Definition three_keys_tree : AVLTree := default (AVLTree_new ∅) three_keys.
Definition twelve_keys_tree : AVLTree := default (AVLTree_new ∅) twelve_keys.

(** The trees the two samples build, with the locations [new] hands out. *)
Definition three_keys_shape : tree :=
  Node (Node Leaf 2 1 "one" 0 Leaf) 1 2 "two" 1 (Node Leaf 3 3 "three" 0 Leaf).

Definition twelve_keys_left : tree :=
  Node (Node (Node Leaf 8 1 "1" 0 Leaf) 4 2 "2" 1 Leaf)
       2 3 "3" 2
       (Node Leaf 5 4 "4" 0 Leaf).

Definition twelve_keys_right : tree :=
  Node (Node (Node Leaf 9 6 "6" 0 Leaf) 6 7 "7" 1 Leaf)
       3 8 "8" 3
       (Node (Node Leaf 10 9 "9" 0 Leaf)
             7 10 "10" 2
             (Node Leaf 11 11 "11" 1 (Node Leaf 12 12 "12" 0 Leaf))).

Definition twelve_keys_shape : tree :=
  Node twelve_keys_left 1 5 "5" 4 twelve_keys_right.

(** The tree 2 (1, 3) once case 1 of [Remove(1)] has run: the right pointer
    of node 2 is null, its left pointer is still on node 1. *)
Definition left_leaf_cut : AVLTree :=
  mkTree (<[1%positive := mkNode 2 "two" (Some 2%positive) None 1]>
         (<[2%positive := mkNode 1 "one" None None 0]>
         (<[3%positive := mkNode 3 "three" None None 0]> ∅)))
         (Some 1%positive) 2 InOrder.

(** ** Checking a store *)

(** Reading the shape back from the store; [None] when a pointer leads to no
    live node (or the walk outlasts [fuel]). *)
Fixpoint reify (fuel : nat) (h : heap) (p : ptr) : option tree :=
  match p with
  | None => Some Leaf
  | Some a =>
    match fuel with
    | O => None
    | S fuel' =>
      n ← h !! a;
      l ← reify fuel' h (left_ n);
      r ← reify fuel' h (right_ n);
      Some (Node l a (key_ n) (value_ n) (height_ n) r)
    end
  end.

(** Every cached height is the height of the subtree. *)
Fixpoint heights_cached (T : tree) : Prop :=
  match T with
  | Leaf => True
  | Node l _ _ _ ht r => ht = height T ∧ heights_cached l ∧ heights_cached r
  end.

(** Ordering, balance and cached heights, decided. *)
Fixpoint sound_b (T : tree) : bool :=
  match T with
  | Leaf => true
  | Node l _ k _ ht r =>
    forallb (λ x, x <? k) (keys l) && forallb (λ x, k <? x) (keys r) &&
    (Z.abs (height l - height r) <=? 1) &&
    (ht =? 1 + Z.max (height l) (height r)) &&
    sound_b l && sound_b r
  end.

Definition numbered (ks : list Z) : list (Z * string) := (λ k, (k, "v")) <$> ks.

(** The tree [t] is a balanced search tree with cached heights in order,
    holding exactly [ks], counted right. *)
Definition sound_with (t : AVLTree) (ks : list Z) : bool :=
  match reify (walk_fuel (store t)) (store t) (root_ t) with
  | Some T =>
    sound_b T && bool_decide (NoDup (addrs T)) && bool_decide (keys T = ks) &&
    (count_ t =? Z.of_nat (length ks))
  | None => false
  end.

Definition Add_then_sound (sorted order : list Z) : bool :=
  match Add_all (AVLTree_new ∅) (numbered order) with
  | Some t => sound_with t sorted
  | None => false
  end.

(** Every node that is live in [h] is live in [h'] with the same key and the
    same value. *)
Definition fields_kept (h h' : heap) : Prop :=
  ∀ a n, h !! a = Some n →
    ∃ n', h' !! a = Some n' ∧ key_ n' = key_ n ∧ value_ n' = value_ n.

(** ** Rebalancing along a context *)

(** What one pass of the rebalancing loop makes of the node at [a] with
    subtrees [l] and [r]: the height is recomputed, and a balance factor
    beyond 1 or below -1 is answered by a single or a double rotation. *)
Definition balance_node (l : tree) (a : loc) (k : Z) (v : string) (r : tree) : tree :=
  let bf := cached l - cached r in
  if bf >? 1 then
    match l with
    | Node ll al kl vl hl lr =>
      if cached ll - cached lr <? 0 then
        match lr with
        | Node B ab kb vb hb C =>
          rotated_right (Node ll al kl vl (recomputed ll B) B) ab kb vb C a k v r
        | Leaf => Node l a k v (recomputed l r) r
        end
      else rotated_right ll al kl vl lr a k v r
    | Leaf => Node l a k v (recomputed l r) r
    end
  else if bf <? -1 then
    match r with
    | Node rl ar kr vr hr rr =>
      if cached rl - cached rr >? 0 then
        match rl with
        | Node B ab kb vb hb C =>
          rotated_left l a k v B ab kb vb (Node C ar kr vr (recomputed C rr) rr)
        | Leaf => Node l a k v (recomputed l r) r
        end
      else rotated_left l a k v rl ar kr vr rr
    | Leaf => Node l a k v (recomputed l r) r
    end
  else Node l a k v (recomputed l r) r.

(** The way down to the slot [Add] finds for [k]: the frames passed, the
    innermost first, on top of [c]. *)
Fixpoint descend (T : tree) (k : Z) (c : list frame) : list frame :=
  match T with
  | Leaf => c
  | Node l a k' v ht r =>
    if k >? k' then descend r k (InRight l a k' v ht :: c)
    else descend l k (InLeft a k' v ht r :: c)
  end.

(** The ancestor stack for a context: the parents, the nearest on top, above
    the null pushed first. *)
Definition stack_of (c : list frame) : list ptr :=
  ((λ f, Some (frame_loc f)) <$> c) ++ [None].

Definition sibling (f : frame) : tree :=
  match f with
  | InLeft _ _ _ _ r => r
  | InRight l _ _ _ _ => l
  end.

(** The node of a frame over the subtree [S], after one pass of the loop. *)
Definition balanced (f : frame) (S : tree) : tree :=
  match f with
  | InLeft a k v _ r => balance_node S a k v r
  | InRight l a k v _ => balance_node l a k v S
  end.

(** The whole tree after the loop has walked up the context. *)
Fixpoint rebalance_ctx (c : list frame) (S : tree) : tree :=
  match c with
  | [] => S
  | f :: c' => rebalance_ctx c' (balanced f S)
  end.

(** The slot is on the side of the parent the key comparison of [Add]
    picks. *)
Definition slot_by_key (c : list frame) (k : Z) : Prop :=
  match c with
  | [] => True
  | InLeft _ kp _ _ _ :: _ => (k >? kp) = false
  | InRight _ _ kp _ _ :: _ => (k >? kp) = true
  end.

(** The tree with the new leaf hung into the slot, before rebalancing. *)
Fixpoint hang (T : tree) (a : loc) (k : Z) (v : string) : tree :=
  match T with
  | Leaf => Node Leaf a k v 0 Leaf
  | Node l a' k' v' ht r =>
    if k >? k' then Node l a' k' v' ht (hang r a k v)
    else Node (hang l a k v) a' k' v' ht r
  end.

(** What is left of the ancestor stack once its top has been taken. *)
Definition rest_of (c : list frame) : list ptr :=
  match c with [] => [] | _ :: c' => stack_of c' end.

(** ** Further properties: the notions they use *)

(** The tree object [t] holds the tree [T], which is a binary search tree,
    balanced, with every cached height right. *)
Definition sound (t : AVLTree) (T : tree) : Prop :=
  represents t T ∧ bst T ∧ avl T ∧ heights_cached T.

(** The entry of a key/value pair, and the entry a node holds. *)
Definition to_entry (kv : Z * string) : MapEntry := mkMapEntry kv.1 kv.2.
Definition node_entry (n : AVLTreeNode) : MapEntry :=
  mkMapEntry (key_ n) (value_ n).

(** The store [h'] has the live nodes of [h], no more and no fewer. *)
Definition same_nodes (h h' : heap) : Prop := dom h' = dom h.

(** [std::to_string(int)] and [operator<<] for an [int]: the decimal
    numeral, with a minus sign below zero. *)
Definition to_string (i : Z) : string := NilZero.string_of_int (Z.to_int i).

(** [for (int i = 0; i < 255; i++) tree.Add(i, std::to_string(i));] on the
    tree [AVLTree<int, std::string>()]. *)
Definition main_tree : option AVLTree :=
  Add_all (AVLTree_new ∅) ((λ i, (i, to_string i)) <$> seqZ 0 255).

(** The lines [main] writes to [std::cout]: three empty ones, one for each
    pass of the loop over the tree in [TopDown] order, and the summary. *)
Definition main : option (list string) :=
  tree ← main_tree;
  let tree := SetTraversalMethod tree TopDown in
  nodes ← range_for 255 tree;
  h ← GetTreeHieight tree;
  bf ← GetTreeBalanceFactor tree;
  Some (["" ; "" ; ""] ++
        ((λ me, "Main, printing: " +:+ value_ me) <$> nodes) ++
        ["Tree Height: " +:+ to_string h +:+
         "  Balance Factor: " +:+ to_string bf +:+
         "  Tree Size: " +:+ to_string (GetCount tree)]).

(** The keys 0 to 254 level by level as the complete tree of eight levels
    holds them: on level [d] the odd multiples of [2 ^ (7 - d)], less one. *)
Definition complete_order : list Z :=
  d ← seq 0 8;
  j ← seq 0 (2 ^ d);
  [(2 * Z.of_nat j + 1) * 2 ^ (7 - Z.of_nat d) - 1].

(** ** Loading a tree in level order: the notions *)

(** The tree without its locations: keys, values, cached heights and the
    shape are kept. *)
Fixpoint outline (T : tree) : tree :=
  match T with
  | Leaf => Leaf
  | Node l _ k v ht r => Node (outline l) 1 k v ht (outline r)
  end.

(** Insertion as [Add] does it, on the shape: down by key comparison, and
    each node on the way back as the rebalancing loop leaves it. *)
Fixpoint ins (P : tree) (a : loc) (k : Z) (v : string) : tree :=
  match P with
  | Leaf => Node Leaf a k v 0 Leaf
  | Node l a' k' v' _ r =>
    if k >? k' then balance_node l a' k' v' (ins r a k v)
    else balance_node (ins l a k v) a' k' v' r
  end.

(** [P] is [T] cut below depth [d]: the nodes above are all there, of the
    nodes at depth [d] those whose key is in [X], as leaves; locations are
    free, cached heights are those of the cut tree. *)
Fixpoint is_cut (X : Z → Prop) (d : nat) (T P : tree) {struct T} : Prop :=
  match T with
  | Leaf => P = Leaf
  | Node l _ k v _ r =>
    match d with
    | O => (X k ∧ ∃ a, P = Node Leaf a k v 0 Leaf) ∨ (¬ X k ∧ P = Leaf)
    | S d' =>
      ∃ Pl a Pr,
        P = Node Pl a k v (1 + Z.max (height Pl) (height Pr)) Pr ∧
        is_cut X d' l Pl ∧ is_cut X d' r Pr
    end
  end.

(** The nodes at depth less than [d], level by level. *)
Definition below (d : nat) (T : tree) : list AVLTreeNode :=
  concat ((λ e, level e T) <$> seq 0 d).

(** The pair to add for a node. *)
Definition node_pair (n : AVLTreeNode) : Z * string := (key_ n, value_ n).

(** The tree object [t] holds, as [P], the nodes of [T] above depth [d] and
    the nodes [pre] of depth [d], each where [T] has it. *)
Definition loaded (T : tree) (d : nat) (pre : list AVLTreeNode)
    (t : AVLTree) (P : tree) : Prop :=
  represents t P ∧ bst P ∧ is_cut (λ x, x ∈ key_ <$> pre) d T P ∧
  entries P ≡ₚ node_entry <$> (below d T ++ pre) ∧
  count_ t = Z.of_nat (length (below d T ++ pre)).

(** * Properties *)

(** The methods are unfolded by name in the proofs, never by [simpl]. *)
Arguments GetKey : simpl never.
Arguments GetLeft : simpl never.
Arguments GetRight : simpl never.
Arguments GetHeight : simpl never.
Arguments SetLeft : simpl never.
Arguments SetRight : simpl never.
Arguments CalculateHeight : simpl never.
Arguments GetBalanceFactor : simpl never.
Arguments GetMapEntry : simpl never.
Arguments child_height : simpl never.
Arguments rewire : simpl never.
Arguments RotateLeft : simpl never.
Arguments RotateRight : simpl never.
Arguments rebalance_step : simpl never.
Arguments walk_fuel : simpl never.
Arguments Remove_relink : simpl never.
Arguments Remove_case1 : simpl never.
Arguments Remove_case2 : simpl never.
Arguments Remove_case3 : simpl never.

(** Take apart a hypothesis that a chain of binds returned [Some]. *)
Ltac unbind := repeat (simplify_option_eq || case_match).

(** Facts about the sample trees hold by evaluation. *)
Ltac by_evaluation := vm_compute; reflexivity.

Ltac sample_represented :=
  repeat split; try by_evaluation;
  apply (bool_decide_unpack _); vm_compute; exact I.

Ltac sample_ordered :=
  simpl; unfold keys; simpl; repeat split; repeat constructor; lia.

(** ** Height and balance factor of the empty and the one-entry tree *)

Lemma Add_to_empty (t : AVLTree) (k : Z) (v : string) :
  root_ t = None → count_ t = 0 →
  let a := fresh (dom (store t)) in
  Add t k v =
    Some (Return tt,
          mkTree (<[a := mkNode k v None None 0]> (store t)) (Some a) 1
                 (traversal_method_ t)).
Proof.
  destruct t as [h r c m]; simpl; intros -> ->.
  unfold Add, new_node; simpl. reflexivity.
Qed.

(** C10: on an empty tree [GetTreeHieight] and [GetTreeBalanceFactor] both
    return 0, and they return the same two values on the tree that holds
    exactly one entry (its root is a leaf with cached height 0). *)
Theorem empty_and_singleton_look_alike (t : AVLTree) (k : Z) (v : string) :
  root_ t = None → count_ t = 0 →
  GetTreeHieight t = Some 0 ∧ GetTreeBalanceFactor t = Some 0 ∧
  ∃ t', Add t k v = Some (Return tt, t') ∧ GetCount t' = 1 ∧
        deref (store t') (root_ t') = Some (mkNode k v None None 0) ∧
        GetTreeHieight t' = Some 0 ∧ GetTreeBalanceFactor t' = Some 0.
Proof.
  intros Hr Hc.
  split; [by unfold GetTreeHieight; rewrite Hr|].
  split; [by unfold GetTreeBalanceFactor; rewrite Hr|].
  eexists. split; [by apply Add_to_empty|].
  unfold GetCount, GetTreeHieight, GetTreeBalanceFactor, GetBalanceFactor,
    GetHeight, deref; simpl.
  rewrite lookup_insert_eq. simpl. done.
Qed.

Lemma empty_and_singleton_look_alike_witness :
  GetTreeHieight (AVLTree_new ∅) = Some 0 ∧
  GetTreeBalanceFactor (AVLTree_new ∅) = Some 0 ∧
  ∃ t', Add (AVLTree_new ∅) 7 "seven" = Some (Return tt, t') ∧ GetCount t' = 1 ∧
        deref (store t') (root_ t') = Some (mkNode 7 "seven" None None 0) ∧
        GetTreeHieight t' = Some 0 ∧ GetTreeBalanceFactor t' = Some 0.
Proof.
  apply (empty_and_singleton_look_alike (AVLTree_new ∅) 7 "seven"); reflexivity.
Defined.

(** ** Calls on an empty tree and removal of a missing key *)

Lemma Remove_search_absent (fuel : nat) (h : heap) (k : Z) (cur parent : ptr)
    (stk : list ptr) (e : range_error) :
  GetNode_loop fuel h cur k = Some (Throw e) →
  ∃ p s, Remove_search fuel h k cur parent stk = Some (None, p, s).
Proof.
  revert cur parent stk.
  induction fuel as [|fuel IH]; intros [a|] parent stk; simpl; try done; eauto.
  destruct (h !! a) as [n|]; simpl; [|done].
  destruct (key_ n =? k); [done|].
  rewrite Z.gtb_ltb.
  destruct (key_ n <? k); apply IH.
Qed.

(** As it is written, [Remove] gives no result on any tree and any key:
    the search ends either on no node, and the call at line 273, or on a
    node, and then every case leads to line 372. *)
Lemma Remove_as_written (t : AVLTree) (k : Z) : Remove as_written t k = None.
Proof.
  unfold Remove.
  destruct (Remove_search _ _ _ _ _ _) as [[[[a|] p] s]|]; simpl; [|done..].
  destruct (int_decr _); simpl; [|done].
  destruct (GetRight _ _) as [cr|]; simpl; [|done].
  match goal with |- (?X ≫= _) = None => destruct X as [[t1 s1]|] end; done.
Qed.

(** A key that [Get] does not find takes [Remove] to line 273 with the tree
    as it was: the call does what [return nullptr;] does there, and nothing
    else. *)
Lemma Remove_missing (rd : reading) (t : AVLTree) (k : Z) :
  Get t k = Some (Throw (KeyNotPresent k)) →
  Remove rd t k = (λ x, (without_value x, t)) <$> return_nullptr rd.
Proof.
  unfold Get, GetNode, Remove. intros H.
  destruct (GetNode_loop _ _ _ _) as [[n| |e]|] eqn:E; try discriminate H.
  destruct (Remove_search_absent _ _ _ _ None [None] _ E) as (p & s & ->).
  simpl. by destruct (return_nullptr rd).
Qed.

(** C4, as the code has it: on an empty tree [Get] throws the range error
    for the missing key, while [GetMinKey] and [GetMaxKey] execute
    [return nullptr;] and throw nothing.  [Remove] on an empty tree, or of
    any key that [Get] does not find, goes to its own [return nullptr;] with
    the tree untouched and does what that statement does, which as it is
    written is nothing: no error is thrown there either. *)
Theorem calls_that_find_nothing (t : AVLTree) (k : Z) :
  (root_ t = None →
     Get t k = Some (Throw (KeyNotPresent k)) ∧
     GetMinKey t = Some ReturnNull ∧
     GetMaxKey t = Some ReturnNull) ∧
  (Get t k = Some (Throw (KeyNotPresent k)) →
     Remove as_written t k = None ∧
     ∀ rd, Remove rd t k = (λ x, (without_value x, t)) <$> return_nullptr rd).
Proof.
  split.
  - intros Hr. split; [by unfold Get, GetNode; rewrite Hr|].
    unfold GetMinKey, GetMaxKey. by rewrite Hr.
  - intros HG. split; [apply Remove_as_written|].
    intros rd. by apply Remove_missing.
Qed.

Lemma calls_that_find_nothing_witness :
  (Get (AVLTree_new ∅) 7 = Some (Throw (KeyNotPresent 7)) ∧
   GetMinKey (AVLTree_new ∅) = Some ReturnNull ∧
   GetMaxKey (AVLTree_new ∅) = Some ReturnNull) ∧
  Remove as_written three_keys_tree 9 = None ∧
  Remove top_then_pop three_keys_tree 9 = Some (ReturnNull, three_keys_tree).
Proof.
  split.
  - apply (proj1 (calls_that_find_nothing (AVLTree_new ∅) 7)).
    reflexivity.
  - destruct (proj2 (calls_that_find_nothing three_keys_tree 9))
      as [Hw Hrd]; [by_evaluation|].
    split; [exact Hw|]. rewrite Hrd. reflexivity.
Defined.

(** ** The sample trees *)

(** The samples build, and hold the trees written out above. *)
Lemma three_keys_built :
  three_keys = Some three_keys_tree ∧
  represents three_keys_tree three_keys_shape ∧
  bst three_keys_shape ∧ avl three_keys_shape.
Proof.
  split; [by_evaluation|]. split; [sample_represented|].
  split; sample_ordered.
Qed.

Lemma twelve_keys_built :
  twelve_keys = Some twelve_keys_tree ∧
  represents twelve_keys_tree twelve_keys_shape ∧
  bst twelve_keys_shape ∧ avl twelve_keys_shape.
Proof.
  split; [by_evaluation|]. split; [sample_represented|].
  split; sample_ordered.
Qed.

(** ** Remove of a left child that has no right child *)

(** Case 1 leaves nothing for the walk back up to do: whichever nodes it
    visits, no height changes and nothing is rotated. *)
Lemma rebalance_step_left_leaf_cut (current : ptr) (stk : list ptr) (t : AVLTree) :
  rebalance_step left_leaf_cut current stk = Some t → t = left_leaf_cut.
Proof.
  intros H. destruct current as [[[p|p|]|[p|p|]|]|];
    vm_compute in H; try discriminate H; injection H as <-;
    vm_compute; reflexivity.
Qed.

Lemma rebalance_left_leaf_cut (stk : list ptr) : ∀ current t,
  rebalance left_leaf_cut current stk = Some t → t = left_leaf_cut.
Proof.
  induction stk as [|next rest IH]; intros [a|] t H;
    cbn [rebalance mbind option_bind] in H; try by simplify_eq.
  - match type of H with context [rebalance_step ?x ?y ?z] =>
      destruct (rebalance_step x y z) end; done.
  - match type of H with context [rebalance_step ?x ?y ?z] =>
      destruct (rebalance_step x y z) as [t1|] eqn:E end; [|done].
    pose proof (rebalance_step_left_leaf_cut _ _ _ E) as ->. by apply (IH next).
Qed.

(** C1, at the failing input, the tree 2 (1, 3) and [Remove(1)].  As it is
    written [Remove] gives no result there, nor anywhere: the entry of key 1
    is not returned.  And whatever its two ill-typed statements are taken to
    do, the call does not leave the keys 2 and 3: if it returns, it returns
    the entry of key 1, but case 1 has overwritten the right pointer of node
    2, so that key 3, found before the call, is no longer found, and the
    left pointer of node 2 is left on the deleted node. *)
Theorem Remove_of_a_left_leaf :
  Get three_keys_tree 3 = Some (Return (mkMapEntry 3 "three")) ∧
  Remove as_written three_keys_tree 1 = None ∧
  ∀ rd r t', Remove rd three_keys_tree 1 = Some (r, t') →
    r = Return (mkMapEntry 1 "one") ∧
    Get t' 3 = Some (Throw (KeyNotPresent 3)) ∧
    deref (store t') (root_ t') =
      Some (mkNode 2 "two" (Some 2%positive) None 1) ∧
    store t' !! 2%positive = None.
Proof.
  split; [by_evaluation|]. split; [apply Remove_as_written|].
  intros rd r t' H. unfold Remove in H.
  assert (Remove_search (walk_fuel (store three_keys_tree)) (store three_keys_tree)
            1 (root_ three_keys_tree) None [None]
          = Some (Some 2%positive, Some 1%positive, [Some 1%positive; None]))
    as Hsearch by by_evaluation.
  rewrite Hsearch in H. cbn [mbind option_bind] in H.
  assert (int_decr (count_ three_keys_tree) = Some 2) as Hcount by by_evaluation.
  rewrite Hcount in H. cbn [mbind option_bind] in H.
  assert (GetRight (store (set_count three_keys_tree 2)) (Some 2%positive)
          = Some None) as Hright by by_evaluation.
  rewrite Hright in H. cbn [mbind option_bind] in H.
  assert (Remove_case1 (set_count three_keys_tree 2) (Some 2%positive)
            (Some 1%positive) [Some 1%positive; None]
          = Some (left_leaf_cut, [Some 1%positive; None])) as Hcase
    by by_evaluation.
  rewrite Hcase in H. cbn [mbind option_bind] in H.
  destruct (assign_pop rd [Some 1%positive; None]) as [[current my_stack]|];
    [|discriminate H].
  cbn [mbind option_bind] in H.
  destruct (rebalance left_leaf_cut current my_stack) as [t1|] eqn:Hloop;
    [|discriminate H].
  apply rebalance_left_leaf_cut in Hloop as ->.
  vm_compute in H. injection H as <- <-.
  repeat split; by_evaluation.
Qed.

Lemma Remove_of_a_left_leaf_witness :
  ∃ r t', Remove top_then_pop three_keys_tree 1 = Some (r, t') ∧
          r = Return (mkMapEntry 1 "one") ∧
          Get t' 3 = Some (Throw (KeyNotPresent 3)).
Proof.
  assert (∃ r t', Remove top_then_pop three_keys_tree 1 = Some (r, t'))
    as (r & t' & Hrun) by (eexists _, _; by_evaluation).
  destruct (proj2 (proj2 Remove_of_a_left_leaf) top_then_pop r t' Hrun)
    as (Hr & HG & _).
  exists r, t'. split; [exact Hrun|]. split; [exact Hr|exact HG].
Defined.

(** ** The entry count *)

Lemma rewire_count t top parent t' :
  rewire t top parent = Some t' → count_ t' = count_ t.
Proof.
  unfold rewire. intros H. unbind; done.
Qed.

Lemma RotateRight_count t node parent t' :
  RotateRight t node parent = Some t' → count_ t' = count_ t.
Proof.
  unfold RotateRight. intros H. unbind.
  match goal with H : rewire _ _ _ = Some _ |- _ => apply rewire_count in H end.
  done.
Qed.

Lemma RotateLeft_count t node parent t' :
  RotateLeft t node parent = Some t' → count_ t' = count_ t.
Proof.
  unfold RotateLeft. intros H. unbind.
  match goal with H : rewire _ _ _ = Some _ |- _ => apply rewire_count in H end.
  done.
Qed.

Lemma rebalance_step_count t current stk t' :
  rebalance_step t current stk = Some t' → count_ t' = count_ t.
Proof.
  unfold rebalance_step. intros H. unbind;
  repeat match goal with
  | H : RotateRight _ _ _ = Some _ |- _ => apply RotateRight_count in H
  | H : RotateLeft _ _ _ = Some _ |- _ => apply RotateLeft_count in H
  end; simpl in *; congruence.
Qed.

Lemma rebalance_count stk : ∀ t current t',
  rebalance t current stk = Some t' → count_ t' = count_ t.
Proof.
  induction stk as [|next rest IH]; intros t [c|] t' H; simpl in H;
    unbind; try done.
  match goal with H : rebalance_step _ _ _ = Some _ |- _ => apply rebalance_step_count in H end.
  match goal with H : rebalance _ _ _ = Some _ |- _ => apply IH in H end.
  congruence.
Qed.

Lemma Add_count t k v r t' :
  Add t k v = Some (r, t') →
  match r with
  | Return _ => count_ t' = count_ t + 1
  | ReturnNull => False
  | Throw _ => t' = set_store t (new_node (store t) k v).2
  end.
Proof.
  unfold Add, new_node, int_incr. intros H. unbind; try done.
  all: match goal with H : rebalance _ _ _ = Some _ |- _ => apply rebalance_count in H end; simpl in *; try congruence.
Qed.

Lemma Remove_relink_count t c p r t' :
  Remove_relink t c p r = Some t' → count_ t' = count_ t.
Proof. unfold Remove_relink. intros H. unbind; done. Qed.

Lemma Remove_case1_count t c p s t' s' :
  Remove_case1 t c p s = Some (t', s') → count_ t' = count_ t.
Proof. unfold Remove_case1. intros H. unbind; done. Qed.

Lemma Remove_case2_count t c p s t' s' :
  Remove_case2 t c p s = Some (t', s') → count_ t' = count_ t.
Proof.
  unfold Remove_case2. intros H. unbind.
  match goal with H : Remove_relink _ _ _ _ = Some _ |- _ => apply Remove_relink_count in H end.
  done.
Qed.

Lemma Remove_case3_count t c p s t' s' :
  Remove_case3 t c p s = Some (t', s') → count_ t' = count_ t.
Proof.
  unfold Remove_case3. intros H. unbind.
  all: match goal with H : Remove_relink _ _ _ _ = Some _ |- _ => apply Remove_relink_count in H end.
  all: done.
Qed.

Lemma Remove_count rd t k r t' :
  Remove rd t k = Some (r, t') →
  match r with
  | Return _ => count_ t' = count_ t - 1
  | ReturnNull | Throw _ => t' = t
  end.
Proof.
  unfold Remove, int_decr, without_value. intros H. unbind; try done.
  all: repeat match goal with
  | H : rebalance _ _ _ = Some _ |- _ => apply rebalance_count in H
  | H : Remove_case1 _ _ _ _ = Some _ |- _ => apply Remove_case1_count in H
  | H : Remove_case2 _ _ _ _ = Some _ |- _ => apply Remove_case2_count in H
  | H : Remove_case3 _ _ _ _ = Some _ |- _ => apply Remove_case3_count in H
  end; simpl in *; congruence.
Qed.

Lemma perform_count rd t o x t' :
  perform rd t o = Some (x, t') →
  GetCount t' =
    match x with
    | AddOk => GetCount t + 1
    | RemoveOk => GetCount t - 1
    | AddFailed | RemoveFailed => GetCount t
    | Cleared => 0
    end.
Proof.
  unfold GetCount. destruct o as [k v|k|]; simpl; intros H.
  - destruct (Add t k v) as [[r t1]|] eqn:E; simplify_eq/=.
    apply Add_count in E. destruct r; subst; done.
  - destruct (Remove rd t k) as [[r t1]|] eqn:E; simplify_eq/=.
    apply Remove_count in E. destruct r; subst; done.
  - by simplify_eq/=.
Qed.

Lemma successful_adds_snoc log x :
  successful_adds (log ++ [x]) =
  successful_adds log + match x with AddOk => 1 | _ => 0 end.
Proof. induction log as [|y log IH]; simpl; [by destruct x|]. destruct y; lia. Qed.

Lemma successful_removes_snoc log x :
  successful_removes (log ++ [x]) =
  successful_removes log + match x with RemoveOk => 1 | _ => 0 end.
Proof. induction log as [|y log IH]; simpl; [by destruct x|]. destruct y; lia. Qed.

Lemma perform_all_count rd ops : ∀ t0 log t acc,
  perform_all rd t0 ops = Some (log, t) →
  count_ t0 = successful_adds acc - successful_removes acc →
  count_ t =
    successful_adds (foldl (λ acc x, match x with Cleared => [] | _ => acc ++ [x] end) acc log) -
    successful_removes (foldl (λ acc x, match x with Cleared => [] | _ => acc ++ [x] end) acc log).
Proof.
  induction ops as [|o ops IH]; intros t0 log t acc H Hc; simpl in H.
  - by simplify_eq/=.
  - destruct (perform rd t0 o) as [[x t1]|] eqn:E; simplify_eq/=.
    destruct (perform_all rd t1 ops) as [[log1 t2]|] eqn:E2; simplify_eq/=.
    apply (IH _ _ _ _ E2). apply perform_count in E. unfold GetCount in E.
    destruct x; rewrite ?successful_adds_snoc, ?successful_removes_snoc; simpl; lia.
Qed.

(** C5: each operation moves [GetCount] as its outcome says (a successful
    [Add] adds one, a successful [Remove] takes one away, a failed [Add] or
    [Remove] leaves it, [Clear] sets it to zero), and so after any sequence
    of operations on a newly constructed tree [GetCount] is the number of
    successful Adds minus the number of successful Removes since the last
    [Clear].  The sequence is one the program runs through: it stays clear of
    undefined behaviour, the [int] counter included.  [Remove] cannot be
    compiled as it is written; the count moves as said whatever its two
    ill-typed statements are taken to do. *)
Theorem count_is_adds_minus_removes :
  (∀ rd t o x t', perform rd t o = Some (x, t') →
     GetCount t' =
       match x with
       | AddOk => GetCount t + 1
       | RemoveOk => GetCount t - 1
       | AddFailed | RemoveFailed => GetCount t
       | Cleared => 0
       end) ∧
  (∀ rd h m ops log t,
     perform_all rd (AVLTree_new_with h m) ops = Some (log, t) →
     GetCount t =
       successful_adds (since_last_clear log) -
       successful_removes (since_last_clear log)).
Proof.
  split; [apply perform_count|].
  intros rd h m ops log t H.
  by apply (perform_all_count rd ops _ log t [] H).
Qed.

Lemma count_is_adds_minus_removes_witness :
  (∃ t', perform top_then_pop three_keys_tree (DoRemove 3) = Some (RemoveOk, t') ∧
         GetCount t' = GetCount three_keys_tree - 1) ∧
  ∃ log t,
    perform_all top_then_pop (AVLTree_new_with ∅ InOrder)
      [DoAdd 2 "two"; DoAdd 3 "three"; DoClear; DoAdd 2 "two"; DoAdd 1 "one";
       DoAdd 3 "three"; DoAdd 1 "uno"; DoRemove 9; DoRemove 3] = Some (log, t) ∧
    log = [AddOk; AddOk; Cleared; AddOk; AddOk; AddOk; AddFailed; RemoveFailed;
           RemoveOk] ∧
    GetCount t =
      successful_adds (since_last_clear log) -
      successful_removes (since_last_clear log) ∧
    GetCount t = 2.
Proof.
  split.
  - eexists. split; [by_evaluation|].
    apply (proj1 count_is_adds_minus_removes top_then_pop three_keys_tree
             (DoRemove 3) RemoveOk).
    by_evaluation.
  - eexists _, _. split; [by_evaluation|]. split; [reflexivity|].
    split; [|by_evaluation].
    apply (proj2 count_is_adds_minus_removes top_then_pop ∅ InOrder
      [DoAdd 2 "two"; DoAdd 3 "three"; DoClear; DoAdd 2 "two"; DoAdd 1 "one";
       DoAdd 3 "three"; DoAdd 1 "uno"; DoRemove 9; DoRemove 3]).
    by_evaluation.
Defined.

(** ** The store against the shape it holds *)

Lemma shape_addrs_live (h : heap) (T : tree) (a : loc) :
  shape h T → a ∈ addrs T → is_Some (h !! a).
Proof.
  induction T as [|l IHl a' k v ht r IHr]; simpl; [by intros _ ?%elem_of_nil|].
  intros (Hc & Hl & Hr) [?|[->|?]%elem_of_cons]%elem_of_app; eauto.
Qed.

Lemma length_addrs (T : tree) : length (addrs T) = nodes_count T.
Proof.
  induction T; simpl; [done|]. rewrite length_app; simpl. lia.
Qed.

Lemma levels_le_nodes_count (T : tree) : (levels T ≤ nodes_count T)%nat.
Proof. induction T; simpl; lia. Qed.

(** A tree without shared nodes has no more nodes than the store has live
    ones, so [walk_fuel] outlasts every walk down the tree. *)
Lemma nodes_count_le_size (h : heap) (T : tree) :
  shape h T → NoDup (addrs T) → (nodes_count T ≤ size h)%nat.
Proof.
  intros Hs Hnd. rewrite <- length_addrs, <- size_dom.
  rewrite <- (size_list_to_set (C:=gset loc) (addrs T)) by done.
  apply subseteq_size. intros a Ha%elem_of_list_to_set.
  apply elem_of_dom. by eapply shape_addrs_live.
Qed.

Lemma walk_fuel_enough (h : heap) (T : tree) :
  shape h T → NoDup (addrs T) → (levels T < walk_fuel h)%nat.
Proof.
  intros Hs Hnd. unfold walk_fuel.
  pose proof (levels_le_nodes_count T). pose proof (nodes_count_le_size h T Hs Hnd).
  lia.
Qed.

Opaque walk_fuel.

(** Writing outside a tree leaves its shape in place. *)
Lemma shape_frame (h h' : heap) (T : tree) :
  shape h T → (∀ a, a ∈ addrs T → h' !! a = h !! a) → shape h' T.
Proof.
  induction T as [|l IHl a k v ht r IHr]; simpl; [done|].
  intros (Hc & Hl & Hr) Hsame. split; [|split].
  - rewrite Hsame; [done|]. set_solver.
  - apply IHl; [done|]. intros; apply Hsame. set_solver.
  - apply IHr; [done|]. intros; apply Hsame. set_solver.
Qed.

Lemma shape_new_node (h : heap) (T : tree) (k : Z) (v : string) :
  shape h T → shape (new_node h k v).2 T.
Proof.
  intros Hs. apply (shape_frame h); [done|].
  intros a Ha. unfold new_node; simpl. apply lookup_insert_ne.
  intros <-. destruct (shape_addrs_live h T _ Hs Ha) as [n Hn].
  by apply (is_fresh (dom h)), elem_of_dom.
Qed.

(** ** Lookup *)

(** The walk of [GetNode] over the store is the search of the shape. *)
Lemma GetNode_loop_find (h : heap) (k : Z) (T : tree) : ∀ fuel,
  shape h T → (levels T ≤ fuel)%nat →
  GetNode_loop fuel h (root_of T) k =
    Some (match find T k with
          | Some n => Return n
          | None => Throw (KeyNotPresent k)
          end).
Proof.
  induction T as [|l IHl a k' v ht r IHr]; intros fuel; simpl.
  - by destruct fuel.
  - intros (Hc & Hl & Hr) Hf. destruct fuel as [|fuel]; [lia|]. simpl.
    rewrite Hc. simpl.
    destruct (k' =? k); [done|].
    destruct (k' <? k); [apply IHr|apply IHl]; auto; lia.
Qed.

Lemma keys_Node (l r : tree) (a : loc) (k : Z) (v : string) (ht : Z) :
  keys (Node l a k v ht r) = keys l ++ k :: keys r.
Proof. unfold keys; simpl. by rewrite fmap_app. Qed.

Lemma entry_key_in_keys (T : tree) (e : MapEntry) :
  e ∈ entries T → key e ∈ keys T.
Proof. intros H. unfold keys. by apply list_elem_of_fmap_2. Qed.

(** In a binary search tree the search finds every stored entry. *)
Lemma find_stored (T : tree) (k : Z) (v : string) :
  bst T → mkMapEntry k v ∈ entries T →
  ∃ n, find T k = Some n ∧ key_ n = k ∧ value_ n = v.
Proof.
  induction T as [|l IHl a k' v' ht r IHr]; simpl; [by intros _ ?%elem_of_nil|].
  intros (Hlt & Hgt & Hbl & Hbr) Hin.
  rewrite Forall_forall in Hlt, Hgt.
  apply elem_of_app in Hin as [Hin|Hin]; [|apply elem_of_cons in Hin as [Heq|Hin]].
  - pose proof (Hlt _ (entry_key_in_keys _ _ Hin)) as Hk; simpl in Hk.
    destruct (Z.eqb_spec k' k); [lia|]. destruct (Z.ltb_spec k' k); [lia|]. auto.
  - injection Heq as -> ->. rewrite Z.eqb_refl. by eexists.
  - pose proof (Hgt _ (entry_key_in_keys _ _ Hin)) as Hk; simpl in Hk.
    destruct (Z.eqb_spec k' k); [lia|]. destruct (Z.ltb_spec k' k); [|lia]. auto.
Qed.

(** The search finds nothing for a key that is not stored. *)
Lemma find_missing (T : tree) (k : Z) : k ∉ keys T → find T k = None.
Proof.
  induction T as [|l IHl a k' v' ht r IHr]; simpl; [done|].
  rewrite keys_Node. intros Hnin.
  apply not_elem_of_app in Hnin as [Hl [Hk Hr]%not_elem_of_cons].
  destruct (Z.eqb_spec k' k) as [->|]; [done|].
  destruct (k' <? k); auto.
Qed.

Lemma Get_find (t : AVLTree) (T : tree) (k : Z) :
  represents t T →
  Get t k = Some (match find T k with
                  | Some n => Return (mkMapEntry (key_ n) (value_ n))
                  | None => Throw (KeyNotPresent k)
                  end).
Proof.
  intros (Hr & Hs & Hnd). unfold Get, GetNode. rewrite Hr.
  rewrite (GetNode_loop_find _ _ T); [|done|].
  - by destruct (find T k).
  - pose proof (walk_fuel_enough _ _ Hs Hnd). lia.
Qed.

(** C7: [Get(k)] walks down from the root, to the left child when [k] is
    smaller than the key of the current node and to the right child when it
    is larger, and stops on the node whose key is [k]; on a binary search
    tree it returns the entry stored under [k] when there is one and throws
    the range error for a missing key when there is none.  [Get] only reads:
    it hands back no new tree. *)
Theorem Get_follows_the_ordering (t : AVLTree) (T : tree) (k : Z) :
  represents t T → bst T →
  (∀ fuel a n, store t !! a = Some n →
     (k < key_ n → GetNode_loop (S fuel) (store t) (Some a) k =
                   GetNode_loop fuel (store t) (left_ n) k) ∧
     (key_ n < k → GetNode_loop (S fuel) (store t) (Some a) k =
                   GetNode_loop fuel (store t) (right_ n) k) ∧
     (key_ n = k → GetNode_loop (S fuel) (store t) (Some a) k = Some (Return n))) ∧
  (∀ v, mkMapEntry k v ∈ entries T → Get t k = Some (Return (mkMapEntry k v))) ∧
  (k ∉ keys T → Get t k = Some (Throw (KeyNotPresent k))).
Proof.
  intros Hrep Hbst. split; [|split].
  - intros fuel a n Hn. simpl. rewrite Hn. simpl.
    repeat split; intros Hk.
    + destruct (Z.eqb_spec (key_ n) k); [lia|]. by destruct (Z.ltb_spec (key_ n) k); [lia|].
    + destruct (Z.eqb_spec (key_ n) k); [lia|]. by destruct (Z.ltb_spec (key_ n) k); [|lia].
    + by destruct (Z.eqb_spec (key_ n) k).
  - intros v Hin. rewrite (Get_find t T k Hrep).
    by destruct (find_stored T k v Hbst Hin) as (n & -> & <- & <-).
  - intros Hnin. rewrite (Get_find t T k Hrep). by rewrite find_missing.
Qed.

Lemma Get_follows_the_ordering_witness :
  Get three_keys_tree 3 = Some (Return (mkMapEntry 3 "three")) ∧
  Get three_keys_tree 9 = Some (Throw (KeyNotPresent 9)).
Proof.
  split.
  - refine (proj1 (proj2 (Get_follows_the_ordering three_keys_tree
                            three_keys_shape 3 _ _)) "three" _).
    + sample_represented.
    + sample_ordered.
    + simpl. apply list_elem_of_In. simpl. auto.
  - refine (proj2 (proj2 (Get_follows_the_ordering three_keys_tree
                            three_keys_shape 9 _ _)) _).
    + sample_represented.
    + sample_ordered.
    + intros H%list_elem_of_In. simpl in H. intuition discriminate.
Defined.

(** ** Add of a key that is already stored *)

Lemma Add_search_duplicate (h : heap) (k : Z) (T : tree) :
  ∀ fuel parent stk,
  shape h T → (levels T ≤ fuel)%nat → is_Some (find T k) →
  Add_search fuel h k (root_of T) parent stk = Some FoundDuplicate.
Proof.
  induction T as [|l IHl a k' v ht r IHr]; intros fuel parent stk; simpl.
  - by intros _ _ [? ?].
  - intros (Hc & Hl & Hr) Hf Hfind. destruct fuel as [|fuel]; [lia|]. simpl.
    rewrite Hc. simpl. rewrite Z.eqb_sym, Z.gtb_ltb.
    destruct (k' =? k); [done|].
    destruct (k' <? k); [apply IHr|apply IHl]; auto; lia.
Qed.

(** C3: when the tree already holds [k] with value [v2], [Add(k, v)] throws
    the duplicate-key range error; the root pointer and the count are the
    same, every node that was in the store is there unchanged (so the tree
    has the same shape), and [Get(k)] still returns [v2].  The node allocated
    for the rejected entry stays in the store, unreachable. *)
Theorem Add_duplicate_is_rejected (t : AVLTree) (T : tree) (k : Z) (v v2 : string) :
  represents t T → bst T → mkMapEntry k v2 ∈ entries T →
  ∃ t', Add t k v = Some (Throw KeyAlreadyExists, t') ∧
        root_ t' = root_ t ∧ GetCount t' = GetCount t ∧
        traversal_method_ t' = traversal_method_ t ∧
        (∀ a n, store t !! a = Some n → store t' !! a = Some n) ∧
        represents t' T ∧
        Get t' k = Some (Return (mkMapEntry k v2)).
Proof.
  intros Hrep Hbst Hin.
  pose proof Hrep as (Hr & Hs & Hnd).
  destruct (find_stored T k v2 Hbst Hin) as (n & Hfind & Hk & Hv).
  pose proof (shape_new_node _ _ k v Hs) as Hs'.
  assert (represents (set_store t (new_node (store t) k v).2) T) as Hrep'
    by done.
  exists (set_store t (new_node (store t) k v).2).
  split_and!; try done.
  - unfold Add, new_node in *. simpl in *. rewrite Hr.
    rewrite (Add_search_duplicate _ k T); [done|done| |by eexists].
    pose proof (walk_fuel_enough _ _ Hs' Hnd). lia.
  - intros a n' Hn'. unfold new_node; simpl. rewrite lookup_insert_ne; [done|].
    intros <-. by apply (is_fresh (dom (store t))), elem_of_dom.
  - rewrite (Get_find _ T k Hrep'), Hfind. by rewrite Hk, Hv.
Qed.

Lemma Add_duplicate_is_rejected_witness :
  ∃ t', Add three_keys_tree 3 "drei" = Some (Throw KeyAlreadyExists, t') ∧
        root_ t' = root_ three_keys_tree ∧
        GetCount t' = GetCount three_keys_tree ∧
        Get t' 3 = Some (Return (mkMapEntry 3 "three")).
Proof.
  destruct (Add_duplicate_is_rejected three_keys_tree three_keys_shape 3
              "drei" "three")
    as (t' & HA & Hr & Hc & _ & _ & _ & HG).
  - sample_represented.
  - sample_ordered.
  - simpl. apply list_elem_of_In. simpl. auto.
  - exists t'. auto.
Defined.

(** ** Iteration *)

Lemma GetLeft_root h l a k v ht r :
  shape h (Node l a k v ht r) → GetLeft h (Some a) = Some (root_of l).
Proof. intros (Hc & _). unfold GetLeft, deref; simpl. by rewrite Hc. Qed.

Lemma GetRight_root h l a k v ht r :
  shape h (Node l a k v ht r) → GetRight h (Some a) = Some (root_of r).
Proof. intros (Hc & _). unfold GetRight, deref; simpl. by rewrite Hc. Qed.

Lemma push_left_spine h T : ∀ fuel s,
  shape h T → (levels T ≤ fuel)%nat →
  Iterator.push_left fuel h (root_of T) s = Some ((root_of <$> left_spine T) ++ s).
Proof.
  induction T as [|l IHl a k v ht r _]; intros fuel s Hs Hf; simpl.
  - by destruct fuel.
  - destruct fuel as [|fuel]; [simpl in Hf; lia|]. simpl.
    rewrite (GetLeft_root _ _ _ _ _ _ _ Hs). simpl.
    destruct Hs as (_ & Hl & _). simpl in Hf.
    rewrite IHl; [|done|lia].
    by rewrite fmap_app, <- app_assoc.
Qed.

Lemma StackLeftToNull_spine h T s :
  walkable h T →
  Iterator.StackLeftToNull h (root_of T :: s) =
    Some ((root_of <$> left_spine T) ++ match T with Leaf => None :: s | _ => s end).
Proof.
  intros (Hs & Hf). destruct T as [|l a k v ht r]; [done|].
  unfold Iterator.StackLeftToNull. simpl.
  rewrite (GetLeft_root _ _ _ _ _ _ _ Hs). simpl.
  destruct Hs as (_ & Hl & _). simpl in Hf.
  rewrite push_left_spine; [|done|lia].
  by rewrite fmap_app, <- app_assoc.
Qed.

Lemma walkable_left h l a k v ht r : walkable h (Node l a k v ht r) → walkable h l.
Proof. intros ((_ & Hl & _) & Hf). simpl in Hf. split; [done|lia]. Qed.

Lemma walkable_right h l a k v ht r : walkable h (Node l a k v ht r) → walkable h r.
Proof. intros ((_ & _ & Hr) & Hf). simpl in Hf. split; [done|lia]. Qed.

Lemma left_spine_visitable h T : walkable h T → Forall (visitable h) (left_spine T).
Proof.
  induction T as [|l IHl a k v ht r _]; simpl; [constructor|].
  intros Hw. apply Forall_app. split; [by eapply IHl, walkable_left|].
  apply Forall_singleton. by split.
Qed.

Lemma left_spine_cells T : left_spine T ≫= node_then_right = cells T.
Proof.
  induction T as [|l IHl a k v ht r _]; simpl; [done|].
  rewrite bind_app, IHl. simpl. by rewrite app_nil_r.
Qed.

(** Taking the top of a stack of subtree roots above the null sentinel. *)
Lemma take_top_in_order h (L : list tree) (q : list ptr) :
  Forall (visitable h) L →
  ∃ it',
    (c ← top ((root_of <$> L) ++ [None]);
     s ← pop ((root_of <$> L) ++ [None]);
     Some (Iterator.mkIterator c s q InOrder)) = Some it' ∧
    in_order_state h it' L.
Proof.
  intros HL. destruct L as [|T stk]; simpl; eexists; (split; [done|]);
    by split_and!.
Qed.

Lemma MoveNext_in_order h it l a k v ht r stk :
  in_order_state h it (Node l a k v ht r :: stk) →
  ∃ it', Iterator.MoveNext h it = Some it' ∧
         in_order_state h it' (left_spine r ++ stk).
Proof.
  intros (Hm & Hall & Hc & Hstk).
  apply Forall_cons in Hall as ((_ & Hw) & Hall).
  pose proof (walkable_right _ _ _ _ _ _ _ Hw) as Hwr.
  assert (Forall (visitable h) (left_spine r ++ stk)) as Hall'.
  { apply Forall_app. split; [by apply left_spine_visitable|done]. }
  unfold Iterator.MoveNext. rewrite Hm, Hc. simpl.
  rewrite (GetRight_root _ _ _ _ _ _ _ (proj1 Hw)). simpl.
  rewrite Hstk.
  destruct r as [|rl ra rk rv rht rr].
  - simpl. by apply take_top_in_order.
  - simpl root_of at 1. cbv iota.
    rewrite (StackLeftToNull_spine h (Node rl ra rk rv rht rr)) by done.
    simpl. rewrite app_assoc, <- fmap_app.
    by apply take_top_in_order.
Qed.

Lemma range_for_loop_in_order h last :
  Iterator.current_ last = None →
  ∀ fuel it todo,
    in_order_state h it todo →
    (length (todo ≫= node_then_right) ≤ fuel)%nat →
    range_for_loop fuel h it last = Some (todo ≫= node_then_right).
Proof.
  intros Hlast. induction fuel as [|fuel IH]; intros it todo Hst Hf.
  - destruct todo as [|[|l a k v ht r] stk].
    + destruct Hst as (_ & _ & Hc). simpl. unfold Iterator.eqb.
      by rewrite Hc, Hlast, bool_decide_eq_true_2.
    + destruct Hst as (_ & Hall & _). by apply Forall_cons in Hall as ((? & _) & _).
    + simpl in Hf. lia.
  - destruct todo as [|[|l a k v ht r] stk].
    + destruct Hst as (_ & _ & Hc). simpl. unfold Iterator.eqb.
      by rewrite Hc, Hlast, bool_decide_eq_true_2.
    + destruct Hst as (_ & Hall & _). by apply Forall_cons in Hall as ((? & _) & _).
    + destruct (MoveNext_in_order _ _ _ _ _ _ _ _ _ Hst) as (it' & Hmove & Hst').
      destruct Hst as (_ & Hall & Hc & _).
      apply Forall_cons in Hall as ((_ & (Hcell & _) & _) & _).
      simpl. unfold Iterator.eqb. rewrite Hc, Hlast. simpl.
      unfold deref; simpl. rewrite Hcell. simpl. rewrite Hmove. simpl.
      rewrite (IH it' _ Hst').
      * rewrite bind_app, left_spine_cells. reflexivity.
      * rewrite bind_cons, length_app in Hf.
        rewrite bind_app, left_spine_cells, length_app. simpl in *. lia.
Qed.

Lemma length_cells T : length (cells T) = nodes_count T.
Proof. induction T; simpl; [done|]. rewrite length_app; simpl. lia. Qed.

Lemma represents_walkable t T : represents t T → walkable (store t) T.
Proof. intros (_ & Hs & Hnd). split; [done|]. by apply walk_fuel_enough. Qed.

Lemma end_current t it : end_ t = Some it → Iterator.current_ it = None.
Proof.
  unfold end_, Iterator.SetInitalLocation.
  destruct (traversal_method_ t); simpl; by intros [= <-].
Qed.

Lemma end_defined t : is_Some (end_ t).
Proof.
  unfold end_, Iterator.SetInitalLocation.
  destruct (traversal_method_ t); simpl; by eexists.
Qed.

Lemma begin_in_order t T :
  represents t T → traversal_method_ t = InOrder →
  ∃ it, begin_ t = Some it ∧ in_order_state (store t) it (left_spine T).
Proof.
  intros Hrep Hm. pose proof (represents_walkable _ _ Hrep) as Hw.
  destruct Hrep as (Hr & _ & _).
  unfold begin_, Iterator.SetInitalLocation. rewrite Hm, Hr.
  rewrite (StackLeftToNull_spine _ T) by done.
  destruct T as [|l a k v ht r].
  - simpl. eexists. split; [done|]. by split_and!.
  - apply take_top_in_order. by apply left_spine_visitable.
Qed.

Lemma range_for_in_order t T fuel :
  represents t T → traversal_method_ t = InOrder → (nodes_count T ≤ fuel)%nat →
  range_for fuel t = Some (cells T).
Proof.
  intros Hrep Hm Hf.
  destruct (begin_in_order t T Hrep Hm) as (it & Hb & Hst).
  destruct (end_defined t) as [last Hl].
  unfold range_for. rewrite Hb, Hl. simpl.
  rewrite (range_for_loop_in_order _ last (end_current _ _ Hl) fuel it _ Hst);
    rewrite left_spine_cells; [done|].
  by rewrite length_cells.
Qed.

(** The reverse iterator, mirror image of the in-order one. *)

Lemma push_right_spine h T : ∀ fuel s,
  shape h T → (levels T ≤ fuel)%nat →
  Iterator.push_right fuel h (root_of T) s = Some ((root_of <$> right_spine T) ++ s).
Proof.
  induction T as [|l _ a k v ht r IHr]; intros fuel s Hs Hf; simpl.
  - by destruct fuel.
  - destruct fuel as [|fuel]; [simpl in Hf; lia|]. simpl.
    rewrite (GetRight_root _ _ _ _ _ _ _ Hs). simpl.
    destruct Hs as (_ & _ & Hr). simpl in Hf.
    rewrite IHr; [|done|lia].
    by rewrite fmap_app, <- app_assoc.
Qed.

Lemma StackRightToNull_spine h T s :
  walkable h T →
  Iterator.StackRightToNull h (root_of T :: s) =
    Some ((root_of <$> right_spine T) ++ match T with Leaf => None :: s | _ => s end).
Proof.
  intros (Hs & Hf). destruct T as [|l a k v ht r]; [done|].
  unfold Iterator.StackRightToNull. simpl.
  rewrite (GetRight_root _ _ _ _ _ _ _ Hs). simpl.
  destruct Hs as (_ & _ & Hr). simpl in Hf.
  rewrite push_right_spine; [|done|lia].
  by rewrite fmap_app, <- app_assoc.
Qed.

Lemma right_spine_visitable h T : walkable h T → Forall (visitable h) (right_spine T).
Proof.
  induction T as [|l _ a k v ht r IHr]; simpl; [constructor|].
  intros Hw. apply Forall_app. split; [by eapply IHr, walkable_right|].
  apply Forall_singleton. by split.
Qed.

Lemma right_spine_cells T : right_spine T ≫= node_then_left = rev (cells T).
Proof.
  induction T as [|l _ a k v ht r IHr]; simpl; [done|].
  rewrite bind_app, IHr. simpl.
  rewrite app_nil_r, rev_app_distr. simpl. by rewrite <- app_assoc.
Qed.

Lemma take_top_reverse h (L : list tree) (q : list ptr) :
  Forall (visitable h) L →
  ∃ it',
    (c ← top ((root_of <$> L) ++ [None]);
     s ← pop ((root_of <$> L) ++ [None]);
     Some (Iterator.mkIterator c s q ReverseOrder)) = Some it' ∧
    reverse_state h it' L.
Proof.
  intros HL. destruct L as [|T stk]; simpl; eexists; (split; [done|]);
    by split_and!.
Qed.

Lemma MoveNext_reverse h it l a k v ht r stk :
  reverse_state h it (Node l a k v ht r :: stk) →
  ∃ it', Iterator.MoveNext h it = Some it' ∧
         reverse_state h it' (right_spine l ++ stk).
Proof.
  intros (Hm & Hall & Hc & Hstk).
  apply Forall_cons in Hall as ((_ & Hw) & Hall).
  pose proof (walkable_left _ _ _ _ _ _ _ Hw) as Hwl.
  assert (Forall (visitable h) (right_spine l ++ stk)) as Hall'.
  { apply Forall_app. split; [by apply right_spine_visitable|done]. }
  unfold Iterator.MoveNext. rewrite Hm, Hc. simpl.
  rewrite (GetLeft_root _ _ _ _ _ _ _ (proj1 Hw)). simpl.
  rewrite Hstk.
  destruct l as [|ll la lk lv lht lr].
  - simpl. by apply take_top_reverse.
  - simpl root_of at 1. cbv iota.
    rewrite (StackRightToNull_spine h (Node ll la lk lv lht lr)) by done.
    simpl. rewrite app_assoc, <- fmap_app.
    by apply take_top_reverse.
Qed.

Lemma range_for_loop_reverse h last :
  Iterator.current_ last = None →
  ∀ fuel it todo,
    reverse_state h it todo →
    (length (todo ≫= node_then_left) ≤ fuel)%nat →
    range_for_loop fuel h it last = Some (todo ≫= node_then_left).
Proof.
  intros Hlast. induction fuel as [|fuel IH]; intros it todo Hst Hf.
  - destruct todo as [|[|l a k v ht r] stk].
    + destruct Hst as (_ & _ & Hc). simpl. unfold Iterator.eqb.
      by rewrite Hc, Hlast, bool_decide_eq_true_2.
    + destruct Hst as (_ & Hall & _). by apply Forall_cons in Hall as ((? & _) & _).
    + simpl in Hf. lia.
  - destruct todo as [|[|l a k v ht r] stk].
    + destruct Hst as (_ & _ & Hc). simpl. unfold Iterator.eqb.
      by rewrite Hc, Hlast, bool_decide_eq_true_2.
    + destruct Hst as (_ & Hall & _). by apply Forall_cons in Hall as ((? & _) & _).
    + destruct (MoveNext_reverse _ _ _ _ _ _ _ _ _ Hst) as (it' & Hmove & Hst').
      destruct Hst as (_ & Hall & Hc & _).
      apply Forall_cons in Hall as ((_ & (Hcell & _) & _) & _).
      simpl. unfold Iterator.eqb. rewrite Hc, Hlast. simpl.
      unfold deref; simpl. rewrite Hcell. simpl. rewrite Hmove. simpl.
      rewrite (IH it' _ Hst').
      * rewrite bind_app, right_spine_cells. reflexivity.
      * rewrite bind_cons, length_app in Hf.
        rewrite bind_app, right_spine_cells, length_app. simpl in *. lia.
Qed.

Lemma begin_reverse t T :
  represents t T → traversal_method_ t = ReverseOrder →
  ∃ it, begin_ t = Some it ∧ reverse_state (store t) it (right_spine T).
Proof.
  intros Hrep Hm. pose proof (represents_walkable _ _ Hrep) as Hw.
  destruct Hrep as (Hr & _ & _).
  unfold begin_, Iterator.SetInitalLocation. rewrite Hm, Hr.
  rewrite (StackRightToNull_spine _ T) by done.
  destruct T as [|l a k v ht r].
  - simpl. eexists. split; [done|]. by split_and!.
  - apply take_top_reverse. by apply right_spine_visitable.
Qed.

Lemma range_for_reverse t T fuel :
  represents t T → traversal_method_ t = ReverseOrder → (nodes_count T ≤ fuel)%nat →
  range_for fuel t = Some (rev (cells T)).
Proof.
  intros Hrep Hm Hf.
  destruct (begin_reverse t T Hrep Hm) as (it & Hb & Hst).
  destruct (end_defined t) as [last Hl].
  unfold range_for. rewrite Hb, Hl. simpl.
  rewrite (range_for_loop_reverse _ last (end_current _ _ Hl) fuel it _ Hst);
    rewrite right_spine_cells; [done|].
  by rewrite length_rev, length_cells.
Qed.

(** The level-order iterator. *)

Lemma level_beyond T : ∀ d, (levels T ≤ d)%nat → level d T = [].
Proof.
  induction T as [|l IHl a k v ht r IHr]; intros d Hd; simpl; [done|].
  simpl in Hd. destruct d as [|d]; [lia|].
  rewrite IHl, IHr; [done|lia|lia].
Qed.

Lemma forest_level_children d T : forest_level d (children T) = level (S d) T.
Proof.
  assert (∀ S, nonempty S ≫= level d = level d S) as Hne.
  { intros [|]; [done|]. simpl nonempty. rewrite bind_cons. apply app_nil_r. }
  unfold forest_level. destruct T as [|l a k v ht r]; [done|].
  simpl. by rewrite bind_app, !Hne.
Qed.

Lemma interleave {X} (A B : nat → list X) (n : nat) : ∀ s,
  concat ((λ d, A d ++ B d) <$> seq s n) ++ A (s + n)%nat =
  A s ++ concat ((λ d, B d ++ A (S d)) <$> seq s n).
Proof.
  induction n as [|n IH]; intros s; simpl.
  - by rewrite Nat.add_0_r, app_nil_r.
  - rewrite <- !app_assoc. f_equal. f_equal.
    rewrite <- IH. by rewrite Nat.add_succ_r.
Qed.

Lemma forest_levels_next (N : nat) (T : tree) (q : list tree) :
  (levels T ≤ N)%nat →
  forest_levels N (T :: q) = level 0 T ++ forest_levels N (q ++ children T).
Proof.
  intros HN. unfold forest_levels.
  trans (concat ((λ d, level d T ++ forest_level d q) <$> seq 0 N) ++
         level (0 + N) T).
  { rewrite (level_beyond T (0 + N)) by (simpl; lia). by rewrite app_nil_r. }
  rewrite interleave. f_equal. f_equal.
  apply list_fmap_ext. intros _ d _. unfold forest_level.
  rewrite bind_app. f_equal. symmetry. apply forest_level_children.
Qed.

Lemma forest_levels_nil N : forest_levels N [] = [].
Proof.
  unfold forest_levels. induction (seq 0 N) as [|d ds IH]; simpl; [done|]. apply IH.
Qed.

Lemma forest_levels_singleton N T : forest_levels N [T] = concat ((λ d, level d T) <$> seq 0 N).
Proof.
  unfold forest_levels, forest_level. f_equal. apply list_fmap_ext.
  intros _ d _. rewrite bind_cons. apply app_nil_r.
Qed.

Lemma enqueue_children_roots h T queue :
  T ≠ Leaf → shape h T →
  Iterator.enqueue_children h (root_of T) queue =
    Some (queue ++ (root_of <$> children T)).
Proof.
  intros Hne Hs. destruct T as [|l a k v ht r]; [done|].
  unfold Iterator.enqueue_children. cbn [root_of].
  rewrite (GetLeft_root _ _ _ _ _ _ _ Hs), (GetRight_root _ _ _ _ _ _ _ Hs).
  simpl. destruct l, r; simpl; by rewrite <- ?app_assoc, ?app_nil_r.
Qed.

Lemma children_queued h N T : queued h N T → Forall (queued h N) (children T).
Proof.
  intros (_ & Hs & HN). destruct T as [|l a k v ht r]; [constructor|].
  destruct Hs as (_ & Hl & Hr). simpl in HN. simpl.
  apply Forall_app. split.
  - destruct l; [constructor|]. apply Forall_singleton. split_and!; [done|done|lia].
  - destruct r; [constructor|]. apply Forall_singleton. split_and!; [done|done|lia].
Qed.

Lemma range_for_loop_top_down h N last :
  Iterator.current_ last = None →
  ∀ fuel it T q,
    top_down_state h N it T q →
    (length (forest_levels N q) < fuel)%nat →
    range_for_loop fuel h it last = Some (level 0 T ++ forest_levels N q).
Proof.
  intros Hlast. induction fuel as [|fuel IH]; intros it T q Hst Hf; [lia|].
  destruct Hst as (Hm & HT & Hq & Hc & Hqueue).
  destruct T as [|l a k v ht r]; [by destruct HT|].
  pose proof HT as (_ & (Hcell & _) & _).
  simpl. unfold Iterator.eqb. rewrite Hc, Hlast. simpl.
  unfold deref; simpl. rewrite Hcell. simpl.
  unfold Iterator.MoveNext. rewrite Hm, Hqueue.
  destruct q as [|T' q'].
  - simpl. destruct fuel; simpl; unfold Iterator.eqb; simpl; rewrite Hlast;
      by rewrite forest_levels_nil.
  - apply Forall_cons in Hq as (HT' & Hq'). pose proof HT' as (Hne & Hs' & HN').
    simpl fmap. cbv iota.
    rewrite (enqueue_children_roots h T' _ Hne Hs'). simpl.
    rewrite <- fmap_app.
    rewrite (forest_levels_next N T' q' HN') in Hf |- *.
    rewrite (IH _ T' (q' ++ children T')); [done| |].
    + split_and!; try done. apply Forall_app. split; [done|].
      by apply children_queued.
    + destruct T'; [done|]. rewrite length_app in Hf. cbn [level length] in Hf. lia.
Qed.

Lemma concat_pointwise_app {X} (A B : nat → list X) (ds : list nat) :
  concat ((λ d, A d ++ B d) <$> ds) ≡ₚ concat (A <$> ds) ++ concat (B <$> ds).
Proof.
  induction ds as [|d ds IH]; simpl; [done|].
  rewrite IH. rewrite <- !app_assoc. apply Permutation_app_head.
  rewrite !app_assoc. apply Permutation_app_tail, Permutation_app_comm.
Qed.

Lemma levels_permutation T : ∀ n,
  (levels T ≤ n)%nat → concat ((λ d, level d T) <$> seq 0 n) ≡ₚ cells T.
Proof.
  induction T as [|l IHl a k v ht r IHr]; intros n Hn.
  - simpl. induction (seq 0 n) as [|d ds IH]; simpl; [done|apply IH].
  - simpl in Hn. destruct n as [|n]; [lia|].
    cbn [seq fmap list_fmap concat]. rewrite <- fmap_S_seq, <- list_fmap_compose.
    cbn [level cells].
    rewrite (concat_pointwise_app (λ d, level d l) (λ d, level d r)).
    rewrite (IHl n), (IHr n) by lia.
    simpl. apply Permutation_middle.
Qed.

Lemma breadth_first_permutation T : breadth_first T ≡ₚ cells T.
Proof. by apply levels_permutation. Qed.

Lemma breadth_first_head T : head (breadth_first T) = head (level 0 T).
Proof. by destruct T. Qed.

Lemma range_for_top_down t T fuel :
  represents t T → traversal_method_ t = TopDown → (nodes_count T ≤ fuel)%nat →
  range_for fuel t = Some (breadth_first T).
Proof.
  intros (Hr & Hs & Hnd) Hm Hf.
  destruct (end_defined t) as [last Hl].
  pose proof (end_current _ _ Hl) as Hlast.
  unfold range_for. rewrite Hl. unfold begin_, Iterator.SetInitalLocation.
  rewrite Hm, Hr. destruct T as [|l a k v ht r].
  - simpl. destruct fuel; simpl; unfold Iterator.eqb; simpl; by rewrite Hlast.
  - set (T := Node l a k v ht r) in *.
    assert (queued (store t) (levels T) T) as HT by done.
    assert (breadth_first T = level 0 T ++ forest_levels (levels T) (children T))
      as Hbf.
    { unfold breadth_first. rewrite <- forest_levels_singleton.
      by rewrite forest_levels_next. }
    pose proof (enqueue_children_roots (store t) T [] (proj1 HT) Hs) as Henq.
    cbn [root_of T] in Henq |- *. rewrite Henq. simpl. fold T.
    rewrite Hbf.
    apply (range_for_loop_top_down _ (levels T)); [done| |].
    + split_and!; try done. by apply children_queued.
    + pose proof (Permutation_length (breadth_first_permutation T)) as Hlen.
      rewrite Hbf, length_app, length_cells in Hlen.
      subst T. cbn [level length] in Hlen. lia.
Qed.

Lemma cells_keys T : key_ <$> cells T = keys T.
Proof.
  unfold keys. induction T as [|l IHl a k v ht r IHr]; simpl; [done|].
  rewrite !fmap_app, !fmap_cons, IHl, IHr. done.
Qed.

Lemma fmap_rev {A B} (f : A → B) (l : list A) : f <$> rev l = rev (f <$> l).
Proof.
  induction l as [|x l IH]; simpl; [done|]. by rewrite fmap_app, IH.
Qed.

Lemma increasing_app (l1 l2 : list Z) :
  increasing l1 → increasing l2 →
  (∀ x y, x ∈ l1 → y ∈ l2 → x < y) → increasing (l1 ++ l2).
Proof.
  induction l1 as [|x l1 IH]; simpl; [done|].
  intros (Hhd & Htl) H2 Hcross. split.
  - destruct l1 as [|y l1]; simpl; [|done].
    destruct l2 as [|y l2]; [done|]. apply Hcross; by left.
  - apply IH; [done|done|]. intros ? ? ? ?. apply Hcross; [by right|done].
Qed.

Lemma decreasing_app (l1 l2 : list Z) :
  decreasing l1 → decreasing l2 →
  (∀ x y, x ∈ l1 → y ∈ l2 → y < x) → decreasing (l1 ++ l2).
Proof.
  induction l1 as [|x l1 IH]; simpl; [done|].
  intros (Hhd & Htl) H2 Hcross. split.
  - destruct l1 as [|y l1]; simpl; [|done].
    destruct l2 as [|y l2]; [done|]. apply Hcross; by left.
  - apply IH; [done|done|]. intros ? ? ? ?. apply Hcross; [by right|done].
Qed.

Lemma increasing_above_head (x : Z) (l : list Z) :
  increasing (x :: l) → ∀ y, y ∈ l → x < y.
Proof.
  revert x. induction l as [|z l IH]; intros x; [by intros _ ? ?%elem_of_nil|].
  intros (Hxz & Hl) y [->|Hy]%elem_of_cons; [done|].
  pose proof (IH z Hl y Hy). lia.
Qed.

Lemma increasing_rev (l : list Z) : increasing l → decreasing (rev l).
Proof.
  induction l as [|x l IH]; [done|]. intros Hinc. simpl rev.
  apply decreasing_app.
  - apply IH. by destruct Hinc.
  - by simpl.
  - intros y x' Hy ->%list_elem_of_singleton.
    apply (increasing_above_head _ _ Hinc).
    by apply list_elem_of_In, in_rev, list_elem_of_In.
Qed.

Lemma bst_increasing T : bst T → increasing (keys T).
Proof.
  induction T as [|l IHl a k v ht r IHr]; [done|].
  intros (Hlt & Hgt & Hbl & Hbr). rewrite keys_Node.
  rewrite Forall_forall in Hlt, Hgt.
  apply increasing_app; [by apply IHl| |].
  - split; [|by apply IHr]. destruct (keys r) as [|y ys]; [done|].
    apply Hgt. by left.
  - intros x y Hx [->|Hy]%elem_of_cons; [by apply Hlt|].
    pose proof (Hlt x Hx). pose proof (Hgt y Hy). lia.
Qed.

Lemma represents_SetTraversalMethod t T m :
  represents t T → represents (SetTraversalMethod t m) T.
Proof. done. Qed.

(** C6: on a tree of [n] nodes that is a binary search tree, the range-based
    loop in the in-order mode visits exactly the [n] nodes in strictly
    increasing key order; in the reverse mode it visits the same nodes in the
    opposite, strictly decreasing, order; in the top-down mode it visits the
    nodes level by level starting with the root, each node once.  [n] passes
    of the loop are enough. *)
Theorem traversal_orders (t : AVLTree) (T : tree) (fuel : nat) :
  represents t T → bst T → (nodes_count T ≤ fuel)%nat →
  (range_for fuel (SetTraversalMethod t InOrder) = Some (cells T) ∧
   length (cells T) = nodes_count T ∧
   increasing (key_ <$> cells T)) ∧
  (range_for fuel (SetTraversalMethod t ReverseOrder) = Some (rev (cells T)) ∧
   decreasing (key_ <$> rev (cells T))) ∧
  (range_for fuel (SetTraversalMethod t TopDown) = Some (breadth_first T) ∧
   breadth_first T ≡ₚ cells T ∧
   head (breadth_first T) = deref (store t) (root_ t)).
Proof.
  intros Hrep Hbst Hf.
  pose proof (bst_increasing T Hbst) as Hinc.
  split_and!.
  - by apply range_for_in_order; [apply represents_SetTraversalMethod| |].
  - apply length_cells.
  - by rewrite cells_keys.
  - by apply range_for_reverse; [apply represents_SetTraversalMethod| |].
  - rewrite fmap_rev, cells_keys. by apply increasing_rev.
  - by apply range_for_top_down; [apply represents_SetTraversalMethod| |].
  - apply breadth_first_permutation.
  - destruct Hrep as (Hr & Hs & _). rewrite Hr, breadth_first_head.
    destruct T as [|l a k v ht r]; [done|].
    destruct Hs as (Hc & _). unfold deref; simpl. by rewrite Hc.
Qed.

Lemma traversal_orders_witness :
  (range_for 12 (SetTraversalMethod twelve_keys_tree InOrder) =
     Some (cells twelve_keys_shape) ∧
   length (cells twelve_keys_shape) = nodes_count twelve_keys_shape ∧
   increasing (key_ <$> cells twelve_keys_shape)) ∧
  (range_for 12 (SetTraversalMethod twelve_keys_tree ReverseOrder) =
     Some (rev (cells twelve_keys_shape)) ∧
   decreasing (key_ <$> rev (cells twelve_keys_shape))) ∧
  (range_for 12 (SetTraversalMethod twelve_keys_tree TopDown) =
     Some (breadth_first twelve_keys_shape) ∧
   breadth_first twelve_keys_shape ≡ₚ cells twelve_keys_shape ∧
   head (breadth_first twelve_keys_shape) =
     deref (store twelve_keys_tree) (root_ twelve_keys_tree)).
Proof.
  apply (traversal_orders twelve_keys_tree twelve_keys_shape 12).
  - sample_represented.
  - sample_ordered.
  - simpl. lia.
Defined.

(** ** Rotations *)

(** Membership in a list put together with [++] and [::]. *)
Ltac in_list :=
  unfold ctx_addrs in *;
  rewrite ?bind_cons, ?elem_of_app, ?elem_of_cons in *; simpl in *;
  rewrite ?elem_of_app, ?elem_of_cons in *; intuition auto.

Lemma root_of_plug c : ∀ S,
  root_of (plug c S) = match last c with Some f => Some (frame_loc f) | None => root_of S end.
Proof.
  induction c as [|f c IH]; intros S; [done|].
  rewrite last_cons. destruct f; simpl; rewrite IH; by destruct (last c).
Qed.

Lemma shape_plug h c : ∀ S,
  shape h (plug c S) ↔ shape h S ∧ shape_ctx h c (root_of S).
Proof.
  induction c as [|f c IH]; intros S; simpl; [tauto|].
  destruct f; rewrite IH; simpl; unfold cell; tauto.
Qed.

Lemma addrs_plug c : ∀ S, addrs (plug c S) ≡ₚ addrs S ++ ctx_addrs c.
Proof.
  unfold ctx_addrs.
  induction c as [|f c IH]; intros S; simpl; [by rewrite app_nil_r|].
  destruct f; rewrite IH; simpl; rewrite <- ?app_assoc; simpl.
  - done.
  - etrans; [apply Permutation_app_comm|]. simpl.
    rewrite <- Permutation_middle. constructor.
    rewrite <- app_assoc. apply Permutation_app_head, Permutation_app_comm.
Qed.

Lemma entries_plug c : ∀ S S',
  entries S = entries S' → entries (plug c S) = entries (plug c S').
Proof.
  induction c as [|f c IH]; intros S S' H; simpl; [done|].
  destruct f; apply IH; simpl; by rewrite H.
Qed.

Lemma bst_plug c : ∀ S, bst (plug c S) → bst S.
Proof.
  induction c as [|f c IH]; intros S; simpl; [done|].
  destruct f; intros H%IH; simpl in H; tauto.
Qed.

Lemma shape_ctx_frame h h' c : ∀ p,
  shape_ctx h c p → (∀ a, a ∈ ctx_addrs c → h' !! a = h !! a) → shape_ctx h' c p.
Proof.
  unfold ctx_addrs.
  induction c as [|f c IH]; intros p; simpl; [done|].
  destruct f; intros (Hc & Hs & Hctx) Hsame; split_and!.
  - rewrite Hsame; [done|]. set_solver.
  - apply (shape_frame h); [done|]. intros; apply Hsame. set_solver.
  - apply IH; [done|]. intros; apply Hsame. in_list.
  - rewrite Hsame; [done|]. set_solver.
  - apply (shape_frame h); [done|]. intros; apply Hsame. set_solver.
  - apply IH; [done|]. intros; apply Hsame. in_list.
Qed.

Lemma GetLeft_lookup (h : heap) (a : loc) (n : AVLTreeNode) : h !! a = Some n → GetLeft h (Some a) = Some (left_ n).
Proof. intros H. unfold GetLeft, deref; simpl. by rewrite H. Qed.
Lemma GetRight_lookup (h : heap) (a : loc) (n : AVLTreeNode) : h !! a = Some n → GetRight h (Some a) = Some (right_ n).
Proof. intros H. unfold GetRight, deref; simpl. by rewrite H. Qed.
Lemma GetKey_lookup (h : heap) (a : loc) (n : AVLTreeNode) : h !! a = Some n → GetKey h (Some a) = Some (key_ n).
Proof. intros H. unfold GetKey, deref; simpl. by rewrite H. Qed.
Lemma SetLeft_lookup (h : heap) (a : loc) (n : AVLTreeNode) (p : ptr) :
  h !! a = Some n →
  SetLeft h (Some a) p =
    Some (<[a := mkNode (key_ n) (value_ n) p (right_ n) (height_ n)]> h).
Proof. intros H. unfold SetLeft; simpl. by rewrite H. Qed.
Lemma SetRight_lookup (h : heap) (a : loc) (n : AVLTreeNode) (p : ptr) :
  h !! a = Some n →
  SetRight h (Some a) p =
    Some (<[a := mkNode (key_ n) (value_ n) (left_ n) p (height_ n)]> h).
Proof. intros H. unfold SetRight; simpl. by rewrite H. Qed.
Lemma CalculateHeight_lookup (h : heap) (a : loc) (n : AVLTreeNode) (r l : Z) :
  h !! a = Some n →
  child_height h (right_ n) = Some r → child_height h (left_ n) = Some l →
  CalculateHeight h (Some a) =
    Some (<[a := mkNode (key_ n) (value_ n) (left_ n) (right_ n)
                        (if r >? l then r + 1 else l + 1)]> h).
Proof.
  intros H Hr Hl. unfold CalculateHeight. simpl.
  rewrite H. simpl. rewrite Hr. simpl. by rewrite Hl.
Qed.

Lemma child_height_shape (h : heap) (S : tree) : shape h S → child_height h (root_of S) = Some (cached S).
Proof.
  destruct S; unfold child_height; simpl; [done|]. intros (Hc & _).
  unfold GetHeight, deref; simpl. by rewrite Hc.
Qed.

(** The store after the two pointer writes and the two height updates of a
    right rotation: the rotated subtree is in place, nothing else moved. *)
Lemma RotateRight_store (t : AVLTree) (parent : ptr)
    A al kl vl hl B an kn vn hn C :
  let S := Node (Node A al kl vl hl B) an kn vn hn C in
  let R := rotated_right A al kl vl B an kn vn C in
  shape (store t) S → NoDup (addrs S) →
  ∃ h4, RotateRight t (Some an) parent = rewire (set_store t h4) (Some al) parent ∧
        (∃ nl, h4 !! al = Some nl ∧ key_ nl = kl) ∧
        shape h4 R ∧
        (∀ x, x ∉ addrs S → h4 !! x = store t !! x).
Proof.
  intros S R (Hn & (Hl & HA & HB) & HC) Hnd. simpl in Hnd.
  assert (an ≠ al ∧ (an ∉ addrs A) ∧ (an ∉ addrs B) ∧ (an ∉ addrs C) ∧
          (al ∉ addrs A) ∧ (al ∉ addrs B) ∧ (al ∉ addrs C))
    as (Hne & ? & ? & ? & ? & ? & ?).
  { rewrite <- app_assoc in Hnd. simpl in Hnd.
    apply NoDup_app in Hnd as (_ & HAx & Hnd).
    apply NoDup_cons in Hnd as (Hal & Hnd).
    apply NoDup_app in Hnd as (_ & HBx & Hnd).
    apply NoDup_cons in Hnd as (Han & _).
    split_and!; set_solver. }
  set (h := store t) in *.
  unfold RotateRight. fold h.
  rewrite (GetLeft_lookup _ _ _ Hn). simpl.
  rewrite (GetRight_lookup _ _ _ Hl). simpl.
  rewrite (SetLeft_lookup _ _ _ _ Hn). simpl.
  set (h1 := <[an := _]> h).
  assert (h1 !! al = Some (cell A kl vl hl B)) as Hl1
    by (unfold h1; by rewrite lookup_insert_ne).
  rewrite (SetRight_lookup _ _ _ _ Hl1). simpl.
  set (h2 := <[al := _]> h1).
  assert (h2 !! an = Some (cell B kn vn hn C)) as Hn2.
  { unfold h2, h1. rewrite lookup_insert_ne by done. by rewrite lookup_insert_eq. }
  assert (∀ T, shape h T → an ∉ addrs T → al ∉ addrs T → shape h2 T) as Hfr2.
  { intros T HT ? ?. apply (shape_frame h); [done|]. intros a Ha.
    unfold h2, h1. rewrite !lookup_insert_ne; [done|set_solver|set_solver]. }
  rewrite (CalculateHeight_lookup h2 an _ (cached C) (cached B) Hn2);
    [|by apply child_height_shape, Hfr2|by apply child_height_shape, Hfr2].
  simpl.
  set (h3 := <[an := _]> h2).
  assert (h3 !! al = Some (mkNode kl vl (root_of A) (Some an) hl)) as Hl3.
  { unfold h3, h2. rewrite lookup_insert_ne by done. by rewrite lookup_insert_eq. }
  assert (∀ T, shape h T → an ∉ addrs T → al ∉ addrs T → shape h3 T) as Hfr3.
  { intros T HT ? ?. apply (shape_frame h2); [by apply Hfr2|]. intros a Ha.
    unfold h3. rewrite lookup_insert_ne; [done|set_solver]. }
  rewrite (CalculateHeight_lookup h3 al _ (recomputed B C) (cached A) Hl3);
    [| |by apply child_height_shape, Hfr3].
  2:{ simpl. unfold child_height, GetHeight, deref, h3; simpl.
      by rewrite lookup_insert_eq. }
  simpl. set (h4 := <[al := _]> h3).
  assert (∀ T, shape h T → an ∉ addrs T → al ∉ addrs T → shape h4 T) as Hfr4.
  { intros T HT ? ?. apply (shape_frame h3); [by apply Hfr3|]. intros a Ha.
    unfold h4. rewrite lookup_insert_ne; [done|set_solver]. }
  exists h4. split; [done|]. split; [|split].
  - eexists. split; [by unfold h4; rewrite lookup_insert_eq|done].
  - unfold R, rotated_right. simpl. split_and!; auto.
    + unfold h4. by rewrite lookup_insert_eq.
    + unfold h4, h3. rewrite lookup_insert_ne by done. by rewrite lookup_insert_eq.
  - intros x Hx. subst S. simpl in Hx.
    unfold h4, h3, h2, h1. rewrite !lookup_insert_ne; [done|..]; set_solver.
Qed.

(** The mirror image for a left rotation. *)
Lemma RotateLeft_store (t : AVLTree) (parent : ptr)
    A an kn vn hn B ar kr vr hr C :
  let S := Node A an kn vn hn (Node B ar kr vr hr C) in
  let R := rotated_left A an kn vn B ar kr vr C in
  shape (store t) S → NoDup (addrs S) →
  ∃ h4, RotateLeft t (Some an) parent = rewire (set_store t h4) (Some ar) parent ∧
        (∃ nr, h4 !! ar = Some nr ∧ key_ nr = kr) ∧
        shape h4 R ∧
        (∀ x, x ∉ addrs S → h4 !! x = store t !! x).
Proof.
  intros S R (Hn & HA & (Hr & HB & HC)) Hnd. simpl in Hnd.
  assert (an ≠ ar ∧ (an ∉ addrs A) ∧ (an ∉ addrs B) ∧ (an ∉ addrs C) ∧
          (ar ∉ addrs A) ∧ (ar ∉ addrs B) ∧ (ar ∉ addrs C))
    as (Hne & ? & ? & ? & ? & ? & ?).
  { apply NoDup_app in Hnd as (_ & HAx & Hnd).
    apply NoDup_cons in Hnd as (Han & Hnd).
    apply NoDup_app in Hnd as (_ & HBx & Hnd).
    apply NoDup_cons in Hnd as (Har & _).
    split_and!; set_solver. }
  set (h := store t) in *.
  unfold RotateLeft. fold h.
  rewrite (GetRight_lookup _ _ _ Hn). simpl.
  rewrite (GetLeft_lookup _ _ _ Hr). simpl.
  rewrite (SetRight_lookup _ _ _ _ Hn). simpl.
  set (h1 := <[an := _]> h).
  assert (h1 !! ar = Some (cell B kr vr hr C)) as Hr1
    by (unfold h1; by rewrite lookup_insert_ne).
  rewrite (SetLeft_lookup _ _ _ _ Hr1). simpl.
  set (h2 := <[ar := _]> h1).
  assert (h2 !! an = Some (cell A kn vn hn B)) as Hn2.
  { unfold h2, h1. rewrite lookup_insert_ne by done. by rewrite lookup_insert_eq. }
  assert (∀ T, shape h T → an ∉ addrs T → ar ∉ addrs T → shape h2 T) as Hfr2.
  { intros T HT ? ?. apply (shape_frame h); [done|]. intros a Ha.
    unfold h2, h1. rewrite !lookup_insert_ne; [done|set_solver|set_solver]. }
  rewrite (CalculateHeight_lookup h2 an _ (cached B) (cached A) Hn2);
    [|by apply child_height_shape, Hfr2|by apply child_height_shape, Hfr2].
  simpl.
  set (h3 := <[an := _]> h2).
  assert (h3 !! ar = Some (mkNode kr vr (Some an) (root_of C) hr)) as Hr3.
  { unfold h3, h2. rewrite lookup_insert_ne by done. by rewrite lookup_insert_eq. }
  assert (∀ T, shape h T → an ∉ addrs T → ar ∉ addrs T → shape h3 T) as Hfr3.
  { intros T HT ? ?. apply (shape_frame h2); [by apply Hfr2|]. intros a Ha.
    unfold h3. rewrite lookup_insert_ne; [done|set_solver]. }
  rewrite (CalculateHeight_lookup h3 ar _ (cached C) (recomputed A B) Hr3);
    [|by apply child_height_shape, Hfr3|].
  2:{ simpl. unfold child_height, GetHeight, deref, h3; simpl.
      by rewrite lookup_insert_eq. }
  simpl. set (h4 := <[ar := _]> h3).
  assert (∀ T, shape h T → an ∉ addrs T → ar ∉ addrs T → shape h4 T) as Hfr4.
  { intros T HT ? ?. apply (shape_frame h3); [by apply Hfr3|]. intros a Ha.
    unfold h4. rewrite lookup_insert_ne; [done|set_solver]. }
  exists h4. split; [done|]. split; [|split].
  - eexists. split; [by unfold h4; rewrite lookup_insert_eq|done].
  - unfold R, rotated_left. simpl. split_and!; auto.
    + unfold h4. by rewrite lookup_insert_eq.
    + unfold h4, h3. rewrite lookup_insert_ne by done. by rewrite lookup_insert_eq.
  - intros x Hx. subst S. simpl in Hx.
    unfold h4, h3, h2, h1. rewrite !lookup_insert_ne; [done|..]; set_solver.
Qed.

Lemma bst_hangs_by_key (c : list frame) (S : tree) (k : Z) :
  bst (plug c S) → k ∈ keys S → hangs_by_key c k.
Proof.
  destruct c as [|[a kp v ht r|l a kp v ht] c]; simpl; [done| |].
  - intros (Hlt & _)%bst_plug Hk. rewrite Forall_forall in Hlt. by apply Hlt.
  - intros (_ & Hgt & _)%bst_plug Hk. rewrite Forall_forall in Hgt. by apply Hgt.
Qed.

(** Hanging another subtree into a context: only the parent's pointer to the
    hole changes. *)
Lemma shape_ctx_rehang (h h' : heap) (c : list frame) (p p' : ptr) :
  shape_ctx h c p → NoDup (ctx_addrs c) →
  (∀ a, a ∈ ctx_addrs c → Some a ≠ parent_of c → h' !! a = h !! a) →
  match c with
  | [] => True
  | InLeft a k v ht r :: _ => h' !! a = Some (mkNode k v p' (root_of r) ht)
  | InRight l a k v ht :: _ => h' !! a = Some (mkNode k v (root_of l) p' ht)
  end →
  shape_ctx h' c p'.
Proof.
  unfold ctx_addrs.
  destruct c as [|f c]; [done|]. rewrite bind_cons.
  intros Hctx Hnd Hsame Hhead.
  assert (∀ x, x ∈ frame_addrs f ++ c ≫= frame_addrs → x ≠ frame_loc f →
               h' !! x = h !! x) as Hsame'.
  { intros x Hx Hne. apply Hsame; [done|]. simpl. by intros [= ->]. }
  destruct f as [a k v ht r|l a k v ht]; simpl in *;
    destruct Hctx as (Hc & Hs & Hctx);
    apply NoDup_cons in Hnd as (Ha & Hnd);
    (split_and!; [done| |]).
  - apply (shape_frame h); [done|]. intros x Hx. apply Hsame'; set_solver.
  - apply (shape_ctx_frame h); [done|]. intros x Hx.
    apply Hsame'; [in_list|]. intros ->. apply Ha. in_list.
  - apply (shape_frame h); [done|]. intros x Hx. apply Hsame'; set_solver.
  - apply (shape_ctx_frame h); [done|]. intros x Hx.
    apply Hsame'; [in_list|]. intros ->. apply Ha. in_list.
Qed.

Lemma rewire_in_context (t : AVLTree) (c : list frame) (p : ptr)
    (al : loc) (nl : AVLTreeNode) :
  shape_ctx (store t) c p → NoDup (ctx_addrs c) → al ∉ ctx_addrs c →
  store t !! al = Some nl → hangs_by_key c (key_ nl) →
  ∃ t', rewire t (Some al) (parent_of c) = Some t' ∧
        shape_ctx (store t') c (Some al) ∧
        root_ t' = match c with [] => Some al | _ => root_ t end ∧
        (∀ x, Some x ≠ parent_of c → store t' !! x = store t !! x) ∧
        count_ t' = count_ t ∧ traversal_method_ t' = traversal_method_ t.
Proof.
  intros Hctx Hnd Hal Hl Hkey. unfold rewire.
  destruct c as [|f c]; [by eexists|].
  assert (frame_loc f ≠ al) as Hne.
  { intros <-. apply Hal. unfold ctx_addrs. rewrite bind_cons.
    destruct f; simpl; in_list. }
  destruct f as [a k v ht r|l a k v ht]; simpl in *;
    destruct Hctx as (Hc & Hs & Hctx);
    unfold parent_of; cbn [head fmap option_fmap option_map frame_loc];
    rewrite (GetKey_lookup _ _ _ Hl), (GetKey_lookup _ _ _ Hc); simpl.
  - destruct (Z.ltb_spec (key_ nl) k); [|lia].
    rewrite (SetLeft_lookup _ _ _ _ Hc). simpl. eexists. split; [done|].
    split; [|split; [done|split; [|done]]].
    + apply (shape_ctx_rehang (store t) _ (InLeft a k v ht r :: c) p); try done.
      * intros x Hx Hp. simpl. apply lookup_insert_ne. intros ->. by apply Hp.
      * simpl. by rewrite lookup_insert_eq.
    + intros x Hx. simpl. apply lookup_insert_ne. intros ->. by apply Hx.
  - destruct (Z.ltb_spec (key_ nl) k); [lia|].
    rewrite (SetRight_lookup _ _ _ _ Hc). simpl. eexists. split; [done|].
    split; [|split; [done|split; [|done]]].
    + apply (shape_ctx_rehang (store t) _ (InRight l a k v ht :: c) p); try done.
      * intros x Hx Hp. simpl. apply lookup_insert_ne. intros ->. by apply Hp.
      * simpl. by rewrite lookup_insert_eq.
    + intros x Hx. simpl. apply lookup_insert_ne. intros ->. by apply Hx.
Qed.

Lemma parent_in_ctx (c : list frame) (a : loc) :
  parent_of c = Some a → a ∈ ctx_addrs c.
Proof.
  unfold parent_of, ctx_addrs. destruct c as [|f c]; [done|].
  intros [= <-]. rewrite bind_cons. destruct f; simpl; set_solver.
Qed.

Lemma root_of_plug_nonempty (c : list frame) (S S' : tree) :
  c ≠ [] → root_of (plug c S) = root_of (plug c S').
Proof.
  intros Hc. rewrite !root_of_plug.
  destruct (last c) eqn:E; [done|]. by apply last_None in E.
Qed.

Lemma NoDup_plug (c : list frame) (S : tree) :
  NoDup (addrs (plug c S)) ↔
  NoDup (addrs S) ∧ (∀ x, x ∈ addrs S → x ∉ ctx_addrs c) ∧ NoDup (ctx_addrs c).
Proof. rewrite addrs_plug. apply NoDup_app. Qed.

(** A rotated subtree hung back into its context is the whole tree again. *)
Lemma rehang_rotated (t t4 : AVLTree) (c : list frame) (S R : tree)
    (ar : loc) (nr : AVLTreeNode) :
  represents t (plug c S) → bst (plug c S) →
  addrs R = addrs S → root_of R = Some ar →
  store t4 !! ar = Some nr → key_ nr ∈ keys S →
  root_ t4 = root_ t → shape (store t4) R →
  (∀ x, x ∉ addrs S → store t4 !! x = store t !! x) →
  ∃ t', rewire t4 (Some ar) (parent_of c) = Some t' ∧
        represents t' (plug c R) ∧
        count_ t' = count_ t4 ∧ traversal_method_ t' = traversal_method_ t4.
Proof.
  intros (Hroot & Hshape & Hnd) Hbst Haddrs HrootR Har Hkey Hroot4 HshapeR Hsame.
  apply shape_plug in Hshape as (HS & Hctx).
  apply NoDup_plug in Hnd as (HndS & Hdisj & Hndc).
  assert (ar ∈ addrs S) as HarS.
  { rewrite <- Haddrs. destruct R; simplify_eq/=. in_list. }
  destruct (rewire_in_context t4 c (root_of S) ar nr) as
    (t' & Hrew & Hctx' & Hroot' & Hsame' & Hcount & Hmeth); try done.
  - apply (shape_ctx_frame (store t)); [done|].
    intros x Hx. apply Hsame. intros HxS. by apply (Hdisj x).
  - by apply Hdisj.
  - by apply (bst_hangs_by_key c S).
  - exists t'. split; [done|]. split; [|done].
    split; [|split].
    + rewrite Hroot'. destruct c as [|f c]; [by simpl|].
      rewrite Hroot4, Hroot. by apply root_of_plug_nonempty.
    + apply shape_plug. split; [|by rewrite HrootR].
      apply (shape_frame (store t4)); [done|].
      intros x Hx. apply Hsame'. intros Hp. symmetry in Hp.
      apply parent_in_ctx in Hp. apply (Hdisj x); [|done]. by rewrite <- Haddrs.
    + apply NoDup_plug. by rewrite Haddrs.
Qed.

Lemma RotateRight_in_context (t : AVLTree) (c : list frame)
    A al kl vl hl B an kn vn hn C :
  let S := Node (Node A al kl vl hl B) an kn vn hn C in
  let R := rotated_right A al kl vl B an kn vn C in
  represents t (plug c S) → bst (plug c S) →
  ∃ t', RotateRight t (Some an) (parent_of c) = Some t' ∧
        represents t' (plug c R) ∧
        count_ t' = count_ t ∧ traversal_method_ t' = traversal_method_ t.
Proof.
  intros S R Hrep Hbst.
  pose proof Hrep as (_ & (HS & _)%shape_plug & (HndS & _)%NoDup_plug).
  destruct (RotateRight_store t (parent_of c) A al kl vl hl B an kn vn hn C HS HndS)
    as (h4 & -> & (nl & Hnl & Hkl) & HR & Hsame).
  apply (rehang_rotated t (set_store t h4) c S R al nl); try done.
  - unfold R, S, rotated_right. simpl. by rewrite <- app_assoc.
  - rewrite Hkl. unfold S. rewrite !keys_Node. in_list.
Qed.

Lemma RotateLeft_in_context (t : AVLTree) (c : list frame)
    A an kn vn hn B ar kr vr hr C :
  let S := Node A an kn vn hn (Node B ar kr vr hr C) in
  let R := rotated_left A an kn vn B ar kr vr C in
  represents t (plug c S) → bst (plug c S) →
  ∃ t', RotateLeft t (Some an) (parent_of c) = Some t' ∧
        represents t' (plug c R) ∧
        count_ t' = count_ t ∧ traversal_method_ t' = traversal_method_ t.
Proof.
  intros S R Hrep Hbst.
  pose proof Hrep as (_ & (HS & _)%shape_plug & (HndS & _)%NoDup_plug).
  destruct (RotateLeft_store t (parent_of c) A an kn vn hn B ar kr vr hr C HS HndS)
    as (h4 & -> & (nr & Hnr & Hkr) & HR & Hsame).
  apply (rehang_rotated t (set_store t h4) c S R ar nr); try done.
  - unfold R, S, rotated_left. simpl. by rewrite <- app_assoc.
  - rewrite Hkr. unfold S. rewrite !keys_Node. in_list.
Qed.

(** C8: [RotateRight(node, parent)] on a node with a left child, in a binary
    search tree, with [parent] the parent of [node] (null when [node] is the
    root).  The left child becomes the root of the subtree, its former right
    subtree becomes the left subtree of [node], [node] becomes its right
    child; the height of [node] is recomputed first and the height of the new
    subtree root from it; the parent (or the root pointer) now leads to the
    new subtree root; everything else is as before, so the entries of the
    whole tree read in order are the same.  [RotateLeft] is the mirror
    image. *)
Theorem rotations_rewire_and_keep_order (t : AVLTree) (c : list frame) :
  (∀ A al kl vl hl B an kn vn hn C,
     let S := Node (Node A al kl vl hl B) an kn vn hn C in
     let R := Node A al kl vl (recomputed A (Node B an kn vn (recomputed B C) C))
                   (Node B an kn vn (recomputed B C) C) in
     represents t (plug c S) → bst (plug c S) →
     ∃ t', RotateRight t (Some an) (parent_of c) = Some t' ∧
           represents t' (plug c R) ∧
           entries (plug c R) = entries (plug c S) ∧
           GetCount t' = GetCount t) ∧
  (∀ A an kn vn hn B ar kr vr hr C,
     let S := Node A an kn vn hn (Node B ar kr vr hr C) in
     let R := Node (Node A an kn vn (recomputed A B) B) ar kr vr
                   (recomputed (Node A an kn vn (recomputed A B) B) C) C in
     represents t (plug c S) → bst (plug c S) →
     ∃ t', RotateLeft t (Some an) (parent_of c) = Some t' ∧
           represents t' (plug c R) ∧
           entries (plug c R) = entries (plug c S) ∧
           GetCount t' = GetCount t).
Proof.
  split.
  - intros A al kl vl hl B an kn vn hn C S R Hrep Hbst.
    destruct (RotateRight_in_context t c A al kl vl hl B an kn vn hn C Hrep Hbst)
      as (t' & Hrot & Hrep' & Hcount & _).
    exists t'. split_and!; try done.
    apply entries_plug. simpl. by rewrite <- app_assoc.
  - intros A an kn vn hn B ar kr vr hr C S R Hrep Hbst.
    destruct (RotateLeft_in_context t c A an kn vn hn B ar kr vr hr C Hrep Hbst)
      as (t' & Hrot & Hrep' & Hcount & _).
    exists t'. split_and!; try done.
    apply entries_plug. simpl. by rewrite <- app_assoc.
Qed.

Lemma rotations_rewire_and_keep_order_witness :
  (∃ t', RotateRight twelve_keys_tree (Some 2%positive) (Some 1%positive) = Some t' ∧
         ∃ T', represents t' T' ∧ entries T' = entries twelve_keys_shape ∧
               find T' 5 = Some (mkNode 5 "5" (Some 4%positive) (Some 3%positive) 4) ∧
               find T' 2 = Some (mkNode 2 "2" (Some 8%positive) (Some 2%positive) 2) ∧
               find T' 3 = Some (mkNode 3 "3" None (Some 5%positive) 1)) ∧
  (∃ t', RotateLeft twelve_keys_tree (Some 3%positive) (Some 1%positive) = Some t' ∧
         ∃ T', represents t' T' ∧ entries T' = entries twelve_keys_shape ∧
               find T' 5 = Some (mkNode 5 "5" (Some 2%positive) (Some 7%positive) 4)).
Proof.
  split.
  - destruct (proj1 (rotations_rewire_and_keep_order twelve_keys_tree
                [InLeft 1 5 "5" 4 twelve_keys_right])
              (Node Leaf 8 1 "1" 0 Leaf) 4%positive 2 "2" 1 Leaf
              2%positive 3 "3" 2 (Node Leaf 5 4 "4" 0 Leaf))
      as (t' & Hrot & Hrep & Hentries & _).
    + sample_represented.
    + sample_ordered.
    + exists t'. split; [exact Hrot|].
      eexists. split; [exact Hrep|]. split; [exact Hentries|].
      repeat split; reflexivity.
  - destruct (proj2 (rotations_rewire_and_keep_order twelve_keys_tree
                [InRight twelve_keys_left 1 5 "5" 4])
              (Node (Node Leaf 9 6 "6" 0 Leaf) 6 7 "7" 1 Leaf) 3%positive 8 "8" 3
              (Node Leaf 10 9 "9" 0 Leaf) 7%positive 10 "10" 2
              (Node Leaf 11 11 "11" 1 (Node Leaf 12 12 "12" 0 Leaf)))
      as (t' & Hrot & Hrep & Hentries & _).
    + sample_represented.
    + sample_ordered.
    + exists t'. split; [exact Hrot|].
      eexists. split; [exact Hrep|]. split; [exact Hentries|reflexivity].
Defined.

(** ** Keys and values are never overwritten *)

Lemma fields_kept_refl (h : heap) : fields_kept h h.
Proof. intros a n Hn. by exists n. Qed.

Lemma fields_kept_trans (h1 h2 h3 : heap) :
  fields_kept h1 h2 → fields_kept h2 h3 → fields_kept h1 h3.
Proof.
  intros H12 H23 a n Hn.
  destruct (H12 a n Hn) as (n2 & Hn2 & Hk2 & Hv2).
  destruct (H23 a n2 Hn2) as (n3 & Hn3 & Hk3 & Hv3).
  exists n3. split_and!; [done|congruence|congruence].
Qed.

Lemma fields_kept_write (h : heap) (a : loc) (n n' : AVLTreeNode) :
  h !! a = Some n → key_ n' = key_ n → value_ n' = value_ n →
  fields_kept h (<[a := n']> h).
Proof.
  intros Hn Hk Hv x m Hm. destruct (decide (x = a)) as [->|Hne].
  - exists n'. rewrite lookup_insert_eq. split; [done|]. split; congruence.
  - exists m. by rewrite lookup_insert_ne.
Qed.

Lemma SetLeft_kept (h h' : heap) (this p : ptr) :
  SetLeft h this p = Some h' → fields_kept h h'.
Proof.
  unfold SetLeft. intros H. destruct this as [a|]; simplify_option_eq.
  by eapply fields_kept_write.
Qed.

Lemma SetRight_kept (h h' : heap) (this p : ptr) :
  SetRight h this p = Some h' → fields_kept h h'.
Proof.
  unfold SetRight. intros H. destruct this as [a|]; simplify_option_eq.
  by eapply fields_kept_write.
Qed.

Lemma CalculateHeight_kept (h h' : heap) (this : ptr) :
  CalculateHeight h this = Some h' → fields_kept h h'.
Proof.
  unfold CalculateHeight. intros H. destruct this as [a|]; simplify_option_eq.
  by eapply fields_kept_write.
Qed.

Ltac keep_fields :=
  repeat match goal with
  | H : SetLeft _ _ _ = Some _ |- _ => apply SetLeft_kept in H
  | H : SetRight _ _ _ = Some _ |- _ => apply SetRight_kept in H
  | H : CalculateHeight _ _ = Some _ |- _ => apply CalculateHeight_kept in H
  end;
  simpl in *;
  repeat first
    [ assumption
    | apply fields_kept_refl
    | eapply fields_kept_trans; [eassumption|] ].

Lemma rewire_kept t top parent t' :
  rewire t top parent = Some t' → fields_kept (store t) (store t').
Proof. unfold rewire. intros H. unbind; keep_fields. Qed.

Lemma RotateRight_kept t node parent t' :
  RotateRight t node parent = Some t' → fields_kept (store t) (store t').
Proof.
  unfold RotateRight. intros H. unbind.
  match goal with H : rewire _ _ _ = Some _ |- _ => apply rewire_kept in H end.
  keep_fields.
Qed.

Lemma RotateLeft_kept t node parent t' :
  RotateLeft t node parent = Some t' → fields_kept (store t) (store t').
Proof.
  unfold RotateLeft. intros H. unbind.
  match goal with H : rewire _ _ _ = Some _ |- _ => apply rewire_kept in H end.
  keep_fields.
Qed.

Ltac keep_fields_more :=
  repeat match goal with
  | H : RotateLeft _ _ _ = Some _ |- _ => apply RotateLeft_kept in H
  | H : RotateRight _ _ _ = Some _ |- _ => apply RotateRight_kept in H
  | H : rewire _ _ _ = Some _ |- _ => apply rewire_kept in H
  end; keep_fields.

Lemma rebalance_step_kept t current stk t' :
  rebalance_step t current stk = Some t' → fields_kept (store t) (store t').
Proof. unfold rebalance_step. intros H. unbind; keep_fields_more. Qed.

Lemma rebalance_kept stk : ∀ t current t',
  rebalance t current stk = Some t' → fields_kept (store t) (store t').
Proof.
  induction stk as [|next rest IH]; intros t [c|] t' H; simpl in H;
    unbind; try apply fields_kept_refl.
  match goal with H : rebalance_step _ _ _ = Some _ |- _ => apply rebalance_step_kept in H end.
  match goal with H : rebalance _ _ _ = Some _ |- _ => apply IH in H end.
  by eapply fields_kept_trans.
Qed.

Lemma new_node_kept (h : heap) (k : Z) (v : string) :
  fields_kept h (new_node h k v).2.
Proof.
  intros a n Hn. exists n. unfold new_node; simpl.
  rewrite lookup_insert_ne; [done|].
  intros <-. by apply (is_fresh (dom h)), elem_of_dom.
Qed.

(** [Add] writes child pointers and heights only: every node that was in the
    store is still there with its key and its value. *)
Lemma Add_keeps_fields t k v r t' :
  Add t k v = Some (r, t') → fields_kept (store t) (store t').
Proof.
  unfold Add. intros H.
  pose proof (new_node_kept (store t) k v) as Hnew.
  destruct (new_node (store t) k v) as [a h0]. simpl in *.
  unbind;
    repeat match goal with
    | H : rebalance _ _ _ = Some _ |- _ => apply rebalance_kept in H
    end; keep_fields_more.
Qed.






(** ** Every insertion order of seven keys *)

Lemma reify_shape (h : heap) : ∀ fuel p T,
  reify fuel h p = Some T → root_of T = p ∧ shape h T.
Proof.
  induction fuel as [|fuel IH]; intros [a|] T; simpl; try by intros [= <-].
  intros H. destruct (h !! a) as [n|] eqn:Hn; simpl in H; [|done].
  destruct (reify fuel h (left_ n)) as [l|] eqn:El; simpl in H; [|done].
  destruct (reify fuel h (right_ n)) as [r|] eqn:Er; simpl in H; [|done].
  injection H as <-. apply IH in El as (Hl & Hsl). apply IH in Er as (Hr & Hsr).
  simpl. unfold cell. rewrite Hl, Hr. by destruct n.
Qed.

Lemma sound_b_spec (T : tree) :
  sound_b T = true → bst T ∧ avl T ∧ heights_cached T.
Proof.
  induction T as [|l IHl a k v ht r IHr]; simpl; [done|].
  rewrite !andb_true_iff, !forallb_forall, Z.leb_le, Z.eqb_eq.
  intros (((((Hlt & Hgt) & Hbal) & Hht) & Hl) & Hr).
  destruct (IHl Hl) as (? & ? & ?). destruct (IHr Hr) as (? & ? & ?).
  split_and!; try done.
  - apply Forall_forall. intros x Hx%list_elem_of_In. by apply Z.ltb_lt, Hlt.
  - apply Forall_forall. intros x Hx%list_elem_of_In. by apply Z.ltb_lt, Hgt.
Qed.

Lemma sound_with_spec (t : AVLTree) (ks : list Z) :
  sound_with t ks = true →
  ∃ T, represents t T ∧ bst T ∧ avl T ∧ heights_cached T ∧ keys T = ks ∧
       GetCount t = Z.of_nat (length ks).
Proof.
  unfold sound_with. destruct (reify _ _ _) as [T|] eqn:E; [|done].
  rewrite !andb_true_iff, !bool_decide_eq_true, Z.eqb_eq.
  intros (((Hs & Hnd) & Hk) & Hc).
  apply reify_shape in E as (Hr & Hsh). apply sound_b_spec in Hs as (? & ? & ?).
  by exists T.
Qed.

Lemma seven_adds :
  forallb (Add_then_sound [1; 2; 3; 4; 5; 6; 7])
          (permutations [1; 2; 3; 4; 5; 6; 7]) = true.
Proof. vm_compute. reflexivity. Qed.

(** [Add] on every insertion order of seven keys: the outcome is a balanced
    binary search tree with its heights cached right, holding the seven
    keys, counted right. *)
Lemma Add_sound_on_seven_keys (order : list Z) :
  order ≡ₚ [1; 2; 3; 4; 5; 6; 7] →
  ∃ t T, Add_all (AVLTree_new ∅) (numbered order) = Some t ∧
         represents t T ∧ bst T ∧ avl T ∧ heights_cached T ∧
         keys T = [1; 2; 3; 4; 5; 6; 7] ∧ GetCount t = 7.
Proof.
  intros Hp. symmetry in Hp. apply permutations_Permutation, list_elem_of_In in Hp.
  pose proof (proj1 (forallb_forall _ _) seven_adds order Hp) as H.
  unfold Add_then_sound in H.
  destruct (Add_all _ _) as [t|] eqn:EA; [|done].
  destruct (sound_with_spec _ _ H) as (T & ?). by exists t, T.
Qed.

(** ** [Add] keeps a sound tree sound *)

Lemma cached_height (T : tree) : heights_cached T → cached T = height T.
Proof. destruct T; simpl; [done|]. by intros (-> & _). Qed.

Lemma height_ge (T : tree) : -1 <= height T.
Proof. induction T; simpl; lia. Qed.

Lemma recomputed_height (l r : tree) :
  heights_cached l → heights_cached r →
  recomputed l r = 1 + Z.max (height l) (height r).
Proof.
  intros Hl%cached_height Hr%cached_height. unfold recomputed. rewrite Hl, Hr.
  destruct (Z.gtb_spec (height r) (height l)); lia.
Qed.

(** A node whose subtrees are balanced, cached right and at most two apart
    in height comes out of the pass balanced and cached right; its height is
    that of the taller subtree or one more, and one more whenever no
    rotation was called for. *)
Lemma balance_node_sound (l : tree) (a : loc) (k : Z) (v : string) (r : tree) :
  avl l → avl r → heights_cached l → heights_cached r →
  Z.abs (height l - height r) <= 2 →
  avl (balance_node l a k v r) ∧ heights_cached (balance_node l a k v r) ∧
  Z.max (height l) (height r) <= height (balance_node l a k v r)
    <= 1 + Z.max (height l) (height r) ∧
  (Z.abs (height l - height r) <= 1 →
     height (balance_node l a k v r) = 1 + Z.max (height l) (height r)).
Proof.
  intros Hal Har Hcl Hcr Hdiff. unfold balance_node.
  rewrite (cached_height l Hcl), (cached_height r Hcr).
  destruct (Z.gtb_spec (height l - height r) 1) as [Hbf|Hbf].
  - destruct l as [|ll al kl vl hl lr]; [simpl in *; pose proof (height_ge r); lia|].
    simpl in Hal, Hcl. destruct Hal as (Hbl & Hall & Halr).
    destruct Hcl as (Hhl & Hcll & Hclr).
    rewrite (cached_height ll Hcll), (cached_height lr Hclr).
    destruct (Z.ltb_spec (height ll - height lr) 0) as [Hlbf|Hlbf].
    + destruct lr as [|B ab kb vb hb C];
        [simpl in *; pose proof (height_ge ll); lia|].
      simpl in Halr, Hclr. destruct Halr as (Hbb & HaB & HaC).
      destruct Hclr as (Hhb & HcB & HcC).
      unfold rotated_right. simpl.
      rewrite !recomputed_height; simpl;
        rewrite ?recomputed_height; simpl; try done.
      all: simpl in *; split_and!; try done; lia.
    + unfold rotated_right. simpl.
      rewrite !recomputed_height; simpl;
        rewrite ?recomputed_height; simpl; try done.
      all: simpl in *; split_and!; try done; lia.
  - destruct (Z.ltb_spec (height l - height r) (-1)) as [Hbf'|Hbf'].
    + destruct r as [|rl ar kr vr hr rr]; [simpl in *; pose proof (height_ge l); lia|].
      simpl in Har, Hcr. destruct Har as (Hbr & Harl & Harr).
      destruct Hcr as (Hhr & Hcrl & Hcrr).
      rewrite (cached_height rl Hcrl), (cached_height rr Hcrr).
      destruct (Z.gtb_spec (height rl - height rr) 0) as [Hrbf|Hrbf].
      * destruct rl as [|B ab kb vb hb C];
          [simpl in *; pose proof (height_ge rr); lia|].
        simpl in Harl, Hcrl. destruct Harl as (Hbb & HaB & HaC).
        destruct Hcrl as (Hhb & HcB & HcC).
        unfold rotated_left. simpl.
        rewrite !recomputed_height; simpl;
          rewrite ?recomputed_height; simpl; try done.
        all: simpl in *; split_and!; try done; lia.
      * unfold rotated_left. simpl.
        rewrite !recomputed_height; simpl;
          rewrite ?recomputed_height; simpl; try done.
        all: simpl in *; split_and!; try done; lia.
    + simpl. rewrite recomputed_height by done. split_and!; try done; lia.
Qed.

Lemma plug_descend (k : Z) (T : tree) : ∀ c, plug (descend T k c) Leaf = plug c T.
Proof.
  induction T as [|l IHl a k' v ht r IHr]; intros c; simpl; [done|].
  destruct (k >? k'); [by rewrite IHr|by rewrite IHl].
Qed.

Lemma top_stack_of (c : list frame) : top (stack_of c) = Some (parent_of c).
Proof. by destruct c. Qed.

Lemma pop_stack_of (c : list frame) :
  pop (stack_of c) = Some (match c with [] => [] | _ :: c' => stack_of c' end).
Proof. by destruct c. Qed.

Lemma Add_search_slot (h : heap) (k : Z) (T : tree) : ∀ fuel c,
  shape h T → (levels T ≤ fuel)%nat → k ∉ keys T →
  Add_search fuel h k (root_of T) (parent_of c) (stack_of c) =
    Some (FoundSlot (parent_of (descend T k c)) (stack_of (descend T k c))).
Proof.
  induction T as [|l IHl a k' v ht r IHr]; intros fuel c; simpl.
  - by destruct fuel.
  - intros (Hc & Hl & Hr) Hf Hk. rewrite keys_Node in Hk.
    apply not_elem_of_app in Hk as [Hkl [Hne Hkr]%not_elem_of_cons].
    destruct fuel as [|fuel]; [lia|]. simpl. rewrite Hc. simpl.
    destruct (Z.eqb_spec k k'); [done|].
    destruct (k >? k').
    + apply (IHr fuel (InRight l a k' v ht :: c)); [done|lia|done].
    + apply (IHl fuel (InLeft a k' v ht r :: c)); [done|lia|done].
Qed.

Lemma descend_slot_by_key (k : Z) (T : tree) : ∀ c,
  slot_by_key c k → slot_by_key (descend T k c) k.
Proof.
  induction T as [|l IHl a k' v ht r IHr]; intros c Hc; simpl; [done|].
  destruct (k >? k') eqn:E; [by apply IHr|by apply IHl].
Qed.

(** Strictly increasing lists. *)
Lemma increasing_app_inv (l1 l2 : list Z) :
  increasing (l1 ++ l2) →
  increasing l1 ∧ increasing l2 ∧ (∀ x y, x ∈ l1 → y ∈ l2 → x < y).
Proof.
  induction l1 as [|x l1 IH]; simpl.
  - intros H. split_and!; [done|done|]. by intros x y ?%elem_of_nil.
  - intros Hall. pose proof Hall as (Hhd & Htl).
    destruct (IH Htl) as (H1 & H2 & Hcross). split_and!; try done.
    + by destruct l1.
    + intros x' y [->|Hx]%elem_of_cons Hy; [|by apply Hcross].
      apply (increasing_above_head x (l1 ++ l2)); [done|].
      apply elem_of_app. by right.
Qed.

Lemma increasing_bst (T : tree) : increasing (keys T) → bst T.
Proof.
  induction T as [|l IHl a k v ht r IHr]; [done|].
  rewrite keys_Node. intros (Hl & Hkr & Hcross)%increasing_app_inv.
  simpl. split_and!.
  - apply Forall_forall. intros x Hx. apply Hcross; [done|by left].
  - apply Forall_forall. intros y Hy. by apply (increasing_above_head k (keys r)).
  - by apply IHl.
  - apply IHr. by destruct Hkr.
Qed.

Lemma bst_by_keys (T T' : tree) : keys T' = keys T → bst T → bst T'.
Proof. intros Hk Hb. apply increasing_bst. rewrite Hk. by apply bst_increasing. Qed.

Lemma entries_balance_node (l : tree) (a : loc) (k : Z) (v : string) (r : tree) :
  entries (balance_node l a k v r) = entries l ++ mkMapEntry k v :: entries r.
Proof.
  unfold balance_node, rotated_right, rotated_left.
  repeat case_match; simpl; repeat (rewrite <- app_assoc; simpl); done.
Qed.

Lemma bst_plug_keys (c : list frame) : ∀ S S',
  keys S' = keys S → bst S' → bst (plug c S) → bst (plug c S').
Proof.
  induction c as [|f c IH]; intros S S' Hk Hb' Hb; simpl in *; [done|].
  destruct f as [a k v ht r|l a k v ht].
  - apply (IH (Node S a k v ht r)); [by rewrite !keys_Node, Hk| |done].
    apply bst_plug in Hb. simpl in *. rewrite Hk. tauto.
  - apply (IH (Node l a k v ht S)); [by rewrite !keys_Node, Hk| |done].
    apply bst_plug in Hb. simpl in *. rewrite Hk. tauto.
Qed.

Lemma keys_entries (T T' : tree) : entries T' = entries T → keys T' = keys T.
Proof. unfold keys. by intros ->. Qed.

Lemma CalculateHeight_in_context (t : AVLTree) (c : list frame)
    (l : tree) (a : loc) (k : Z) (v : string) (ht : Z) (r : tree) :
  represents t (plug c (Node l a k v ht r)) →
  ∃ h', CalculateHeight (store t) (Some a) = Some h' ∧
        represents (set_store t h') (plug c (Node l a k v (recomputed l r) r)).
Proof.
  intros (Hroot & (HS & Hctx)%shape_plug & (HndS & Hdisj & Hndc)%NoDup_plug).
  destruct HS as (Hcell & Hl & Hr). simpl in HndS.
  apply NoDup_app in HndS as (Hndl & Hal & (Har & Hndr)%NoDup_cons).
  eexists. split.
  { apply (CalculateHeight_lookup _ _ _ (cached r) (cached l) Hcell);
      by apply child_height_shape. }
  split; [|split].
  - simpl. rewrite Hroot, !root_of_plug. by destruct (last c).
  - simpl. apply shape_plug. split; [split; [|split]|].
    + by rewrite lookup_insert_eq.
    + apply (shape_frame (store t)); [done|]. intros x Hx.
      apply lookup_insert_ne. intros <-. apply (Hal a Hx). by left.
    + apply (shape_frame (store t)); [done|]. intros x Hx.
      apply lookup_insert_ne. by intros <-.
    + apply (shape_ctx_frame (store t)); [done|]. intros x Hx.
      apply lookup_insert_ne. intros <-. apply (Hdisj a); [|done].
      simpl. apply elem_of_app. right. by left.
  - apply NoDup_plug. split_and!; [|done|done].
    simpl. apply NoDup_app. split_and!; [done|done|by apply NoDup_cons].
Qed.

Lemma GetBalanceFactor_shape (h : heap) (l : tree) (a : loc) (k : Z) (v : string)
    (ht : Z) (r : tree) :
  shape h (Node l a k v ht r) →
  GetBalanceFactor h (Some a) = Some (cached l - cached r).
Proof.
  intros (Hc & Hl & Hr). unfold GetBalanceFactor, deref. simpl. rewrite Hc. simpl.
  by rewrite (child_height_shape _ _ Hr), (child_height_shape _ _ Hl).
Qed.

Lemma cached_ge (T : tree) : heights_cached T → -1 <= cached T.
Proof. intros H. rewrite (cached_height T H). apply height_ge. Qed.

(** One pass of the loop on the node at [a], anywhere in a search tree whose
    heights below [a] are cached right: the store then holds the tree with
    that node rebalanced. *)
Lemma rebalance_step_node (t : AVLTree) (c : list frame)
    (l : tree) (a : loc) (k : Z) (v : string) (ht : Z) (r : tree) :
  represents t (plug c (Node l a k v ht r)) →
  bst (plug c (Node l a k v ht r)) →
  heights_cached l → heights_cached r →
  ∃ t', rebalance_step t (Some a) (stack_of c) = Some t' ∧
        represents t' (plug c (balance_node l a k v r)) ∧
        count_ t' = count_ t ∧ traversal_method_ t' = traversal_method_ t.
Proof.
  intros Hrep Hbst Hcl Hcr.
  destruct (CalculateHeight_in_context t c l a k v ht r Hrep) as (h' & HCH & Hrep1).
  assert (bst (plug c (Node l a k v (recomputed l r) r))) as Hbst1.
  { apply (bst_plug_keys c (Node l a k v ht r)); [done| |done].
    by apply bst_plug in Hbst. }
  pose proof Hrep1 as (_ & (HS1 & _)%shape_plug & _).
  change (store (set_store t h')) with h' in HS1.
  pose proof HS1 as (Hc1 & Hl1 & Hr1).
  unfold rebalance_step. rewrite HCH. simpl.
  rewrite (GetBalanceFactor_shape _ _ _ _ _ _ _ HS1). simpl.
  unfold balance_node.
  destruct (Z.gtb_spec (cached l - cached r) 1) as [Hbf|Hbf].
  - destruct l as [|ll al kl vl hl lr];
      [pose proof (cached_ge r Hcr); simpl in Hbf; lia|].
    destruct Hcl as (_ & Hcll & Hclr).
    rewrite (GetLeft_lookup _ _ _ Hc1). simpl.
    rewrite (GetBalanceFactor_shape _ _ _ _ _ _ _ Hl1). simpl.
    rewrite top_stack_of. simpl.
    destruct (Z.ltb_spec (cached ll - cached lr) 0) as [Hlbf|Hlbf].
    + destruct lr as [|B ab kb vb hb C];
        [pose proof (cached_ge ll Hcll); simpl in Hlbf; lia|].
      destruct (RotateLeft_in_context (set_store t h')
                  (InLeft a k v (recomputed (Node ll al kl vl hl (Node B ab kb vb hb C)) r) r :: c)
                  ll al kl vl hl B ab kb vb hb C Hrep1 Hbst1)
        as (t2 & Hrot & Hrep2 & Hcount2 & Hmeth2).
      change (parent_of (_ :: c)) with (Some a) in Hrot. rewrite Hrot. simpl.
      assert (bst (plug (InLeft a k v
                (recomputed (Node ll al kl vl hl (Node B ab kb vb hb C)) r) r :: c)
                (rotated_left ll al kl vl B ab kb vb C))) as Hbst2.
      { refine (bst_plug_keys _ _ _ _ _ Hbst1).
        - apply keys_entries. simpl. by repeat (rewrite <- app_assoc; simpl).
        - apply bst_plug in Hbst1. revert Hbst1. apply bst_by_keys.
          apply keys_entries. simpl. by repeat (rewrite <- app_assoc; simpl). }
      destruct (RotateRight_in_context t2 c
                  (Node ll al kl vl (recomputed ll B) B) ab kb vb
                  (recomputed (Node ll al kl vl (recomputed ll B) B) C) C
                  a k v (recomputed (Node ll al kl vl hl (Node B ab kb vb hb C)) r) r
                  Hrep2 Hbst2)
        as (t3 & Hrot3 & Hrep3 & Hcount3 & Hmeth3).
      exists t3. split; [exact Hrot3|]. split; [done|].
      simpl in *. split; congruence.
    + destruct (RotateRight_in_context (set_store t h') c
                  ll al kl vl hl lr a k v (recomputed (Node ll al kl vl hl lr) r) r
                  Hrep1 Hbst1)
        as (t3 & Hrot3 & Hrep3 & Hcount3 & Hmeth3).
      exists t3. split; [exact Hrot3|]. split; [done|].
      simpl in *. split; congruence.
  - destruct (Z.ltb_spec (cached l - cached r) (-1)) as [Hbf'|Hbf'].
    + destruct r as [|rl ar kr vr hr rr];
        [pose proof (cached_ge l Hcl); simpl in Hbf'; lia|].
      destruct Hcr as (_ & Hcrl & Hcrr).
      rewrite (GetRight_lookup _ _ _ Hc1). simpl.
      rewrite (GetBalanceFactor_shape _ _ _ _ _ _ _ Hr1). simpl.
      rewrite top_stack_of. simpl.
      destruct (Z.gtb_spec (cached rl - cached rr) 0) as [Hrbf|Hrbf].
      * destruct rl as [|B ab kb vb hb C];
          [pose proof (cached_ge rr Hcrr); simpl in Hrbf; lia|].
        destruct (RotateRight_in_context (set_store t h')
                    (InRight l a k v (recomputed l (Node (Node B ab kb vb hb C) ar kr vr hr rr)) :: c)
                    B ab kb vb hb C ar kr vr hr rr Hrep1 Hbst1)
          as (t2 & Hrot & Hrep2 & Hcount2 & Hmeth2).
        change (parent_of (_ :: c)) with (Some a) in Hrot. rewrite Hrot. simpl.
        assert (bst (plug (InRight l a k v
                  (recomputed l (Node (Node B ab kb vb hb C) ar kr vr hr rr)) :: c)
                  (rotated_right B ab kb vb C ar kr vr rr))) as Hbst2.
        { refine (bst_plug_keys _ _ _ _ _ Hbst1).
          - apply keys_entries. simpl. by repeat (rewrite <- app_assoc; simpl).
          - apply bst_plug in Hbst1. revert Hbst1. apply bst_by_keys.
            apply keys_entries. simpl. by repeat (rewrite <- app_assoc; simpl). }
        destruct (RotateLeft_in_context t2 c
                    l a k v (recomputed l (Node (Node B ab kb vb hb C) ar kr vr hr rr))
                    B ab kb vb
                    (recomputed B (Node C ar kr vr (recomputed C rr) rr))
                    (Node C ar kr vr (recomputed C rr) rr)
                    Hrep2 Hbst2)
          as (t3 & Hrot3 & Hrep3 & Hcount3 & Hmeth3).
        exists t3. split; [exact Hrot3|]. split; [done|].
        simpl in *. split; congruence.
      * destruct (RotateLeft_in_context (set_store t h') c
                    l a k v (recomputed l (Node rl ar kr vr hr rr)) rl ar kr vr hr rr
                    Hrep1 Hbst1)
          as (t3 & Hrot3 & Hrep3 & Hcount3 & Hmeth3).
        exists t3. split; [exact Hrot3|]. split; [done|].
        simpl in *. split; congruence.
    + eexists. split; [done|]. split; [done|]. done.
Qed.

Lemma recomputed_cached (l r : tree) (a : loc) (k : Z) (v : string) :
  heights_cached l → heights_cached r →
  heights_cached (Node l a k v (recomputed l r) r).
Proof. intros Hl Hr. simpl. by rewrite recomputed_height. Qed.

Lemma balance_node_cached (l : tree) (a : loc) (k : Z) (v : string) (r : tree) :
  heights_cached l → heights_cached r → heights_cached (balance_node l a k v r).
Proof.
  intros Hl Hr. unfold balance_node, rotated_right, rotated_left.
  repeat case_match; subst; cbv zeta;
    repeat (apply recomputed_cached; try done); simpl in Hl, Hr; tauto.
Qed.

Lemma entries_rebalance_ctx (c : list frame) : ∀ S,
  entries (rebalance_ctx c S) = entries (plug c S).
Proof.
  induction c as [|f c IH]; intros S; simpl; [done|].
  rewrite IH. destruct f; simpl; apply entries_plug;
    by rewrite entries_balance_node.
Qed.

Lemma avl_plug (c : list frame) : ∀ S, avl (plug c S) → avl S.
Proof.
  induction c as [|f c IH]; intros S; simpl; [done|].
  destruct f; intros H%IH; simpl in H; tauto.
Qed.

Lemma heights_cached_plug (c : list frame) : ∀ S,
  heights_cached (plug c S) → heights_cached S.
Proof.
  induction c as [|f c IH]; intros S; simpl; [done|].
  destruct f; intros H%IH; simpl in H; tauto.
Qed.

(** Walking up from a subtree that is balanced, cached right and at most one
    level taller than the one it replaces leaves the whole tree balanced and
    cached right. *)
Lemma rebalance_ctx_sound (c : list frame) : ∀ S O,
  avl (plug c O) → heights_cached (plug c O) →
  avl S → heights_cached S → height O <= height S <= height O + 1 →
  avl (rebalance_ctx c S) ∧ heights_cached (rebalance_ctx c S).
Proof.
  induction c as [|f c IH]; intros S O HaO HcO HaS HcS Hh; simpl; [done|].
  destruct f as [a k v ht r|l a k v ht]; simpl in *.
  - pose proof (avl_plug _ _ HaO) as (Hbal & _ & Har).
    pose proof (heights_cached_plug _ _ HcO) as (_ & _ & Hcr).
    destruct (balance_node_sound S a k v r) as (Ha' & Hc' & Hb' & Hs');
      [done|done|done|done|lia|].
    apply (IH _ (Node O a k v ht r)); try done. simpl.
    destruct (Z_le_gt_dec (Z.abs (height S - height r)) 1) as [Hle|Hgt];
      [rewrite (Hs' Hle)|]; lia.
  - pose proof (avl_plug _ _ HaO) as (Hbal & Hal & _).
    pose proof (heights_cached_plug _ _ HcO) as (_ & Hcl & _).
    destruct (balance_node_sound l a k v S) as (Ha' & Hc' & Hb' & Hs');
      [done|done|done|done|lia|].
    apply (IH _ (Node l a k v ht O)); try done. simpl.
    destruct (Z_le_gt_dec (Z.abs (height l - height S)) 1) as [Hle|Hgt];
      [rewrite (Hs' Hle)|]; lia.
Qed.

Lemma plug_descend_hang (a : loc) (k : Z) (v : string) (T : tree) : ∀ c,
  plug (descend T k c) (Node Leaf a k v 0 Leaf) = plug c (hang T a k v).
Proof.
  induction T as [|l IHl a' k' v' ht r IHr]; intros c; simpl; [done|].
  destruct (k >? k'); [by rewrite IHr|by rewrite IHl].
Qed.

Lemma entries_hang (T : tree) (a : loc) (k : Z) (v : string) :
  entries (hang T a k v) ≡ₚ mkMapEntry k v :: entries T.
Proof.
  induction T as [|l IHl a' k' v' ht r IHr]; simpl; [done|].
  destruct (k >? k'); simpl.
  - rewrite IHr. by rewrite <- !Permutation_middle, perm_swap.
  - by rewrite IHl.
Qed.

Lemma keys_hang (T : tree) (a : loc) (k : Z) (v : string) :
  keys (hang T a k v) ≡ₚ k :: keys T.
Proof. unfold keys. by rewrite entries_hang. Qed.

Lemma bst_hang (T : tree) (a : loc) (k : Z) (v : string) :
  bst T → k ∉ keys T → bst (hang T a k v).
Proof.
  induction T as [|l IHl a' k' v' ht r IHr]; simpl.
  - intros _ _. unfold keys; simpl. by split_and!.
  - rewrite keys_Node. intros (Hlt & Hgt & Hbl & Hbr) Hk.
    apply not_elem_of_app in Hk as [Hkl [Hne Hkr]%not_elem_of_cons].
    destruct (Z.gtb_spec k k'); simpl; split_and!; auto.
    + rewrite keys_hang. constructor; [lia|done].
    + rewrite keys_hang. constructor; [lia|done].
Qed.

Lemma stack_of_cons (c : list frame) : stack_of c = parent_of c :: rest_of c.
Proof. by destruct c. Qed.

Lemma plug_cons_balanced (f : frame) (c : list frame) (S : tree) :
  ∃ l a k v ht r, plug (f :: c) S = plug c (Node l a k v ht r) ∧
    balanced f S = balance_node l a k v r ∧ frame_loc f = a ∧
    (heights_cached S → heights_cached (sibling f) →
     heights_cached l ∧ heights_cached r).
Proof. destruct f as [a k v ht r|l a k v ht]; simpl; naive_solver. Qed.

(** The loop of [Add] and [Remove] walks up the whole context, leaving each
    node on the way as [balance_node] makes it. *)
Lemma rebalance_in_context (c : list frame) : ∀ (S : tree) (t : AVLTree),
  represents t (plug c S) → bst (plug c S) → heights_cached S →
  Forall (λ f, heights_cached (sibling f)) c →
  ∃ t', rebalance t (parent_of c) (rest_of c) = Some t' ∧
        represents t' (rebalance_ctx c S) ∧
        count_ t' = count_ t ∧ traversal_method_ t' = traversal_method_ t.
Proof.
  induction c as [|f c IH]; intros S t Hrep Hbst HcS Hsib.
  - exists t. by split_and!.
  - apply Forall_cons in Hsib as [Hf Hsib].
    destruct (plug_cons_balanced f c S)
      as (l & a & k & v & ht & r & Hplug & Hbal & Ha & Hcached).
    destruct (Hcached HcS Hf) as [Hcl Hcr].
    rewrite Hplug in Hrep, Hbst.
    destruct (rebalance_step_node t c l a k v ht r Hrep Hbst Hcl Hcr)
      as (t1 & Hstep & Hrep1 & Hcnt1 & Htm1).
    destruct (IH (balance_node l a k v r) t1) as (t' & Hloop & Hrep' & Hcnt' & Htm').
    + done.
    + revert Hbst. apply bst_by_keys, keys_entries, entries_plug.
      by rewrite entries_balance_node.
    + by apply balance_node_cached.
    + done.
    + exists t'. split_and!; [|by rewrite <- Hbal in Hrep'|congruence|congruence].
      change (parent_of (f :: c)) with (Some (frame_loc f)). rewrite Ha.
      change (rest_of (f :: c)) with (stack_of c).
      rewrite stack_of_cons in Hstep |- *. simpl. rewrite Hstep. simpl. exact Hloop.
Qed.

Lemma siblings_cached (c : list frame) : ∀ S,
  heights_cached (plug c S) → Forall (λ f, heights_cached (sibling f)) c.
Proof.
  induction c as [|f c IH]; intros S H; [done|].
  constructor.
  - destruct f; simpl in *; apply heights_cached_plug in H; simpl in H; tauto.
  - destruct f; simpl in H; by apply IH in H.
Qed.

(** Hanging the new node below the parent the search stopped at
    ([Add] lines 213-224). *)
Lemma attach_in_context (t : AVLTree) (c : list frame) (p : ptr)
    (a : loc) (k : Z) :
  shape_ctx (store t) c p → NoDup (ctx_addrs c) → a ∉ ctx_addrs c →
  slot_by_key c k →
  ∃ t', match parent_of c with
        | None => Some (set_root t (Some a))
        | Some _ =>
          kp ← GetKey (store t) (parent_of c);
          if k >? kp
          then set_store t <$> SetRight (store t) (parent_of c) (Some a)
          else set_store t <$> SetLeft (store t) (parent_of c) (Some a)
        end = Some t' ∧
        shape_ctx (store t') c (Some a) ∧
        root_ t' = match c with [] => Some a | _ => root_ t end ∧
        (∀ x, Some x ≠ parent_of c → store t' !! x = store t !! x) ∧
        count_ t' = count_ t ∧ traversal_method_ t' = traversal_method_ t.
Proof.
  intros Hctx Hnd Hal Hkey.
  destruct c as [|f c]; [by eexists|].
  destruct f as [ap kp vp ht r|l ap kp vp ht]; simpl in *;
    destruct Hctx as (Hc & Hs & Hctx);
    unfold parent_of; cbn [head fmap option_fmap option_map frame_loc];
    rewrite (GetKey_lookup _ _ _ Hc); simpl; rewrite Hkey.
  - rewrite (SetLeft_lookup _ _ _ _ Hc). simpl. eexists. split; [done|].
    split; [|split; [done|split; [|done]]].
    + apply (shape_ctx_rehang (store t) _ (InLeft ap kp vp ht r :: c) p); try done.
      * intros x Hx Hp. simpl. apply lookup_insert_ne. intros ->. by apply Hp.
      * simpl. by rewrite lookup_insert_eq.
    + intros x Hx. simpl. apply lookup_insert_ne. intros ->. by apply Hx.
  - rewrite (SetRight_lookup _ _ _ _ Hc). simpl. eexists. split; [done|].
    split; [|split; [done|split; [|done]]].
    + apply (shape_ctx_rehang (store t) _ (InRight l ap kp vp ht :: c) p); try done.
      * intros x Hx Hp. simpl. apply lookup_insert_ne. intros ->. by apply Hp.
      * simpl. by rewrite lookup_insert_eq.
    + intros x Hx. simpl. apply lookup_insert_ne. intros ->. by apply Hx.
Qed.

(** Adding a key that is not in a sound tree succeeds; the tree it leaves
    is the new leaf, hung where the search ended and rebalanced on the way
    back to the root: a sound tree with one more entry. *)
Lemma Add_new_key_tree (t : AVLTree) (T : tree) (k : Z) (v : string) :
  represents t T → bst T → avl T → heights_cached T →
  k ∉ keys T → count_ t < INT_MAX →
  let T' := rebalance_ctx (descend T k [])
              (Node Leaf (fresh (dom (store t))) k v 0 Leaf) in
  ∃ t', Add t k v = Some (Return tt, t') ∧
        represents t' T' ∧ bst T' ∧ avl T' ∧ heights_cached T' ∧
        entries T' ≡ₚ mkMapEntry k v :: entries T ∧
        count_ t' = count_ t + 1 ∧
        traversal_method_ t' = traversal_method_ t.
Proof.
  intros (Hroot & Hshape & Hnd) Hbst Havl Hcached Hk Hcnt T'. subst T'.
  set (c := descend T k []).
  set (N := Node Leaf (fresh (dom (store t))) k v 0 Leaf).
  assert (plug c Leaf = T) as HT by apply (plug_descend k T []).
  assert (plug c N = hang T (fresh (dom (store t))) k v) as HN
    by apply (plug_descend_hang _ k v T []).
  assert (fresh (dom (store t)) ∉ addrs T) as Hfresh.
  { intros Hin. apply (shape_addrs_live _ _ _ Hshape) in Hin.
    apply elem_of_dom in Hin. by apply is_fresh in Hin. }
  pose proof (shape_new_node _ _ k v Hshape) as Hshape1.
  assert (shape_ctx (new_node (store t) k v).2 c None) as Hctx.
  { rewrite <- HT in Hshape1. by apply shape_plug in Hshape1 as [_ ?]. }
  assert (NoDup (ctx_addrs c) ∧ fresh (dom (store t)) ∉ ctx_addrs c) as [Hndc Hac].
  { rewrite <- HT in Hnd, Hfresh. apply NoDup_plug in Hnd as (_ & _ & Hnd).
    split; [done|]. intros Hin. apply Hfresh. rewrite addrs_plug. in_list. }
  unfold Add. simpl.
  rewrite Hroot.
  change (@None loc) with (parent_of []) at 1.
  change [@None loc] with (stack_of []).
  rewrite (Add_search_slot _ k T (walk_fuel _) []);
    [|done|by apply Nat.lt_le_incl, walk_fuel_enough|done].
  fold c. simpl. unfold int_incr.
  destruct (Z.ltb_spec (count_ t) INT_MAX); [|lia]. simpl.
  destruct (attach_in_context
              (set_count (set_store t (new_node (store t) k v).2) (count_ t + 1))
              c None (fresh (dom (store t))) k)
    as (t3 & Hatt & Hctx3 & Hroot3 & Hkeep3 & Hcnt3 & Htm3);
    [done|done|done|by apply (descend_slot_by_key k T [])|].
  simpl in Hatt. simpl. rewrite Hatt. simpl.
  rewrite top_stack_of, pop_stack_of. simpl.
  assert (represents t3 (plug c N)) as Hrep3.
  { split_and!.
    - rewrite Hroot3. clearbody c. destruct c as [|f c']; [done|].
      simpl root_. rewrite Hroot, <- HT. by apply root_of_plug_nonempty.
    - apply shape_plug. split; [|done]. simpl. split_and!; try done.
      rewrite Hkeep3; [simpl; apply lookup_insert_eq|].
      intros Hp. symmetry in Hp. by apply parent_in_ctx in Hp.
    - apply NoDup_plug. split_and!; [apply NoDup_singleton| |done].
      intros x Hx. simpl in Hx. apply list_elem_of_singleton in Hx. by rewrite Hx. }
  destruct (rebalance_in_context c N t3) as (t4 & Hloop & Hrep4 & Hcnt4 & Htm4).
  - done.
  - rewrite HN. by apply bst_hang.
  - simpl. split_and!; try done; lia.
  - apply (siblings_cached c Leaf). by rewrite HT.
  - change (match c with [] => [] | _ :: c' => stack_of c' end) with (rest_of c).
    rewrite Hloop. simpl. exists t4.
    destruct (rebalance_ctx_sound c N Leaf) as [Havl' Hc'];
      [by rewrite HT|by rewrite HT|by simpl|simpl; split_and!; try done; lia
      |simpl; lia|].
    split_and!; try done.
    + apply (bst_by_keys (plug c N)).
      * apply keys_entries, entries_rebalance_ctx.
      * rewrite HN. by apply bst_hang.
    + rewrite entries_rebalance_ctx, HN. apply entries_hang.
    + rewrite Hcnt4, Hcnt3. done.
    + rewrite Htm4, Htm3. done.
Qed.

(** Adding a key that is not in a sound tree succeeds and leaves a sound
    tree with one more entry. *)
Theorem Add_new_key (t : AVLTree) (T : tree) (k : Z) (v : string) :
  represents t T → bst T → avl T → heights_cached T →
  k ∉ keys T → count_ t < INT_MAX →
  ∃ t' T', Add t k v = Some (Return tt, t') ∧
           represents t' T' ∧ bst T' ∧ avl T' ∧ heights_cached T' ∧
           entries T' ≡ₚ mkMapEntry k v :: entries T ∧
           count_ t' = count_ t + 1 ∧
           traversal_method_ t' = traversal_method_ t.
Proof.
  intros Hrep Hbst Havl Hc Hk Hcnt.
  destruct (Add_new_key_tree t T k v Hrep Hbst Havl Hc Hk Hcnt) as (t' & H).
  by exists t', (rebalance_ctx (descend T k [])
                  (Node Leaf (fresh (dom (store t))) k v 0 Leaf)).
Qed.

(** After such an [Add], [Get] finds the new entry and every entry that was
    stored before, each with the value it had. *)
Corollary Add_new_key_lookups (t : AVLTree) (T : tree) (k : Z) (v : string) :
  represents t T → bst T → avl T → heights_cached T →
  k ∉ keys T → count_ t < INT_MAX →
  ∃ t', Add t k v = Some (Return tt, t') ∧
        Get t' k = Some (Return (mkMapEntry k v)) ∧
        ∀ k' v', mkMapEntry k' v' ∈ entries T →
                 Get t' k' = Some (Return (mkMapEntry k' v')).
Proof.
  intros Hrep Hbst Havl Hc Hk Hcnt.
  destruct (Add_new_key t T k v Hrep Hbst Havl Hc Hk Hcnt)
    as (t' & T' & HAdd & Hrep' & Hbst' & _ & _ & Hent & _).
  exists t'. split; [done|].
  assert (∀ k' v', mkMapEntry k' v' ∈ entries T' →
                   Get t' k' = Some (Return (mkMapEntry k' v'))) as Hget.
  { intros k' v' Hin. rewrite (Get_find _ _ _ Hrep').
    destruct (find_stored _ _ _ Hbst' Hin) as (n & -> & <- & <-). done. }
  split.
  - apply Hget. rewrite Hent. apply elem_of_cons. by left.
  - intros k' v' Hin. apply Hget. rewrite Hent. apply elem_of_cons. by right.
Qed.

(** The three-key sample meets the conditions of [Add_new_key]. *)
Example Add_new_key_on_three_keys :
  ∃ t' T', Add three_keys_tree 4 "four" = Some (Return tt, t') ∧
           represents t' T' ∧ bst T' ∧ avl T' ∧ heights_cached T' ∧
           entries T' ≡ₚ mkMapEntry 4 "four" :: entries three_keys_shape ∧
           count_ t' = count_ three_keys_tree + 1 ∧
           traversal_method_ t' = traversal_method_ three_keys_tree.
Proof.
  destruct three_keys_built as (_ & Hrep & Hbst & Havl).
  apply Add_new_key; try done.
  unfold keys. simpl. intros Hin.
  repeat (apply elem_of_cons in Hin as [Hin|Hin]; [discriminate Hin|]).
  by apply elem_of_nil in Hin.
Qed.

Lemma increasing_NoDup (l : list Z) : increasing l → NoDup l.
Proof.
  induction l as [|x l IH]; [constructor|].
  intros Hinc. constructor; [|apply IH; by destruct Hinc].
  intros Hx. pose proof (increasing_above_head _ _ Hinc _ Hx). lia.
Qed.

(** ** Sound trees *)

Lemma sound_three_keys : sound three_keys_tree three_keys_shape.
Proof.
  destruct three_keys_built as (_ & Hrep & Hbst & Havl).
  by split_and!.
Qed.

Lemma sound_twelve_keys : sound twelve_keys_tree twelve_keys_shape.
Proof.
  destruct twelve_keys_built as (_ & Hrep & Hbst & Havl).
  by split_and!.
Qed.

Lemma Get_stored (t : AVLTree) (T : tree) (k : Z) (v : string) :
  represents t T → bst T → mkMapEntry k v ∈ entries T →
  Get t k = Some (Return (mkMapEntry k v)).
Proof.
  intros Hrep Hbst Hin. rewrite (Get_find _ _ _ Hrep).
  by destruct (find_stored _ _ _ Hbst Hin) as (n & -> & <- & <-).
Qed.

Lemma Get_missing (t : AVLTree) (T : tree) (k : Z) :
  represents t T → k ∉ keys T → Get t k = Some (Throw (KeyNotPresent k)).
Proof. intros Hrep Hk. by rewrite (Get_find _ _ _ Hrep), find_missing. Qed.

Lemma key_stored (T : tree) (k : Z) :
  k ∈ keys T → ∃ v, mkMapEntry k v ∈ entries T.
Proof.
  unfold keys. intros ([k' v] & -> & Hin)%list_elem_of_fmap. by exists v.
Qed.

(** Two trees that hold the same entries, apart from the key [k], answer
    every [Get] of another key alike. *)
Lemma Get_elsewhere (t t' : AVLTree) (T T' : tree) (k k' : Z) :
  represents t T → bst T → represents t' T' → bst T' →
  (∀ e, key e ≠ k → e ∈ entries T' ↔ e ∈ entries T) →
  k' ≠ k → Get t' k' = Get t k'.
Proof.
  intros Hrep Hbst Hrep' Hbst' Hsame Hne.
  destruct (decide (k' ∈ keys T)) as [Hin|Hout].
  - apply key_stored in Hin as [v' Hin].
    rewrite (Get_stored t T k' v'), (Get_stored t' T' k' v'); try done.
    by apply Hsame.
  - rewrite (Get_missing t T k'), (Get_missing t' T' k'); try done.
    intros [v' Hin]%key_stored. apply Hout.
    apply Hsame in Hin; [|done]. by apply (entry_key_in_keys T (mkMapEntry k' v')).
Qed.

Lemma not_in_sample_keys (T : tree) (k : Z) :
  forallb (λ x, negb (x =? k)) (keys T) = true → k ∉ keys T.
Proof.
  intros H Hin. rewrite forallb_forall in H.
  apply list_elem_of_In, H in Hin. rewrite Z.eqb_refl in Hin. discriminate.
Qed.

(** ** What every mutation keeps *)










(** * Further properties *)

(** X1: [Add] of a key that is not stored, on a balanced binary search tree
    with its heights cached right, succeeds and leaves such a tree again; it
    holds the entries it held and the new one, and the count is one more. *)
Theorem Add_keeps_the_tree_sound (t : AVLTree) (T : tree) (k : Z) (v : string) :
  sound t T → k ∉ keys T → count_ t < INT_MAX →
  ∃ t' T', Add t k v = Some (Return tt, t') ∧ sound t' T' ∧
           entries T' ≡ₚ mkMapEntry k v :: entries T ∧
           GetCount t' = GetCount t + 1 ∧
           GetTraversalMethod t' = GetTraversalMethod t.
Proof.
  intros (Hrep & Hbst & Havl & Hc) Hk Hcnt.
  destruct (Add_new_key t T k v Hrep Hbst Havl Hc Hk Hcnt)
    as (t' & T' & HAdd & Hrep' & Hbst' & Havl' & Hc' & Hent & Hcnt' & Htm').
  exists t', T'. by split_and!.
Qed.

Lemma Add_keeps_the_tree_sound_witness :
  ∃ t' T', Add three_keys_tree 4 "four" = Some (Return tt, t') ∧ sound t' T' ∧
           entries T' ≡ₚ mkMapEntry 4 "four" :: entries three_keys_shape ∧
           GetCount t' = GetCount three_keys_tree + 1 ∧
           GetTraversalMethod t' = GetTraversalMethod three_keys_tree.
Proof.
  apply (Add_keeps_the_tree_sound three_keys_tree three_keys_shape 4 "four").
  - exact sound_three_keys.
  - apply not_in_sample_keys. vm_compute; reflexivity.
  - vm_compute; reflexivity.
Defined.

(** X2: after that [Add], [Get] of the new key returns the new entry, and
    [Get] of every other key answers as it did before, stored or not. *)
Theorem Add_then_Get (t : AVLTree) (T : tree) (k : Z) (v : string) :
  sound t T → k ∉ keys T → count_ t < INT_MAX →
  ∃ t', Add t k v = Some (Return tt, t') ∧
        Get t' k = Some (Return (mkMapEntry k v)) ∧
        ∀ k', k' ≠ k → Get t' k' = Get t k'.
Proof.
  intros (Hrep & Hbst & Havl & Hc) Hk Hcnt.
  destruct (Add_new_key t T k v Hrep Hbst Havl Hc Hk Hcnt)
    as (t' & T' & HAdd & Hrep' & Hbst' & _ & _ & Hent & _).
  exists t'. split_and!; [done| |].
  - apply (Get_stored t' T'); [done|done|]. rewrite Hent. by left.
  - intros k' Hne. apply (Get_elsewhere t t' T T' k); try done.
    intros e He. rewrite Hent, elem_of_cons. split; [|by right].
    intros [->|?]; [done|done].
Qed.

Lemma Add_then_Get_witness :
  ∃ t', Add three_keys_tree 4 "four" = Some (Return tt, t') ∧
        Get t' 4 = Some (Return (mkMapEntry 4 "four")) ∧
        ∀ k', k' ≠ 4 → Get t' k' = Get three_keys_tree k'.
Proof.
  apply (Add_then_Get three_keys_tree three_keys_shape 4 "four").
  - exact sound_three_keys.
  - apply not_in_sample_keys. vm_compute; reflexivity.
  - vm_compute; reflexivity.
Defined.

(** ** The smallest and the largest key *)

Lemma GetMinKey_loop_spine (h : heap) (T : tree) : ∀ fuel,
  T ≠ Leaf → shape h T → (levels T ≤ fuel)%nat →
  ∃ am n, GetMinKey_loop fuel h (root_of T) = Some (Some am) ∧
          h !! am = Some n ∧ head (keys T) = Some (key_ n).
Proof.
  induction T as [|l IHl a k v ht r _]; intros fuel HT Hshape Hfuel; [done|].
  destruct Hshape as (Ha & Hl & Hr).
  destruct l as [|ll al kl vl hl lr].
  - exists a, (cell Leaf k v ht r). split_and!; [|done|done].
    destruct fuel; cbn [GetMinKey_loop root_of];
      by rewrite (GetLeft_lookup _ _ _ Ha).
  - destruct fuel as [|fuel]; [simpl in Hfuel; lia|].
    destruct (IHl fuel) as (am & n & Hwalk & Hn & Hhead);
      [done|done|simpl in *; lia|].
    exists am, n. split_and!; [|done|].
    + cbn [GetMinKey_loop root_of]. rewrite (GetLeft_lookup _ _ _ Ha). exact Hwalk.
    + rewrite keys_Node. destruct (keys (Node ll al kl vl hl lr)); [done|].
      exact Hhead.
Qed.

Lemma GetMaxKey_loop_spine (h : heap) (T : tree) : ∀ fuel,
  T ≠ Leaf → shape h T → (levels T ≤ fuel)%nat →
  ∃ am n, GetMaxKey_loop fuel h (root_of T) = Some (Some am) ∧
          h !! am = Some n ∧ last (keys T) = Some (key_ n).
Proof.
  induction T as [|l _ a k v ht r IHr]; intros fuel HT Hshape Hfuel; [done|].
  destruct Hshape as (Ha & Hl & Hr).
  destruct r as [|rl ar kr vr hr rr].
  - exists a, (cell l k v ht Leaf). split_and!; [|done|].
    + destruct fuel; cbn [GetMaxKey_loop root_of];
        by rewrite (GetRight_lookup _ _ _ Ha).
    + rewrite keys_Node. unfold keys at 2. simpl. by rewrite last_snoc.
  - destruct fuel as [|fuel]; [simpl in Hfuel; lia|].
    destruct (IHr fuel) as (am & n & Hwalk & Hn & Hlast);
      [done|done|simpl in *; lia|].
    exists am, n. split_and!; [|done|].
    + cbn [GetMaxKey_loop root_of]. rewrite (GetRight_lookup _ _ _ Ha). exact Hwalk.
    + rewrite keys_Node, last_app_cons.
      destruct (keys (Node rl ar kr vr hr rr)); [done|].
      by rewrite last_cons_cons.
Qed.

Lemma increasing_bounds (l : list Z) (lo hi : Z) :
  increasing l → head l = Some lo → last l = Some hi →
  ∀ x, x ∈ l → lo <= x <= hi.
Proof.
  revert lo. induction l as [|y l IH]; intros lo Hinc Hhead Hlast x Hx;
    [by apply elem_of_nil in Hx|].
  injection Hhead as ->.
  destruct l as [|z l].
  - injection Hlast as ->. apply list_elem_of_singleton in Hx. lia.
  - pose proof (increasing_above_head _ _ Hinc) as Habove.
    destruct Hinc as [Hyz Hinc]. rewrite last_cons_cons in Hlast.
    specialize (IH z Hinc eq_refl Hlast).
    apply elem_of_cons in Hx as [->|Hx].
    + split; [lia|]. assert (z <= hi) by (apply IH; by left). lia.
    + specialize (IH x Hx). specialize (Habove x Hx). lia.
Qed.

(** X5: on a binary search tree that is not empty, [GetMinKey] returns the
    first and [GetMaxKey] the last key of the in-order listing, so every
    stored key lies between the two. *)
Theorem GetMinKey_GetMaxKey_bound_the_keys (t : AVLTree) (T : tree) :
  represents t T → bst T → T ≠ Leaf →
  ∃ lo hi, GetMinKey t = Some (Return lo) ∧ GetMaxKey t = Some (Return hi) ∧
           head (keys T) = Some lo ∧ last (keys T) = Some hi ∧
           ∀ k, k ∈ keys T → lo <= k <= hi.
Proof.
  intros (Hroot & Hshape & Hnd) Hbst HT.
  pose proof (walk_fuel_enough _ _ Hshape Hnd) as Hfuel.
  destruct (GetMinKey_loop_spine (store t) T (walk_fuel (store t)))
    as (amin & nmin & Hmin & Hnmin & Hhead); [done|done|lia|].
  destruct (GetMaxKey_loop_spine (store t) T (walk_fuel (store t)))
    as (amax & nmax & Hmax & Hnmax & Hlast); [done|done|lia|].
  exists (key_ nmin), (key_ nmax). split_and!; try done.
  - unfold GetMinKey. rewrite Hroot. destruct T; [done|].
    cbn [root_of] in *. rewrite Hmin. cbn [mbind option_bind].
    by rewrite (GetKey_lookup _ _ _ Hnmin).
  - unfold GetMaxKey. rewrite Hroot. destruct T; [done|].
    cbn [root_of] in *. rewrite Hmax. cbn [mbind option_bind].
    by rewrite (GetKey_lookup _ _ _ Hnmax).
  - apply increasing_bounds; [by apply bst_increasing|done|done].
Qed.

Lemma GetMinKey_GetMaxKey_bound_the_keys_witness :
  ∃ lo hi, GetMinKey twelve_keys_tree = Some (Return lo) ∧
           GetMaxKey twelve_keys_tree = Some (Return hi) ∧
           head (keys twelve_keys_shape) = Some lo ∧
           last (keys twelve_keys_shape) = Some hi ∧
           ∀ k, k ∈ keys twelve_keys_shape → lo <= k <= hi.
Proof.
  apply (GetMinKey_GetMaxKey_bound_the_keys twelve_keys_tree twelve_keys_shape).
  - exact (proj1 sound_twelve_keys).
  - exact (proj1 (proj2 sound_twelve_keys)).
  - discriminate.
Defined.

Lemma entries_sorted (T : tree) : bst T → increasing (key <$> entries T).
Proof. apply bst_increasing. Qed.

(** ** Building a tree *)

Lemma cells_entries (T : tree) : node_entry <$> cells T = entries T.
Proof.
  induction T as [|l IHl a k v ht r IHr]; simpl; [done|].
  by rewrite fmap_app, fmap_cons, IHl, IHr.
Qed.

Lemma length_entries (T : tree) : length (entries T) = nodes_count T.
Proof. by rewrite <- cells_entries, length_fmap, length_cells. Qed.

Lemma Add_all_sound (kvs : list (Z * string)) : ∀ (t : AVLTree) (T : tree),
  sound t T → count_ t = Z.of_nat (length (entries T)) →
  NoDup kvs.*1 → (∀ k, k ∈ kvs.*1 → k ∉ keys T) →
  Z.of_nat (length (entries T) + length kvs) <= INT_MAX →
  ∃ t' T', Add_all t kvs = Some t' ∧ sound t' T' ∧
           entries T' ≡ₚ (to_entry <$> kvs) ++ entries T ∧
           count_ t' = Z.of_nat (length (entries T')) ∧
           traversal_method_ t' = traversal_method_ t.
Proof.
  induction kvs as [|[k v] kvs IH]; intros t T Hsound Hcnt Hnd Hnew Hmax.
  - exists t, T. by split_and!.
  - destruct Hsound as (Hrep & Hbst & Havl & Hc).
    rewrite fmap_cons in Hnd, Hnew. apply NoDup_cons in Hnd as [Hk Hnd].
    simpl in Hmax.
    destruct (Add_new_key t T k v Hrep Hbst Havl Hc)
      as (t1 & T1 & HAdd & Hrep1 & Hbst1 & Havl1 & Hc1 & Hent1 & Hcnt1 & Htm1).
    { apply Hnew. by left. }
    { lia. }
    destruct (IH t1 T1) as (t' & T' & Hall & Hsound' & Hent' & Hcnt' & Htm').
    + by split_and!.
    + rewrite Hcnt1, Hcnt, Hent1. simpl. lia.
    + done.
    + intros k' Hk' Hin. unfold keys in Hin. rewrite Hent1, fmap_cons in Hin.
      apply elem_of_cons in Hin as [->|Hin]; [done|].
      apply (Hnew k'); [by right|done].
    + rewrite Hent1. simpl. lia.
    + exists t', T'. split_and!; try done.
      * simpl. rewrite HAdd. simpl. exact Hall.
      * rewrite Hent', Hent1, fmap_cons. by rewrite <- Permutation_middle.
      * congruence.
Qed.

(** X9: adding pairs with distinct keys to a new tree, in any order, builds a
    balanced binary search tree that holds exactly these pairs: the count is
    their number, [Get] finds each of them, and the in-order loop then yields
    them sorted by key. *)
Theorem Add_all_builds_a_sorted_tree (h : heap) (m : AVLTreeTraversalMethod)
    (kvs : list (Z * string)) :
  NoDup kvs.*1 → Z.of_nat (length kvs) <= INT_MAX →
  ∃ t T, Add_all (AVLTree_new_with h m) kvs = Some t ∧ sound t T ∧
         entries T ≡ₚ to_entry <$> kvs ∧
         GetCount t = Z.of_nat (length kvs) ∧
         (∀ k v, (k, v) ∈ kvs → Get t k = Some (Return (mkMapEntry k v))) ∧
         ∃ l, range_for (length kvs) (SetTraversalMethod t InOrder) = Some l ∧
              node_entry <$> l ≡ₚ to_entry <$> kvs ∧
              increasing (key_ <$> l).
Proof.
  intros Hnd Hmax.
  destruct (Add_all_sound kvs (AVLTree_new_with h m) Leaf)
    as (t & T & Hall & Hsound & Hent & Hcnt & _).
  { split_and!; [split_and!|..]; try done. constructor. }
  { done. }
  { done. }
  { intros k _ Hin. by apply elem_of_nil in Hin. }
  { done. }
  rewrite app_nil_r in Hent.
  pose proof (Permutation_length Hent) as Hlen. rewrite length_fmap in Hlen.
  destruct Hsound as (Hrep & Hbst & Havl & Hc).
  exists t, T. split_and!; try done.
  - unfold GetCount. by rewrite Hcnt, Hlen.
  - intros k v Hin. apply (Get_stored t T); [done|done|].
    rewrite Hent. by apply (list_elem_of_fmap_2 to_entry _ (k, v)).
  - exists (cells T). split_and!.
    + apply (range_for_in_order _ T); [done|done|].
      rewrite <- Hlen, length_entries. done.
    + by rewrite cells_entries.
    + rewrite cells_keys. by apply bst_increasing.
Qed.

Lemma Add_all_builds_a_sorted_tree_witness :
  ∃ t T, Add_all (AVLTree_new_with ∅ TopDown) [(2, "b"); (3, "c"); (1, "a")]
           = Some t ∧ sound t T ∧
         entries T ≡ₚ to_entry <$> [(2, "b"); (3, "c"); (1, "a")] ∧
         GetCount t = 3 ∧
         (∀ k v, (k, v) ∈ [(2, "b"); (3, "c"); (1, "a")] →
                 Get t k = Some (Return (mkMapEntry k v))) ∧
         ∃ l, range_for 3 (SetTraversalMethod t InOrder) = Some l ∧
              node_entry <$> l ≡ₚ to_entry <$> [(2, "b"); (3, "c"); (1, "a")] ∧
              increasing (key_ <$> l).
Proof.
  apply (Add_all_builds_a_sorted_tree ∅ TopDown [(2, "b"); (3, "c"); (1, "a")]).
  - apply (bool_decide_unpack _). vm_compute. exact I.
  - vm_compute. discriminate.
Defined.

(** ** Height *)

Lemma height_levels (T : tree) : height T = Z.of_nat (levels T) - 1.
Proof. induction T as [|l IHl a k v ht r IHr]; simpl; lia. Qed.

(** A balanced tree with [n] nodes has fewer than [2 log2 (n + 1)] levels. *)
Lemma avl_levels_bound (T : tree) :
  avl T → 2 ^ Z.of_nat (levels T) <= (Z.of_nat (nodes_count T) + 1) ^ 2.
Proof.
  induction T as [|l IHl a k v ht r IHr]; [done|].
  intros (Hbal & Hal & Har). specialize (IHl Hal). specialize (IHr Har).
  rewrite !height_levels in Hbal.
  cbn [levels nodes_count].
  rewrite Nat2Z.inj_succ, Nat2Z.inj_max, Z.pow_succ_r by lia.
  replace (Z.of_nat (S (nodes_count l + nodes_count r)) + 1)
    with ((Z.of_nat (nodes_count l) + 1) + (Z.of_nat (nodes_count r) + 1))
    by lia.
  assert (0 < Z.of_nat (nodes_count l) + 1) as Ha' by lia.
  assert (0 < Z.of_nat (nodes_count r) + 1) as Hb' by lia.
  generalize dependent (Z.of_nat (nodes_count l) + 1).
  generalize dependent (Z.of_nat (nodes_count r) + 1).
  intros b' IHr Hb' a' IHl Ha'.
  assert (0 <= Z.of_nat (levels l)) as Hl0 by lia.
  assert (0 <= Z.of_nat (levels r)) as Hr0 by lia.
  generalize dependent (Z.of_nat (levels l)).
  generalize dependent (Z.of_nat (levels r)).
  intros lr IHr Hr0 ll Hbal IHl Hl0.
  assert (0 < 2 ^ ll) as Hpl by (apply Z.pow_pos_nonneg; lia).
  assert (0 < 2 ^ lr) as Hpr by (apply Z.pow_pos_nonneg; lia).
  assert (ll = lr ∨ ll = lr + 1 ∨ lr = ll + 1) as [->|[->| ->]] by lia.
  - rewrite Z.max_id. assert (2 ^ lr <= a' * b') by nia. nia.
  - rewrite Z.max_l by lia.
    assert (2 ^ (lr + 1) = 2 * 2 ^ lr) as Hpow
      by (rewrite Z.pow_add_r by lia; lia).
    rewrite Hpow in *. assert (2 ^ lr <= a' * b') by nia. nia.
  - rewrite Z.max_r by lia.
    assert (2 ^ (ll + 1) = 2 * 2 ^ ll) as Hpow
      by (rewrite Z.pow_add_r by lia; lia).
    rewrite Hpow in *. assert (2 ^ ll <= a' * b') by nia. nia.
Qed.

(** X10: on a balanced binary search tree with its heights cached right that
    is not empty, [GetTreeHieight] returns the length of the longest path
    below the root, which stays under twice the logarithm of the number of
    entries, and [GetTreeBalanceFactor] returns -1, 0 or 1. *)
Theorem height_is_logarithmic (t : AVLTree) (T : tree) :
  sound t T → T ≠ Leaf →
  ∃ hgt bf, GetTreeHieight t = Some hgt ∧ hgt = height T ∧
            2 ^ (hgt + 1) <= (Z.of_nat (length (entries T)) + 1) ^ 2 ∧
            GetTreeBalanceFactor t = Some bf ∧ -1 <= bf <= 1.
Proof.
  intros ((Hroot & Hshape & Hnd) & Hbst & Havl & Hc) HT.
  destruct T as [|l a k v ht r]; [done|].
  exists ht, (cached l - cached r).
  pose proof Hshape as (Ha & Hl & Hr).
  destruct Hc as (Hht & Hcl & Hcr). destruct Havl as (Hbal & Hal & Har).
  split_and!.
  - unfold GetTreeHieight. rewrite Hroot. cbn [root_of].
    unfold GetHeight, deref. cbn [mbind option_bind]. by rewrite Ha.
  - done.
  - rewrite length_entries. rewrite height_levels in Hht.
    pose proof (avl_levels_bound (Node l a k v ht r)) as Hbound.
    replace (ht + 1) with (Z.of_nat (levels (Node l a k v ht r))) by lia.
    apply Hbound. by split_and!.
  - unfold GetTreeBalanceFactor. rewrite Hroot. cbn [root_of].
    by apply (GetBalanceFactor_shape _ l a k v ht r).
  - rewrite (cached_height l Hcl), (cached_height r Hcr). lia.
  - rewrite (cached_height l Hcl), (cached_height r Hcr). lia.
Qed.

Lemma height_is_logarithmic_witness :
  ∃ hgt bf, GetTreeHieight twelve_keys_tree = Some hgt ∧
            hgt = height twelve_keys_shape ∧
            2 ^ (hgt + 1) <=
              (Z.of_nat (length (entries twelve_keys_shape)) + 1) ^ 2 ∧
            GetTreeBalanceFactor twelve_keys_tree = Some bf ∧ -1 <= bf <= 1.
Proof.
  apply (height_is_logarithmic twelve_keys_tree twelve_keys_shape).
  - exact sound_twelve_keys.
  - discriminate.
Defined.

(** ** Clear *)

Lemma empty_range_for (t : AVLTree) (fuel : nat) :
  root_ t = None → range_for fuel t = Some [].
Proof.
  intros Hroot. unfold range_for, begin_. rewrite Hroot. fold (end_ t).
  destruct (end_defined t) as [e He]. rewrite He. simpl.
  destruct fuel; simpl; unfold Iterator.eqb; by rewrite bool_decide_eq_true_2.
Qed.

(** X11: [Clear] leaves an empty tree whatever the tree was: the count is 0,
    every [Get] throws, the loop over the tree makes no pass, and a key that
    was stored can be added again.  No node is deleted: the store is the one
    it was. *)
Theorem Clear_empties_the_tree (t : AVLTree) :
  GetCount (Clear t) = 0 ∧ store (Clear t) = store t ∧
  GetTraversalMethod (Clear t) = GetTraversalMethod t ∧
  (∀ k, Get (Clear t) k = Some (Throw (KeyNotPresent k))) ∧
  (∀ fuel, range_for fuel (Clear t) = Some []) ∧
  (∀ k v, ∃ t', Add (Clear t) k v = Some (Return tt, t') ∧ GetCount t' = 1 ∧
                Get t' k = Some (Return (mkMapEntry k v))).
Proof.
  split; [done|]. split; [done|]. split; [done|]. split; [|split].
  - intros k. apply (Get_missing _ Leaf); [|by intros ?%elem_of_nil].
    split_and!; [done|done|constructor].
  - intros fuel. by apply empty_range_for.
  - intros k v. eexists. split; [by apply Add_to_empty|]. split; [done|].
    apply (Get_stored _ (Node Leaf (fresh (dom (store t))) k v 0 Leaf)).
    + split_and!; [done| |apply NoDup_singleton].
      simpl. split_and!; try done. apply lookup_insert_eq.
    + simpl. unfold keys. simpl. by split_and!.
    + simpl. by left.
Qed.

(** ** Iterators *)

Lemma end_is (t : AVLTree) :
  end_ t = Some match traversal_method_ t with
                | TopDown => Iterator.mkIterator None [] [] TopDown
                | m => Iterator.mkIterator None [None] [] m
                end.
Proof. unfold end_. by destruct (traversal_method_ t). Qed.

(** X12: incrementing the iterator [end()] returns: with the orders [InOrder]
    and [ReverseOrder] the increment reads a child of the null node, which is
    undefined; with [TopDown] it is harmless and leaves the iterator where it
    was. *)
Theorem incrementing_end (t : AVLTree) :
  ∃ e, end_ t = Some e ∧ Iterator.current_ e = None ∧
       Iterator.MoveNext (store t) e =
         match traversal_method_ t with
         | TopDown => Some e
         | _ => None
         end.
Proof.
  eexists. split; [apply end_is|]. by destruct (traversal_method_ t).
Qed.

Lemma head_bind_cons {A B} (f : A → list B) (x : A) (l : list A) (y : B)
    (ys : list B) :
  f x = y :: ys → head ((x :: l) ≫= f) = Some y.
Proof. intros H. by rewrite bind_cons, H. Qed.

(** X13: on a tree that is not empty, [begin()] differs from [end()] and
    stands on the first node of the order chosen: the node of the smallest
    key, of the largest key, or the root.  On an empty tree [begin()] equals
    [end()]. *)
Theorem begin_stands_on_the_first_node (t : AVLTree) (T : tree)
    (m : AVLTreeTraversalMethod) :
  represents t T →
  ∃ b e, begin_ (SetTraversalMethod t m) = Some b ∧
         end_ (SetTraversalMethod t m) = Some e ∧
         (Iterator.eqb b e = true ↔ T = Leaf) ∧
         deref (store t) (Iterator.current_ b) =
           head match m with
                | InOrder => cells T
                | ReverseOrder => rev (cells T)
                | TopDown => breadth_first T
                end.
Proof.
  intros Hrep.
  pose proof (represents_SetTraversalMethod t T m Hrep) as Hrep'.
  destruct (end_defined (SetTraversalMethod t m)) as [e He].
  pose proof (end_current _ _ He) as Hec.
  destruct m.
  - destruct (begin_in_order _ T Hrep' eq_refl) as (b & Hb & _ & Hvis & Hst).
    exists b, e. unfold Iterator.eqb. rewrite Hec.
    rewrite <- left_spine_cells.
    destruct T as [|l a k v ht r]; cbn [left_spine] in *.
    { split_and!; [done|done|by rewrite Hst|by rewrite Hst]. }
    destruct (left_spine l ++ [Node l a k v ht r]) as [|T1 stk] eqn:E;
      [by destruct (left_spine l)|].
    destruct Hst as [Hcur _]. rewrite Hcur.
    apply Forall_cons in Hvis as [[HT1 [Hsh _]] _].
    destruct T1 as [|l1 a1 k1 v1 h1 r1]; [done|]. destruct Hsh as (Hc1 & _).
    split_and!; [done|done| |].
    + rewrite bool_decide_eq_true. by split.
    + by rewrite (head_bind_cons _ _ _ (cell l1 k1 v1 h1 r1) (cells r1)).
  - destruct (begin_reverse _ T Hrep' eq_refl) as (b & Hb & _ & Hvis & Hst).
    exists b, e. unfold Iterator.eqb. rewrite Hec.
    rewrite <- right_spine_cells.
    destruct T as [|l a k v ht r]; cbn [right_spine] in *.
    { split_and!; [done|done|by rewrite Hst|by rewrite Hst]. }
    destruct (right_spine r ++ [Node l a k v ht r]) as [|T1 stk] eqn:E;
      [by destruct (right_spine r)|].
    destruct Hst as [Hcur _]. rewrite Hcur.
    apply Forall_cons in Hvis as [[HT1 [Hsh _]] _].
    destruct T1 as [|l1 a1 k1 v1 h1 r1]; [done|]. destruct Hsh as (Hc1 & _).
    split_and!; [done|done| |].
    + rewrite bool_decide_eq_true. by split.
    + by rewrite (head_bind_cons _ _ _ (cell l1 k1 v1 h1 r1) (rev (cells l1))).
  - destruct Hrep as (Hroot & Hshape & _).
    destruct T as [|l a k v ht r].
    + exists (Iterator.mkIterator None [] [] TopDown), e.
      unfold Iterator.eqb. rewrite Hec. split_and!; [|done|done|done].
      unfold begin_. cbn [SetTraversalMethod store root_ traversal_method_].
      by rewrite Hroot.
    + destruct Hshape as (Ha & _).
      assert (∃ q, begin_ (SetTraversalMethod t TopDown) =
                   Some (Iterator.mkIterator (Some a) [] q TopDown))
        as [q Hb].
      { unfold begin_. cbn [SetTraversalMethod store root_ traversal_method_].
        rewrite Hroot. cbn [root_of Iterator.SetInitalLocation].
        unfold Iterator.enqueue_children.
        rewrite (GetLeft_lookup _ _ _ Ha), (GetRight_lookup _ _ _ Ha).
        cbn [mbind option_bind]. by eexists. }
      exists (Iterator.mkIterator (Some a) [] q TopDown), e.
      unfold Iterator.eqb. rewrite Hec.
      split_and!; [exact Hb|done| |].
      * cbn [Iterator.current_]. rewrite bool_decide_eq_true. by split.
      * cbn [Iterator.current_ deref mbind option_bind]. by rewrite Ha.
Qed.

Lemma begin_stands_on_the_first_node_witness :
  ∃ b e, begin_ (SetTraversalMethod twelve_keys_tree ReverseOrder) = Some b ∧
         end_ (SetTraversalMethod twelve_keys_tree ReverseOrder) = Some e ∧
         (Iterator.eqb b e = true ↔ twelve_keys_shape = Leaf) ∧
         deref (store twelve_keys_tree) (Iterator.current_ b) =
           head (rev (cells twelve_keys_shape)).
Proof.
  apply (begin_stands_on_the_first_node twelve_keys_tree twelve_keys_shape
           ReverseOrder).
  exact (proj1 sound_twelve_keys).
Defined.

(** ** Rotations *)

(** X14: a right rotation followed by a left rotation of the node that came
    up gives back the tree that was there, and so does a left rotation
    followed by a right one, when the heights below were cached right. *)
Theorem rotations_undo_each_other (t : AVLTree) (c : list frame)
    (A : tree) (al : loc) (kl : Z) (vl : string) (hl : Z) (B : tree)
    (an : loc) (kn : Z) (vn : string) (hn : Z) (C : tree) :
  (let S := Node (Node A al kl vl hl B) an kn vn hn C in
   represents t (plug c S) → bst (plug c S) → heights_cached S →
   ∃ t1 t2, RotateRight t (Some an) (parent_of c) = Some t1 ∧
            RotateLeft t1 (Some al) (parent_of c) = Some t2 ∧
            represents t2 (plug c S) ∧ GetCount t2 = GetCount t) ∧
  (let S := Node A al kl vl hl (Node B an kn vn hn C) in
   represents t (plug c S) → bst (plug c S) → heights_cached S →
   ∃ t1 t2, RotateLeft t (Some al) (parent_of c) = Some t1 ∧
            RotateRight t1 (Some an) (parent_of c) = Some t2 ∧
            represents t2 (plug c S) ∧ GetCount t2 = GetCount t).
Proof.
  split; intros S Hrep Hbst Hc.
  - destruct (RotateRight_in_context t c A al kl vl hl B an kn vn hn C Hrep Hbst)
      as (t1 & Hrot1 & Hrep1 & Hcnt1 & _).
    unfold rotated_right in Hrep1.
    assert (bst (plug c (Node A al kl vl
                           (recomputed A (Node B an kn vn (recomputed B C) C))
                           (Node B an kn vn (recomputed B C) C)))) as Hbst1.
    { revert Hbst. apply bst_by_keys, keys_entries, entries_plug.
      simpl. by rewrite <- app_assoc. }
    destruct (RotateLeft_in_context t1 c A al kl vl _ B an kn vn _ C Hrep1 Hbst1)
      as (t2 & Hrot2 & Hrep2 & Hcnt2 & _).
    exists t1, t2. split_and!; [done|done| |unfold GetCount; congruence].
    unfold rotated_left in Hrep2.
    destruct Hc as (Hhn & (Hhl & HcA & HcB) & HcC).
    assert (recomputed A B = hl) as HeqL
      by (rewrite recomputed_height by done; by rewrite Hhl).
    rewrite HeqL in Hrep2.
    assert (recomputed (Node A al kl vl hl B) C = hn) as HeqN.
    { rewrite recomputed_height; [by rewrite Hhn|by split_and!|done]. }
    by rewrite HeqN in Hrep2.
  - destruct (RotateLeft_in_context t c A al kl vl hl B an kn vn hn C Hrep Hbst)
      as (t1 & Hrot1 & Hrep1 & Hcnt1 & _).
    unfold rotated_left in Hrep1.
    assert (bst (plug c (Node (Node A al kl vl (recomputed A B) B) an kn vn
                           (recomputed (Node A al kl vl (recomputed A B) B) C)
                           C))) as Hbst1.
    { revert Hbst. apply bst_by_keys, keys_entries, entries_plug.
      simpl. by rewrite <- app_assoc. }
    destruct (RotateRight_in_context t1 c A al kl vl _ B an kn vn _ C Hrep1 Hbst1)
      as (t2 & Hrot2 & Hrep2 & Hcnt2 & _).
    exists t1, t2. split_and!; [done|done| |unfold GetCount; congruence].
    unfold rotated_right in Hrep2.
    destruct Hc as (Hhl & HcA & (Hhn & HcB & HcC)).
    assert (recomputed B C = hn) as HeqN
      by (rewrite recomputed_height by done; by rewrite Hhn).
    rewrite HeqN in Hrep2.
    assert (recomputed A (Node B an kn vn hn C) = hl) as HeqL.
    { rewrite recomputed_height; [by rewrite Hhl|done|by split_and!]. }
    by rewrite HeqL in Hrep2.
Qed.

Lemma rotations_undo_each_other_witness :
  ∃ t1 t2, RotateRight three_keys_tree (Some 1%positive) None = Some t1 ∧
           RotateLeft t1 (Some 2%positive) None = Some t2 ∧
           represents t2 three_keys_shape ∧
           GetCount t2 = GetCount three_keys_tree.
Proof.
  apply (proj1 (rotations_undo_each_other three_keys_tree []
                  Leaf 2%positive 1 "one" 0 Leaf 1%positive 2 "two" 1
                  (Node Leaf 3 3 "three" 0 Leaf))).
  - exact (proj1 sound_three_keys).
  - exact (proj1 (proj2 sound_three_keys)).
  - exact (proj2 (proj2 (proj2 sound_three_keys))).
Defined.

(** X15: a rotation needs the child that comes up: [RotateRight] of a node
    with no left child and [RotateLeft] of a node with no right child read a
    field of the null node, whatever the parent given. *)
Theorem rotation_without_the_child_is_undefined (t : AVLTree) (a : loc)
    (n : AVLTreeNode) (parent : ptr) :
  store t !! a = Some n →
  (left_ n = None → RotateRight t (Some a) parent = None) ∧
  (right_ n = None → RotateLeft t (Some a) parent = None).
Proof.
  intros Hn. split; intros Hchild.
  - unfold RotateRight. rewrite (GetLeft_lookup _ _ _ Hn), Hchild. done.
  - unfold RotateLeft. rewrite (GetRight_lookup _ _ _ Hn), Hchild. done.
Qed.

Lemma rotation_without_the_child_is_undefined_witness :
  RotateRight three_keys_tree (Some 2%positive) (Some 1%positive) = None ∧
  RotateLeft three_keys_tree (Some 2%positive) (Some 1%positive) = None.
Proof.
  destruct (rotation_without_the_child_is_undefined three_keys_tree 2%positive
              (mkNode 1 "one" None None 0) (Some 1%positive)) as [HR HL].
  - vm_compute. reflexivity.
  - split; [by apply HR|by apply HL].
Defined.

(** ** Allocation *)

Lemma same_nodes_refl (h : heap) : same_nodes h h.
Proof. done. Qed.

Lemma same_nodes_trans (h1 h2 h3 : heap) :
  same_nodes h1 h2 → same_nodes h2 h3 → same_nodes h1 h3.
Proof. unfold same_nodes. congruence. Qed.

Lemma same_nodes_write (h : heap) (a : loc) (n n' : AVLTreeNode) :
  h !! a = Some n → same_nodes h (<[a := n']> h).
Proof.
  intros Hn. unfold same_nodes. rewrite dom_insert_L.
  apply elem_of_dom_2 in Hn. apply set_eq. intros x.
  rewrite elem_of_union, elem_of_singleton. split; [by intros [->|?]|auto].
Qed.

Lemma SetLeft_nodes (h h' : heap) (this p : ptr) :
  SetLeft h this p = Some h' → same_nodes h h'.
Proof.
  unfold SetLeft. intros H. destruct this as [a|]; simplify_option_eq.
  by eapply same_nodes_write.
Qed.

Lemma SetRight_nodes (h h' : heap) (this p : ptr) :
  SetRight h this p = Some h' → same_nodes h h'.
Proof.
  unfold SetRight. intros H. destruct this as [a|]; simplify_option_eq.
  by eapply same_nodes_write.
Qed.

Lemma CalculateHeight_nodes (h h' : heap) (this : ptr) :
  CalculateHeight h this = Some h' → same_nodes h h'.
Proof.
  unfold CalculateHeight. intros H. destruct this as [a|]; simplify_option_eq.
  by eapply same_nodes_write.
Qed.

Ltac keep_nodes :=
  repeat match goal with
  | H : SetLeft _ _ _ = Some _ |- _ => apply SetLeft_nodes in H
  | H : SetRight _ _ _ = Some _ |- _ => apply SetRight_nodes in H
  | H : CalculateHeight _ _ = Some _ |- _ => apply CalculateHeight_nodes in H
  end;
  simpl in *;
  repeat first
    [ assumption
    | apply same_nodes_refl
    | eapply same_nodes_trans; [eassumption|] ].

Lemma rewire_nodes t top parent t' :
  rewire t top parent = Some t' → same_nodes (store t) (store t').
Proof. unfold rewire. intros H. unbind; keep_nodes. Qed.

Lemma RotateRight_nodes t node parent t' :
  RotateRight t node parent = Some t' → same_nodes (store t) (store t').
Proof.
  unfold RotateRight. intros H. unbind.
  match goal with H : rewire _ _ _ = Some _ |- _ => apply rewire_nodes in H end.
  keep_nodes.
Qed.

Lemma RotateLeft_nodes t node parent t' :
  RotateLeft t node parent = Some t' → same_nodes (store t) (store t').
Proof.
  unfold RotateLeft. intros H. unbind.
  match goal with H : rewire _ _ _ = Some _ |- _ => apply rewire_nodes in H end.
  keep_nodes.
Qed.

Ltac keep_nodes_more :=
  repeat match goal with
  | H : RotateLeft _ _ _ = Some _ |- _ => apply RotateLeft_nodes in H
  | H : RotateRight _ _ _ = Some _ |- _ => apply RotateRight_nodes in H
  | H : rewire _ _ _ = Some _ |- _ => apply rewire_nodes in H
  end; keep_nodes.

Lemma rebalance_step_nodes t current stk t' :
  rebalance_step t current stk = Some t' → same_nodes (store t) (store t').
Proof. unfold rebalance_step. intros H. unbind; keep_nodes_more. Qed.

Lemma rebalance_nodes stk : ∀ t current t',
  rebalance t current stk = Some t' → same_nodes (store t) (store t').
Proof.
  induction stk as [|next rest IH]; intros t [c|] t' H; simpl in H;
    unbind; try apply same_nodes_refl.
  match goal with H : rebalance_step _ _ _ = Some _ |- _ => apply rebalance_step_nodes in H end.
  match goal with H : rebalance _ _ _ = Some _ |- _ => apply IH in H end.
  by eapply same_nodes_trans.
Qed.

(** X16: every [Add] that returns or throws has allocated exactly one node,
    which holds the pair given, and has freed none: the node made for a key
    that is rejected as a duplicate stays allocated. *)
Theorem Add_allocates_one_node (t : AVLTree) (k : Z) (v : string)
    (r : ret unit) (t' : AVLTree) :
  Add t k v = Some (r, t') →
  let a := fresh (dom (store t)) in
  (a ∉ dom (store t)) ∧ dom (store t') = {[a]} ∪ dom (store t) ∧
  ∃ n, store t' !! a = Some n ∧ key_ n = k ∧ value_ n = v.
Proof.
  intros HAdd a. split; [apply is_fresh|].
  pose proof (Add_keeps_fields _ _ _ _ _ HAdd) as Hkept.
  assert (same_nodes (<[a := mkNode k v None None 0]> (store t)) (store t'))
    as Hnodes.
  { revert HAdd. unfold Add, new_node. fold a. cbn [fst snd]. intros H.
    unbind;
      repeat match goal with
      | H : rebalance _ _ _ = Some _ |- _ => apply rebalance_nodes in H
      end; keep_nodes_more. }
  split.
  - rewrite Hnodes. apply dom_insert_L.
  - revert HAdd. unfold Add, new_node. fold a. cbn [fst snd]. intros H.
    assert (fields_kept (<[a := mkNode k v None None 0]> (store t)) (store t'))
      as Hk.
    { unbind;
        repeat match goal with
        | H : rebalance _ _ _ = Some _ |- _ => apply rebalance_kept in H
        end; keep_fields_more. }
    destruct (Hk a _ (lookup_insert_eq _ _ _)) as (n & Hn & Hkey & Hval).
    by exists n.
Qed.

Lemma Add_allocates_one_node_witness :
  (fresh (dom (store three_keys_tree)) ∉ dom (store three_keys_tree)) ∧
  dom (store (set_store three_keys_tree
                (new_node (store three_keys_tree) 3 "drei").2)) =
    {[fresh (dom (store three_keys_tree))]} ∪ dom (store three_keys_tree) ∧
  ∃ n, store (set_store three_keys_tree
                (new_node (store three_keys_tree) 3 "drei").2)
         !! fresh (dom (store three_keys_tree)) = Some n ∧
       key_ n = 3 ∧ value_ n = "drei".
Proof.
  apply (Add_allocates_one_node three_keys_tree 3 "drei"
           (Throw KeyAlreadyExists)).
  vm_compute. reflexivity.
Defined.

(** ** main.cc *)

(** X18: the program adds the keys 0 to 254 in ascending order and ends with
    the complete tree of eight levels: it prints the 255 values level by
    level, the root 127 first, and then height 7, balance factor 0 and
    size 255. *)
Theorem main_prints_the_complete_tree :
  main = Some (["" ; "" ; ""] ++
               ((λ i, "Main, printing: " +:+ to_string i) <$> complete_order) ++
               ["Tree Height: 7  Balance Factor: 0  Tree Size: 255"]) ∧
  head complete_order = Some 127 ∧
  complete_order ≡ₚ seqZ 0 255.
Proof.
  split; [vm_compute; reflexivity|]. split; [reflexivity|].
  apply (bool_decide_unpack _). vm_compute. exact I.
Qed.

(** ** Loading a tree in level order *)

Lemma rebalance_descend (a : loc) (k : Z) (v : string) (P : tree) : ∀ c,
  rebalance_ctx (descend P k c) (Node Leaf a k v 0 Leaf) =
  rebalance_ctx c (ins P a k v).
Proof.
  induction P as [|l IHl a' k' v' ht r IHr]; intros c; simpl; [done|].
  destruct (k >? k'); [by rewrite IHr|by rewrite IHl].
Qed.

Lemma balance_node_balanced (l : tree) (a : loc) (k : Z) (v : string) (r : tree) :
  heights_cached l → heights_cached r → Z.abs (height l - height r) <= 1 →
  balance_node l a k v r = Node l a k v (1 + Z.max (height l) (height r)) r.
Proof.
  intros Hl Hr Hbal. unfold balance_node.
  rewrite (cached_height l Hl), (cached_height r Hr).
  destruct (Z.gtb_spec (height l - height r) 1); [lia|].
  destruct (Z.ltb_spec (height l - height r) (-1)); [lia|].
  by rewrite recomputed_height.
Qed.

Lemma is_cut_cached (X : Z → Prop) (T : tree) : ∀ d P,
  is_cut X d T P → heights_cached P.
Proof.
  induction T as [|l IHl a k v ht r IHr]; intros d P; simpl; [by intros ->|].
  destruct d as [|d].
  - intros [(_ & a' & ->)|(_ & ->)]; simpl; done.
  - intros (Pl & a' & Pr & -> & Hl & Hr). simpl. repeat split; eauto.
Qed.

Lemma is_cut_height (X : Z → Prop) (T : tree) : ∀ d P,
  is_cut X d T P →
  (height T < Z.of_nat d → height P = height T) ∧
  (Z.of_nat d <= height T → Z.of_nat d - 1 <= height P <= Z.of_nat d).
Proof.
  induction T as [|l IHl a k v ht r IHr]; intros d P; simpl.
  - intros ->. simpl. lia.
  - pose proof (height_ge l). pose proof (height_ge r).
    destruct d as [|d].
    + intros [(_ & a' & ->)|(_ & ->)]; simpl; lia.
    + intros (Pl & a' & Pr & -> & Hl & Hr). simpl.
      apply IHl in Hl. apply IHr in Hr. lia.
Qed.

Lemma is_cut_avl (X : Z → Prop) (T : tree) : ∀ d P,
  avl T → is_cut X d T P → avl P.
Proof.
  induction T as [|l IHl a k v ht r IHr]; intros d P; simpl; [by intros _ ->|].
  intros (Hbal & Hal & Har). destruct d as [|d].
  - intros [(_ & a' & ->)|(_ & ->)]; simpl; done.
  - intros (Pl & a' & Pr & -> & Hl & Hr). simpl.
    pose proof (is_cut_height _ _ _ _ Hl). pose proof (is_cut_height _ _ _ _ Hr).
    repeat split; [lia|eauto|eauto].
Qed.

Lemma is_cut_ext (X X' : Z → Prop) (T : tree) : ∀ d P,
  (∀ k, k ∈ keys T → X k ↔ X' k) → is_cut X d T P → is_cut X' d T P.
Proof.
  induction T as [|l IHl a k v ht r IHr]; intros d P Hext; simpl; [done|].
  rewrite keys_Node in Hext.
  assert (X k ↔ X' k) as Hk by (apply Hext; in_list).
  destruct d as [|d].
  - rewrite Hk. done.
  - intros (Pl & a' & Pr & -> & Hl & Hr). exists Pl, a', Pr.
    split_and!; [done|apply IHl|apply IHr]; try done;
      intros x Hx; apply Hext; in_list.
Qed.

Lemma level_keys (T : tree) : ∀ d n, n ∈ level d T → key_ n ∈ keys T.
Proof.
  induction T as [|l IHl a k v ht r IHr]; intros d n; simpl;
    [by intros ?%elem_of_nil|].
  rewrite keys_Node. destruct d as [|d].
  - intros ->%list_elem_of_singleton. simpl. in_list.
  - intros [H|H]%elem_of_app; [apply IHl in H|apply IHr in H]; in_list.
Qed.

(** Adding the next node of level [d] to the cut tree puts it in its place,
    and no node on the way back is rotated. *)
Lemma ins_cut (X : Z → Prop) (T : tree) : ∀ d P a n,
  bst T → avl T → is_cut X d T P → n ∈ level d T → ¬ X (key_ n) →
  is_cut (λ x, x = key_ n ∨ X x) d T (ins P a (key_ n) (value_ n)).
Proof.
  induction T as [|l IHl a0 k v ht r IHr]; intros d P a n Hbst Havl Hcut Hn HX;
    [by apply elem_of_nil in Hn|].
  assert (avl (Node l a0 k v ht r)) as Havl0 by done.
  destruct Hbst as (Hlt & Hgt & Hbl & Hbr). destruct Havl as (_ & Hal & Har).
  rewrite Forall_forall in Hlt, Hgt.
  destruct d as [|d].
  - apply list_elem_of_singleton in Hn as ->. simpl in *.
    destruct Hcut as [(? & _)|(_ & ->)]; [done|].
    left. split; [by left|by exists a].
  - cbn [level] in Hn. destruct Hcut as (Pl & a' & Pr & -> & Hl & Hr).
    assert (is_cut (λ x, x = key_ n ∨ X x) (S d) (Node l a0 k v ht r)
              (ins (Node Pl a' k v (1 + Z.max (height Pl) (height Pr)) Pr) a
                 (key_ n) (value_ n))); [|done].
    apply elem_of_app in Hn as [Hn|Hn].
    + pose proof (Hlt _ (level_keys _ _ _ Hn)) as Hk.
      assert (is_cut (λ x, x = key_ n ∨ X x) d l (ins Pl a (key_ n) (value_ n)))
        as Hl' by by apply IHl.
      assert (is_cut (λ x, x = key_ n ∨ X x) d r Pr) as Hr'.
      { apply (is_cut_ext X); [|done]. intros x Hx%Hgt. split; [by right|].
        intros [->|?]; [lia|done]. }
      assert (is_cut (λ x, x = key_ n ∨ X x) (S d) (Node l a0 k v ht r)
                (Node (ins Pl a (key_ n) (value_ n)) a' k v
                   (1 + Z.max (height (ins Pl a (key_ n) (value_ n))) (height Pr)) Pr))
        as Hcut' by (by eexists _, _, _).
      cbn [ins]. destruct (Z.gtb_spec (key_ n) k); [lia|].
      rewrite balance_node_balanced; [done|by eapply is_cut_cached..|].
      by destruct (is_cut_avl _ _ _ _ Havl0 Hcut').
    + pose proof (Hgt _ (level_keys _ _ _ Hn)) as Hk.
      assert (is_cut (λ x, x = key_ n ∨ X x) d r (ins Pr a (key_ n) (value_ n)))
        as Hr' by by apply IHr.
      assert (is_cut (λ x, x = key_ n ∨ X x) d l Pl) as Hl'.
      { apply (is_cut_ext X); [|done]. intros x Hx%Hlt. split; [by right|].
        intros [->|?]; [lia|done]. }
      assert (is_cut (λ x, x = key_ n ∨ X x) (S d) (Node l a0 k v ht r)
                (Node Pl a' k v
                   (1 + Z.max (height Pl) (height (ins Pr a (key_ n) (value_ n))))
                   (ins Pr a (key_ n) (value_ n))))
        as Hcut' by (by eexists _, _, _).
      cbn [ins]. destruct (Z.gtb_spec (key_ n) k); [|lia].
      rewrite balance_node_balanced; [done|by eapply is_cut_cached..|].
      by destruct (is_cut_avl _ _ _ _ Havl0 Hcut').
Qed.

(** A cut with level [d] complete is a cut at depth [d + 1] with nothing of
    that level. *)
Lemma is_cut_next (X X' : Z → Prop) (T : tree) : ∀ d P,
  is_cut X d T P →
  (∀ n, n ∈ level d T → X (key_ n)) →
  (∀ n, n ∈ level (S d) T → ¬ X' (key_ n)) →
  is_cut X' (S d) T P.
Proof.
  induction T as [|l IHl a k v ht r IHr]; intros d P Hcut Hall Hnone; [done|].
  destruct d as [|d].
  - destruct Hcut as [(_ & a' & ->)|(HX & _)].
    + exists Leaf, a', Leaf. split; [done|].
      split.
      * destruct l as [|ll la lk lv lh lr]; [done|]. right. split; [|done].
        apply (Hnone (cell ll lk lv lh lr)). simpl. in_list.
      * destruct r as [|rl ra rk rv rh rr]; [done|]. right. split; [|done].
        apply (Hnone (cell rl rk rv rh rr)). cbn [level].
        apply elem_of_app. right. simpl. in_list.
    + destruct HX. apply (Hall (cell l k v ht r)). simpl. in_list.
  - destruct Hcut as (Pl & a' & Pr & -> & Hl & Hr).
    exists Pl, a', Pr. split; [done|]. split.
    + apply (IHl d); [done|..]; intros n Hn; [apply Hall|apply Hnone];
        cbn [level]; apply elem_of_app; by left.
    + apply (IHr d); [done|..]; intros n Hn; [apply Hall|apply Hnone];
        cbn [level]; apply elem_of_app; by right.
Qed.

(** A cut below the last level is the whole tree. *)
Lemma is_cut_all (X : Z → Prop) (T : tree) : ∀ d P,
  heights_cached T → is_cut X d T P → height T < Z.of_nat d →
  outline P = outline T.
Proof.
  induction T as [|l IHl a k v ht r IHr]; intros d P Hc Hcut Hd;
    [by rewrite Hcut|].
  pose proof (height_ge l). pose proof (height_ge r).
  destruct Hc as (Hht & Hcl & Hcr). cbn [height] in Hht, Hd.
  destruct d as [|d]; [lia|].
  destruct Hcut as (Pl & a' & Pr & -> & Hl & Hr).
  pose proof (is_cut_height _ _ _ _ Hl) as [Hhl _].
  pose proof (is_cut_height _ _ _ _ Hr) as [Hhr _].
  cbn [outline]. rewrite (IHl d Pl), (IHr d Pr), Hhl, Hhr, Hht by (done || lia).
  done.
Qed.

Lemma Add_all_app (kvs1 : list (Z * string)) : ∀ (t : AVLTree) kvs2,
  Add_all t (kvs1 ++ kvs2) = Add_all t kvs1 ≫= λ t', Add_all t' kvs2.
Proof.
  induction kvs1 as [|[k v] kvs1 IH]; intros t kvs2; [done|].
  cbn [app Add_all]. destruct (Add t k v) as [[[] t']|]; cbn; [apply IH|done..].
Qed.

Lemma below_S (d : nat) (T : tree) : below (S d) T = below d T ++ level d T.
Proof.
  unfold below. by rewrite seq_S, fmap_app, concat_app; simpl; rewrite app_nil_r.
Qed.

Lemma key_of_node_entry (ns : list AVLTreeNode) :
  key <$> (node_entry <$> ns) = key_ <$> ns.
Proof. by rewrite <- list_fmap_compose. Qed.

Lemma load_level (T : tree) (d : nat) :
  bst T → avl T → ∀ todo pre t P,
  level d T = pre ++ todo →
  NoDup (key_ <$> (below d T ++ pre ++ todo)) →
  loaded T d pre t P →
  count_ t + Z.of_nat (length todo) <= INT_MAX →
  ∃ t' P', Add_all t (node_pair <$> todo) = Some t' ∧
           loaded T d (pre ++ todo) t' P' ∧
           traversal_method_ t' = traversal_method_ t.
Proof.
  intros Hbst Havl. induction todo as [|n todo IH]; intros pre t P Hlev Hnd Hl Hcnt.
  - exists t, P. by rewrite app_nil_r.
  - destruct Hl as (Hrep & HbP & Hcut & Hent & Hc).
    pose proof Hnd as Hnd'. rewrite app_assoc, fmap_app, fmap_cons in Hnd'.
    apply NoDup_app in Hnd' as (_ & Hnew & _).
    assert (key_ n ∉ key_ <$> (below d T ++ pre)) as Hfresh.
    { intros Hin. apply (Hnew _ Hin). by left. }
    assert (key_ n ∉ keys P) as HkP.
    { unfold keys. by rewrite Hent, key_of_node_entry. }
    cbn [length] in Hcnt.
    destruct (Add_new_key_tree t P (key_ n) (value_ n))
      as (t1 & HAdd & Hrep1 & Hbst1 & _ & _ & Hent1 & Hc1 & Htm1);
      [done|done|by eapply is_cut_avl|by eapply is_cut_cached|done|lia|].
    rewrite rebalance_descend in Hrep1, Hbst1, Hent1. cbn [rebalance_ctx] in *.
    destruct (IH (pre ++ [n]) t1 (ins P (fresh (dom (store t))) (key_ n) (value_ n)))
      as (t' & P' & HAll & Hl' & Htm').
    + by rewrite <- app_assoc.
    + by rewrite <- (app_assoc pre).
    + split_and!; [done|done|..].
      * eapply is_cut_ext; [|apply ins_cut; try done].
        -- intros x _. rewrite fmap_app, elem_of_app. simpl.
           rewrite list_elem_of_singleton. tauto.
        -- rewrite Hlev. in_list.
        -- intros Hin. apply Hfresh. rewrite fmap_app. apply elem_of_app. by right.
      * rewrite Hent1, Hent, app_assoc, (fmap_app _ (_ ++ _) [n]). simpl.
        by rewrite Permutation_cons_append.
      * rewrite Hc1, Hc, !length_app. simpl. lia.
    + lia.
    + exists t', P'. rewrite <- app_assoc in Hl'. rewrite Htm', Htm1.
      split; [|done]. cbn [fmap list_fmap Add_all node_pair]. by rewrite HAdd.
Qed.

Lemma load_levels (T : tree) :
  bst T → avl T → ∀ m d t P,
  NoDup (key_ <$> (below d T ++ concat ((λ e, level e T) <$> seq d m))) →
  loaded T d [] t P →
  count_ t + Z.of_nat (length (concat ((λ e, level e T) <$> seq d m))) <= INT_MAX →
  ∃ t' P', Add_all t (node_pair <$> concat ((λ e, level e T) <$> seq d m)) = Some t' ∧
           loaded T (d + m) [] t' P' ∧
           traversal_method_ t' = traversal_method_ t.
Proof.
  intros Hbst Havl. induction m as [|m IH]; intros d t P Hnd Hl Hcnt.
  - exists t, P. by rewrite Nat.add_0_r.
  - cbn [seq fmap list_fmap concat] in *.
    rewrite length_app in Hcnt.
    destruct (load_level T d Hbst Havl (level d T) [] t P)
      as (t1 & P1 & HAll1 & (Hrep1 & Hbst1 & Hcut1 & Hent1 & Hc1) & Htm1);
      [done| |done|lia|].
    { rewrite app_assoc, fmap_app in Hnd. by apply NoDup_app in Hnd as (? & _). }
    cbn [app] in *.
    destruct (IH (S d) t1 P1) as (t' & P' & HAll & Hl' & Htm').
    + by rewrite below_S, <- app_assoc.
    + split_and!; [done|done|..].
      * eapply is_cut_next; [done|..].
        -- intros n Hn. by apply list_elem_of_fmap_2.
        -- intros n _ Hn. simpl in Hn. by apply elem_of_nil in Hn.
      * by rewrite app_nil_r, below_S.
      * by rewrite app_nil_r, below_S.
    + destruct Hl as (_ & _ & _ & _ & Hc). rewrite Hc1. rewrite Hc in Hcnt.
      rewrite !length_app in *. simpl in *. lia.
    + exists t', P'. rewrite fmap_app, Add_all_app, HAll1. cbn.
      rewrite <- Nat.add_succ_comm. by rewrite Htm', Htm1.
Qed.

(** X19: the nodes the top-down iteration of a balanced binary search tree
    visits, added in that order to a new tree, build the same tree again:
    the same keys and values in the same places under the same heights, so
    no rotation took place on the way. *)
Theorem TopDown_order_reloads_the_tree (t : AVLTree) (T : tree) (h : heap) :
  sound t T → Z.of_nat (nodes_count T) <= INT_MAX →
  ∃ nodes t' T',
    range_for (nodes_count T) (SetTraversalMethod t TopDown) = Some nodes ∧
    Add_all (AVLTree_new h) (node_pair <$> nodes) = Some t' ∧
    sound t' T' ∧ outline T' = outline T ∧
    GetCount t' = Z.of_nat (nodes_count T).
Proof.
  intros (Hrep & Hbst & Havl & Hc) Hcnt.
  assert (NoDup (key_ <$> breadth_first T)) as Hnd.
  { rewrite breadth_first_permutation, <- key_of_node_entry, cells_entries.
    apply increasing_NoDup, entries_sorted, Hbst. }
  assert (length (breadth_first T) = nodes_count T) as Hlen
    by by rewrite breadth_first_permutation, length_cells.
  destruct (load_levels T Hbst Havl (levels T) 0%nat (AVLTree_new h) Leaf)
    as (t' & T' & HAll & (Hrep' & Hbst' & Hcut & _ & Hc') & _).
  { done. }
  { unfold loaded, represents. simpl. repeat split; try done; [constructor|].
    destruct T as [|l a k v ht r]; [done|]. right.
    split; [by intros ?%elem_of_nil|done]. }
  { fold (breadth_first T). rewrite Hlen. simpl. lia. }
  exists (breadth_first T), t', T'. split_and!.
  - apply range_for_top_down; [by destruct Hrep as (? & ? & ?)|done|done].
  - done.
  - split_and!; [done|done|by eapply is_cut_avl|by eapply is_cut_cached].
  - eapply is_cut_all; [done|done|]. rewrite height_levels. simpl. lia.
  - unfold GetCount. rewrite Hc', app_nil_r.
    change (below (0 + levels T) T) with (breadth_first T). by rewrite Hlen.
Qed.

Lemma TopDown_order_reloads_the_tree_witness :
  ∃ nodes t' T',
    range_for (nodes_count twelve_keys_shape)
      (SetTraversalMethod twelve_keys_tree TopDown) = Some nodes ∧
    Add_all (AVLTree_new ∅) (node_pair <$> nodes) = Some t' ∧
    sound t' T' ∧ outline T' = outline twelve_keys_shape ∧
    GetCount t' = Z.of_nat (nodes_count twelve_keys_shape).
Proof.
  apply (TopDown_order_reloads_the_tree twelve_keys_tree twelve_keys_shape ∅).
  - exact sound_twelve_keys.
  - vm_compute; discriminate.
Defined.
